(** * Test topology and run-state reconciliation of the Vitest explorer

    A shallow embedding of the reconciliation core of the extension:

    - [Client]    the [StateManager] of the websocket client (the file
                  copied from vitest), an index of runtime tasks;
    - [Watcher]   the continuous-run scheduler of the worker
                  (src/worker/watcher.ts, [VitestWatcher]);
    - [Discover]  the tree builder [discoverTestFromFileContent]
                  (src/discover.ts);
    - [Watch]     the matcher, the run-state synchroniser and [runFiles] of
                  [TestWatcher] (src/watch.ts).

    Around this core:

    - [Collect]   [collectFiles] and [updateId] of the [StateManager];
    - [Status]    [updateStatus], [onUpdated] and the handler [onFinished]
                  of [TestWatcher];
    - [Reports]   what a synchronisation may report;
    - [Shape]     the items and the data that a build leaves;
    - [Files]     [getOrCreateFile] of [TestFileDiscoverer] and the labels
                  of file items;
    - [Utils]     [sanitizeFilePath] (src/pure/utils.ts);
    - [IndexMap]  [createIndexMap] of the collector in the worker;
    - [Collector] the loop of [astCollectTests] that places the definitions;
    - [Reconnect] the reconnection of the websocket client.

    JavaScript objects that are shared and mutated in place (runtime tasks)
    live in an explicit store addressed by locations.  Test items are
    addressed by their [id], the key under which the controller files them. *)

From stdpp Require Import gmap strings list sorting.
From Stdlib Require Import ZArith Lia Ascii DecimalString.
From Stdlib Require DecimalNat.

#[local] Set Warnings "-register-all,-clear-no-such-hyp".

(** ** Runtime tasks and the client's state manager *)

Module Client.

(** A reference to a task object. *)
Definition loc := nat.

(** [ErrorWithDiff]: only the message is read by the extension; it may be
    missing on values that were deserialised from the wire. *)
Record ErrorWithDiff := { message : option string }.

(** [TaskResult].  [state] is kept as the string the runtime sends. *)
Record TaskResult := {
  state : string;
  duration : option Z;
  error : option ErrorWithDiff
}.

(** A task object in the store.  [tasks] holds references to the children
    (empty for tests), [result] is the optional property the reporter
    overwrites. *)
Record Task := {
  id : string;
  type : string;
  name : string;
  tasks : list loc;
  result : option TaskResult
}.

Definition set_result (r : option TaskResult) (t : Task) : Task :=
  {| id := id t; type := type t; name := name t; tasks := tasks t;
     result := r |}.

(** [class StateManager]: [filesMap] and [idMap] hold references, [heap] is
    the store the references point into. *)
Record StateManager := {
  filesMap : gmap string loc;
  idMap : gmap string loc;
  errorsSet : list string;
  heap : gmap loc Task
}.

Definition with_heap (h : gmap loc Task) (sm : StateManager) : StateManager :=
  {| filesMap := filesMap sm; idMap := idMap sm; errorsSet := errorsSet sm;
     heap := h |}.

(** [TaskResultPack]: the id and the (possibly undefined) result. *)
Definition TaskResultPack := (string * option TaskResult)%type.

(** One iteration of the loop of [updateTasks]:
    [if (this.idMap.has(id)) this.idMap.get(id)!.result = result]. *)
Definition updateTask (sm : StateManager) (pack : TaskResultPack) : StateManager :=
  match idMap sm !! pack.1 with
  | Some l => with_heap (alter (set_result pack.2) l (heap sm)) sm
  | None => sm
  end.

(** [updateTasks(packs)]: [for (const [id, result] of packs) ...]. *)
Definition updateTasks (packs : list TaskResultPack) (sm : StateManager) : StateManager :=
  foldl updateTask sm packs.

(** The result a batch leaves on the task object [l]: that of the last pack
    whose id the index resolves to [l], if there is one. *)
Definition lastUpdate (sm : StateManager) (packs : list TaskResultPack) (l : loc)
    : option (option TaskResult) :=
  last (snd <$> filter (λ p, idMap sm !! p.1 = Some l) packs).

End Client.

(** ** The continuous-run scheduler of the worker *)

Module Watcher.

(** The private fields of [class VitestWatcher]. *)
Record VitestWatcher := {
  files : list string;
  testNamePattern : option string;
  watchEveryFile : bool;
  rerunTriggered : bool;
  enabled : bool
}.

(** A workspace project, as far as [scheduleRerun] looks at it:
    [project.config.browser.enabled]. *)
Record WorkspaceProject := {
  projectName : string;
  browserEnabled : bool
}.

Definition WorkspaceSpec := (WorkspaceProject * string)%type.

(** The fields of the Vitest context that the patched [scheduleRerun] reads
    and writes.  Both sets are JavaScript [Set]s of paths, kept in insertion
    order. *)
Record Ctx := {
  changedTests : list string;
  invalidates : list string;
  configOverride_testNamePattern : option string
}.

(** What the function does besides updating the two records.
    [ThrowSyntaxError] is the exception of [new RegExp] on a pattern that
    does not compile: nothing of the function runs after it. *)
Inductive Effect :=
| LogCollecting (fs : list string)
| LogAstExplorer
| AstCollect (specs : list WorkspaceSpec)
| LogRerunAll (fs : list string) (pattern : option string)
| LogRerun (tests : list string) (pattern : option string)
| OriginalScheduleRerun (fs : list string)
| ThrowSyntaxError (pattern : string).

(** [file[file.length - 1]]; undefined on the empty string. *)
Definition last_char (file : string) : option ascii :=
  match String.length file with
  | O => None
  | S n => String.get n file
  end.

(** The callback of [this.files.some(...)] in [isTestFileWatched]. *)
Definition watches (testFile file : string) : bool :=
  if bool_decide (file = testFile) then true
  else if bool_decide (last_char file = Some "/"%char) then String.prefix file testFile
  else false.

(** [isTestFileWatched(testFile)]. *)
Definition isTestFileWatched (st : VitestWatcher) (testFile : string) : bool :=
  match files st with
  | [] => false
  | _ => existsb (watches testFile) (files st)
  end.

(** [trackTests], [trackEveryFile], [stopTracking], [markRerun]. *)
Definition trackTests (fs : list string) (pattern : option string)
    (st : VitestWatcher) : VitestWatcher :=
  {| files := fs; testNamePattern := pattern; watchEveryFile := false;
     rerunTriggered := false; enabled := true |}.

Definition trackEveryFile (st : VitestWatcher) : VitestWatcher :=
  {| files := []; testNamePattern := None; watchEveryFile := true;
     rerunTriggered := false; enabled := true |}.

Definition stopTracking (st : VitestWatcher) : VitestWatcher :=
  {| files := files st; testNamePattern := testNamePattern st;
     watchEveryFile := watchEveryFile st; rerunTriggered := rerunTriggered st;
     enabled := false |}.

Definition markRerun (rerun : bool) (st : VitestWatcher) : VitestWatcher :=
  {| files := files st; testNamePattern := testNamePattern st;
     watchEveryFile := watchEveryFile st; rerunTriggered := rerun;
     enabled := enabled st |}.

(** The pattern that [state.testNamePattern ? new RegExp(...) : undefined]
    hands to the constructor: the empty string is falsy. *)
Definition namePatternOf (st : VitestWatcher) : option string :=
  match testNamePattern st with
  | Some p => if bool_decide (p = "") then None else Some p
  | None => None
  end.

Section ScheduleRerun.

(** [ctx.getProjectsByTestFile] and [Vitest.COLLECT_NAME_PATTERN] are
    declared outside the files at hand.  The latter is a constant of the
    worker, a pattern that compiles. *)
Variable getProjectsByTestFile : string → list WorkspaceSpec.
Variable COLLECT_NAME_PATTERN : string.

(** The grammar of regular expressions is the engine's: [compiles pattern]
    tells whether [new RegExp(pattern)] returns; it throws a SyntaxError
    otherwise.  A regular expression is kept as its pattern. *)
Variable compiles : string → bool.

(** The pattern on which [new RegExp(state.testNamePattern)] throws: there
    is a pattern to compile, and it does not compile. *)
Definition rejected (namePattern : option string) : option string :=
  match namePattern with
  | Some pattern => if compiles pattern then None else Some pattern
  | None => None
  end.

(** [this.changedTests.has(files[0])]. *)
Definition isTestFileTrigger (ctx : Ctx) (fs : list string) : bool :=
  match fs with
  | [] => false
  | triggerFile :: _ => bool_decide (triggerFile ∈ changedTests ctx)
  end.

(** The replacement of [ctx.scheduleRerun].  The result is the new watcher
    state, the new context and the effects in the order they happen.  The
    last effect is the call of the original [scheduleRerun], unless the
    tracked name pattern does not compile: then the function throws, after
    it has set [rerunTriggered] and before it touches the context. *)
Definition scheduleRerun (st : VitestWatcher) (ctx : Ctx) (fs : list string)
    : VitestWatcher * Ctx * list Effect :=
  let trigger := isTestFileTrigger ctx fs in
  if negb (enabled st) then
    if negb trigger then
      (st,
       {| changedTests := []; invalidates := [];
          configOverride_testNamePattern := configOverride_testNamePattern ctx |},
       [OriginalScheduleRerun fs])
    else
      let tests := changedTests ctx in
      let specs := flat_map getProjectsByTestFile tests in
      let browserSpecs := filter (λ spec, browserEnabled spec.1 = true) specs in
      let ctx' := {| changedTests := changedTests ctx; invalidates := invalidates ctx;
                     configOverride_testNamePattern := Some COLLECT_NAME_PATTERN |} in
      match browserSpecs with
      | [] => (st, ctx', [LogCollecting fs; OriginalScheduleRerun fs])
      | _ => (st, ctx',
              [LogCollecting fs; LogAstExplorer; AstCollect browserSpecs;
               OriginalScheduleRerun []])
      end
  else
    let st' := markRerun true st in
    let namePattern := namePatternOf st in
    match rejected namePattern with
    | Some pattern => (st', ctx, [ThrowSyntaxError pattern])
    | None =>
        if watchEveryFile st then
          (st',
           {| changedTests := changedTests ctx; invalidates := invalidates ctx;
              configOverride_testNamePattern := namePattern |},
           [LogRerunAll fs namePattern; OriginalScheduleRerun fs])
        else
          let changed :=
            if negb trigger
            then filter (λ file, isTestFileWatched st file = true) (changedTests ctx)
            else changedTests ctx in
          (st',
           {| changedTests := changed; invalidates := invalidates ctx;
              configOverride_testNamePattern := namePattern |},
           match changed with
           | [] => [OriginalScheduleRerun fs]
           | _ => [LogRerun changed namePattern; OriginalScheduleRerun fs]
           end)
    end.

End ScheduleRerun.

(** *** Vocabulary of the specification *)

(** A watched entry ends in a path separator. *)
Definition endsWithSeparator (w : string) : Prop := ∃ p, w = p +:+ "/".

(** The path [f] starts with [w]. *)
Definition startsWith (f w : string) : Prop := ∃ s, f = w +:+ s.

(** A file matches the watched set: it is a watched entry, or it lies under a
    watched entry that names a directory. *)
Definition matchesWatched (watched : list string) (f : string) : Prop :=
  ∃ w, w ∈ watched ∧ (w = f ∨ (endsWithSeparator w ∧ startsWith f w)).

(** The changed tests left for the rerun are the changed tests of the tick
    that match the watched set. *)
Definition rerunsIntersection (st : VitestWatcher) (ctx ctx' : Ctx) : Prop :=
  ∀ f, f ∈ changedTests ctx' ↔ f ∈ changedTests ctx ∧ matchesWatched (files st) f.

End Watcher.

(** ** The tree of test items and its data side-table *)

Module Tree.

Record Position := { line : Z; column : Z }.

Record Range := { range_start : Position; range_end : Position }.

(** [vscode.TestTag], compared by identity. *)
Definition TestTag := string.

(** [vscode.TestItem].  [controller.createTestItem(id, label, uri)] makes an
    item without range, tags or children. *)
Inductive TestItem := mkTestItem {
  item_id : string;
  label : string;
  uri : string;
  range : option Range;
  tags : list TestTag;
  children : list TestItem
}.

Definition createTestItem (i l u : string) : TestItem :=
  mkTestItem i l u None [] [].

Definition with_range (r : Range) (t : TestItem) : TestItem :=
  mkTestItem (item_id t) (label t) (uri t) (Some r) (tags t) (children t).

(** [item.children.replace(cs)]. *)
Definition children_replace (cs : list TestItem) (t : TestItem) : TestItem :=
  mkTestItem (item_id t) (label t) (uri t) (range t) (tags t) cs.

(** Modelled from the spec: the classes [TestDescribe] and [TestCase] of
    TestData.ts, the entries of [WEAKMAP_TEST_DATA] for suites and cases,
    which are tree nodes with a display name, a flag for parameterised
    blocks and, for suites, ordered children.  The synchroniser reads
    [pattern], [item] and [children] from them, and the builder passes the
    block name first.  [item] refers to the test item by its id; the weak
    back-reference to the parent is left out. *)
Inductive TestData :=
| TestDescribe (pattern : string) (isEach : bool) (item : string)
    (dataChildren : list TestData)
| TestCase (pattern : string) (isEach : bool) (item : string) (index : nat).

Definition pattern (d : TestData) : string :=
  match d with TestDescribe p _ _ _ | TestCase p _ _ _ => p end.

Definition item (d : TestData) : string :=
  match d with TestDescribe _ _ i _ | TestCase _ _ i _ => i end.

(** [data.children]; a case has no such property. *)
Definition data_children (d : TestData) : option (list TestData) :=
  match d with TestDescribe _ _ _ cs => Some cs | TestCase _ _ _ _ => None end.

Definition set_data_children (cs : list TestData) (d : TestData) : TestData :=
  match d with
  | TestDescribe p e i _ => TestDescribe p e i cs
  | TestCase p e i n => TestCase p e i n
  end.

Definition isTestDescribe (d : TestData) : bool :=
  match d with TestDescribe _ _ _ _ => true | TestCase _ _ _ _ => false end.

Definition isTestCase (d : TestData) : bool :=
  match d with TestDescribe _ _ _ _ => false | TestCase _ _ _ _ => true end.

(** Modelled from the spec: the class [TestFile] of TestData.ts, the entry
    of [WEAKMAP_TEST_DATA] for a file, with the ordered children the builder
    assigns. *)
Record TestFile := {
  file_item : string;
  file_children : list TestData
}.

(** The ids of an item and of its descendants, parents before children and
    siblings in the order of [children]. *)
Fixpoint ids (t : TestItem) : list string :=
  item_id t :: flat_map ids (children t).

(** Every item of the tree, in the same order. *)
Fixpoint items (t : TestItem) : list TestItem :=
  t :: flat_map items (children t).

(** Give every item of the tree the same tags. *)
Fixpoint retag (ts : list TestTag) (t : TestItem) : TestItem :=
  mkTestItem (item_id t) (label t) (uri t) (range t) ts
    (map (retag ts) (children t)).

End Tree.

(** ** Building the tree of a file from its blocks *)

Module Discover.
Import Tree.

(** Modelled from the spec: [NamedBlock] of pure/parsers/parser_nodes, a
    block with a kind, a name, the line and column where it starts and ends,
    and the last modifier of the call.  [type] is the string the builder
    compares with ['describe'] and ['it']. *)
Record NamedBlock := {
  type : string;
  name : string;
  start : Position;
  end_ : Position;
  lastProperty : option string
}.

(** Modelled from the spec: the result of [parse] of pure/parsers, as far
    as the builder reads it. *)
Record ParseResult := {
  describeBlocks : list NamedBlock;
  itBlocks : list NamedBlock
}.

(** *** Strings *)

(** [String(n)] for an array index. *)
Definition Number_toString (n : nat) : string :=
  NilEmpty.string_of_uint (Nat.to_uint n).

(** [xs.join(sep)]. *)
Definition join (sep : string) (xs : list string) : string :=
  String.concat sep xs.

(** White space as [String.prototype.trim] sees it, within ASCII. *)
Definition isWhiteSpace (c : ascii) : bool :=
  let n := nat_of_ascii c in
  ((9 <=? n)%nat && (n <=? 13)%nat) || (n =? 32)%nat.

Fixpoint trimStart (s : string) : string :=
  match s with
  | String c s' => if isWhiteSpace c then trimStart s' else s
  | EmptyString => EmptyString
  end.

Fixpoint trimEnd (s : string) : string :=
  match s with
  | String c s' =>
      match trimEnd s' with
      | EmptyString => if isWhiteSpace c then EmptyString else String c EmptyString
      | t => String c t
      end
  | EmptyString => EmptyString
  end.

Definition trim (s : string) : string := trimEnd (trimStart s).

(** [`${fileItem.uri}/${fullName}@${index}`]. *)
Definition makeId (u fullName : string) (index : nat) : string :=
  u +:+ "/" +:+ fullName +:+ "@" +:+ Number_toString index.

(** *** Sorting *)

(** The key of the comparator [(a, b) => (a.start?.line || 0) - (b.start?.line || 0)]. *)
Definition sortKey (b : NamedBlock) : Z := line (start b).

(** [Array.prototype.sort] is stable: a block goes in front of the first
    block behind it whose key is not smaller. *)
Fixpoint insertBlock (b : NamedBlock) (sorted : list NamedBlock) : list NamedBlock :=
  match sorted with
  | [] => [b]
  | x :: xs =>
      if (sortKey b <=? sortKey x)%Z then b :: x :: xs
      else x :: insertBlock b xs
  end.

Definition sortBlocks (arr : list NamedBlock) : list NamedBlock :=
  foldr insertBlock [] arr.

(** *** The stack of ancestors *)

(** What [data] of an entry refers to: the file's data or a suite's. *)
Inductive AncestorData :=
| OfFile
| OfDescribe (pattern : string) (isEach : bool) (item : string).

(** An entry of [ancestors].  [children] and [dataChildren] are the arrays
    that collect the entry's children until it is popped. *)
Record Ancestor := {
  anc_item : TestItem;
  anc_block : option NamedBlock;
  anc_children : list TestItem;
  anc_dataChildren : list TestData;
  anc_data : AncestorData
}.

(** Apply [f] to the last element of a list. *)
Fixpoint alter_last {A} (f : A → A) (l : list A) : list A :=
  match l with
  | [] => []
  | [x] => [f x]
  | x :: xs => x :: alter_last f xs
  end.

(** [ancestors.pop()] of a suite entry:
    [top.item.children.replace(top.children); top.data.children = [...top.dataChildren]].
    The item and the data of the suite were pushed onto the arrays of the
    entry below when the suite was created, and nothing was pushed there
    since: the two assignments show in the last element of those arrays. *)
Definition pop (top below : Ancestor) : Ancestor :=
  {| anc_item := anc_item below;
     anc_block := anc_block below;
     anc_children :=
       alter_last (children_replace (anc_children top)) (anc_children below);
     anc_dataChildren :=
       alter_last (set_data_children (anc_dataChildren top)) (anc_dataChildren below);
     anc_data := anc_data below |}.

(** [block.start!.line >= parent.block.end!.line]. *)
Definition startsAfter (block parentBlock : NamedBlock) : bool :=
  (line (end_ parentBlock) <=? line (start block))%Z.

(** [getParent(block)].  [parent] is the last entry of [ancestors], [rest]
    the entries below it, nearest first.  The entry of the file is the
    lowest one and has no block, which ends the loop at the latest. *)
Fixpoint getParent (block : NamedBlock) (parent : Ancestor) (rest : list Ancestor)
    : Ancestor * list Ancestor :=
  match anc_block parent, rest with
  | Some parentBlock, below :: rest' =>
      if startsAfter block parentBlock
      then getParent block (pop parent below) rest'
      else (parent, rest)
  | _, _ => (parent, rest)
  end.

(** [ancestors.slice(1).map(x => x.block?.name || '')], outermost first. *)
Definition ancestorNames (parent : Ancestor) (rest : list Ancestor) : list string :=
  map (λ x, from_option name "" (anc_block x)) (drop 1 (reverse (parent :: rest))).

Definition fullName (parent : Ancestor) (rest : list Ancestor) (block : NamedBlock) : string :=
  trim (join " " (ancestorNames parent rest ++ [name block])).

(** The range given to a new item. *)
Definition blockRange (block : NamedBlock) : Range :=
  {| range_start := {| line := line (start block) - 1; column := column (start block) |};
     range_end := {| line := line (end_ block) - 1; column := column (end_ block) |} |}.

Definition push_child (caseItem : TestItem) (d : TestData) (parent : Ancestor) : Ancestor :=
  {| anc_item := anc_item parent;
     anc_block := anc_block parent;
     anc_children := anc_children parent ++ [caseItem];
     anc_dataChildren := anc_dataChildren parent ++ [d];
     anc_data := anc_data parent |}.

(** The variables of the loop over the sorted blocks. *)
Record Loop := {
  top : Ancestor;
  below : list Ancestor;
  testCaseIndex : nat;
  index : nat;
  idMap : gset string
}.

(** The body of [for (const block of arr)].  [inr] is the throw of
    ['unexpected block type'], with the id index as it is then. *)
Definition step (u : string) (st : Loop) (block : NamedBlock) : Loop + gset string :=
  let '(parent, rest) := getParent block (top st) (below st) in
  let id := makeId u (fullName parent rest block) (index st) in
  let caseItem := with_range (blockRange block) (createTestItem id (name block) u) in
  let idMap' := {[ id ]} ∪ idMap st in
  let isEach := bool_decide (lastProperty block = Some "each") in
  if bool_decide (type block = "describe") then
    let data := TestDescribe (name block) isEach id [] in
    inl {| top := {| anc_item := caseItem; anc_block := Some block;
                     anc_children := []; anc_dataChildren := [];
                     anc_data := OfDescribe (name block) isEach id |};
           below := push_child caseItem data parent :: rest;
           testCaseIndex := testCaseIndex st;
           index := S (index st);
           idMap := idMap' |}
  else if bool_decide (type block = "it") then
    let testCase := TestCase (name block) isEach id (testCaseIndex st) in
    inl {| top := push_child caseItem testCase parent;
           below := rest;
           testCaseIndex := S (testCaseIndex st);
           index := S (index st);
           idMap := idMap' |}
  else inr idMap'.

Fixpoint loop (u : string) (st : Loop) (arr : list NamedBlock) : Loop + gset string :=
  match arr with
  | [] => inl st
  | block :: arr' =>
      match step u st block with
      | inl st' => loop u st' arr'
      | inr m => inr m
      end
  end.

(** [while (ancestors.length) { ... ancestors.pop() ... }]: the entry that
    is popped last is the file's. *)
Fixpoint unwind (parent : Ancestor) (rest : list Ancestor) : Ancestor :=
  match rest with
  | [] => parent
  | below :: rest' => unwind (pop parent below) rest'
  end.

(** *** The operation *)

(** What the function works on: the id index of the controller
    ([testItemIdMap.get(controller)], absent before the first call), the
    item of the file and its data.  The index maps an id to the item with
    that id; as items are addressed by id throughout, its keys are what is
    kept of it. *)
Record World := {
  testItemIdMap : option (gset string);
  fileItem : TestItem;
  data : TestFile
}.

Inductive Outcome :=
| Returned
| ParseError
| Thrown (msg : string).

Section Operation.

(** The parser, [None] when it throws; the tag of open files; whether a
    document with the uri of the file is open. *)
Variable parse : string → string → option ParseResult.
Variable openTestTag : TestTag.
Variable isFileOpen : string → bool.

Definition initialLoop (w : World) (m : gset string) : Loop :=
  {| top := {| anc_item := fileItem w; anc_block := None; anc_children := [];
               anc_dataChildren := []; anc_data := OfFile |};
     below := [];
     testCaseIndex := 0;
     index := 0;
     idMap := m |}.

Definition newTags (w : World) : list TestTag :=
  let existingTagsWithoutOpenTag :=
    filter (λ x, x ≠ openTestTag) (tags (fileItem w)) in
  if isFileOpen (uri (fileItem w))
  then existingTagsWithoutOpenTag ++ [openTestTag]
  else existingTagsWithoutOpenTag.

(** [applyBlocks] is the function from the sorted array on. *)
Definition applyBlocks (w : World) (m : gset string) (arr : list NamedBlock)
    : World * Outcome :=
  match loop (uri (fileItem w)) (initialLoop w m) arr with
  | inr m' =>
      ({| testItemIdMap := Some m'; fileItem := fileItem w; data := data w |},
       Thrown "unexpected block type")
  | inl st =>
      let file := unwind (top st) (below st) in
      let fileItem' := children_replace (anc_children file) (anc_item file) in
      ({| testItemIdMap := Some (idMap st);
          fileItem := retag (newTags w) fileItem';
          data := {| file_item := file_item (data w);
                     file_children := anc_dataChildren file |} |},
       Returned)
  end.

Definition discoverTestFromFileContent (w : World) (content : string)
    : World * Outcome :=
  let m := {[ item_id (fileItem w) ]} ∪ default ∅ (testItemIdMap w) in
  match parse (item_id (fileItem w)) content with
  | None =>
      ({| testItemIdMap := Some m; fileItem := fileItem w; data := data w |},
       ParseError)
  | Some result =>
      applyBlocks w m (sortBlocks (describeBlocks result ++ itBlocks result))
  end.

End Operation.

(** *** Vocabulary of the specification *)



(** The blocks the builder accepts. *)
Definition validType (b : NamedBlock) : Prop := type b = "describe" ∨ type b = "it".

(** The full name of a block under the suites named [above], outermost
    first. *)
Definition fullNameUnder (above : list string) (b : NamedBlock) : string :=
  trim (join " " (above ++ [name b])).

(** [outer] is a suite that is still open when [inner] starts. *)
Definition encloses (outer inner : NamedBlock) : bool :=
  bool_decide (type outer = "describe") && (line (start inner) <? line (end_ outer))%Z.

(** The suites, innermost first, that are still open when [b] starts. *)
Fixpoint closeSuites (b : NamedBlock) (open : list NamedBlock) : list NamedBlock :=
  match open with
  | pb :: open' =>
      if (line (end_ pb) <=? line (start b))%Z then closeSuites b open' else open
  | [] => []
  end.

(** The open suites once [b] has been placed. *)
Definition openAfter (b : NamedBlock) (open : list NamedBlock) : list NamedBlock :=
  if bool_decide (type b = "describe") then b :: closeSuites b open
  else closeSuites b open.

(** The full names of the blocks of [arr], read with the suites [open]
    around them. *)
Fixpoint fullNames (open : list NamedBlock) (arr : list NamedBlock) : list string :=
  match arr with
  | [] => []
  | b :: arr' =>
      fullNameUnder (map name (reverse (closeSuites b open))) b
        :: fullNames (openAfter b open) arr'
  end.

(** The ids of blocks with these full names at the positions [from],
    [from + 1], ... of the file. *)
Definition numbered (u : string) (from : nat) (names : list string) : list string :=
  imap (λ k n, makeId u n (from + k)) names.

(** The names of the suites around the second of two blocks, and around the
    third of three. *)
Definition namesAbove2 (A B : NamedBlock) : list string :=
  if encloses A B then [name A] else [].

Definition namesAbove3 (C A B : NamedBlock) : list string :=
  if encloses C A then
    if encloses A B then [name C; name A]
    else if encloses C B then [name C] else []
  else namesAbove2 A B.

(** The ids of the descendants of a list of items. *)
Definition flat (cs : list TestItem) : list string := flat_map ids cs.

(** The data object of a suite entry as it was pushed onto the entry
    below. *)
Definition entryData (a : Ancestor) : option TestData :=
  match anc_data a with
  | OfDescribe p e i => Some (TestDescribe p e i [])
  | OfFile => None
  end.

(** Every entry is the last child of the entry below it: the item and the
    data that [pop] assigns to through the entry are the last elements of
    the arrays of the entry below. *)
Fixpoint aliased (upper : Ancestor) (rest : list Ancestor) : Prop :=
  match rest with
  | [] => True
  | lower :: rest' =>
      last (anc_children lower) = Some (anc_item upper) ∧
      last (anc_dataChildren lower) = entryData upper ∧
      aliased lower rest'
  end.

(** The invariant of the stack of ancestors: the blocks of the entries are
    the open suites, with the file at the bottom; every entry is the last
    child of the entry below it; the bottom entry stands for the item of the
    file. *)
Record stackInv (fi : TestItem) (open : list NamedBlock) (top : Ancestor)
    (rest : list Ancestor) : Prop := {
  inv_blocks : map anc_block (top :: rest) = (Some <$> open) ++ [None];
  inv_alias : aliased top rest;
  inv_item : anc_item (unwind top rest) = fi
}.

(** Two entries that agree on everything but the item they stand for, and
    two states of the loop that agree on everything but those items and the
    id index. *)
Definition sameEntry (a b : Ancestor) : Prop :=
  anc_block a = anc_block b ∧ anc_children a = anc_children b ∧
  anc_dataChildren a = anc_dataChildren b ∧ anc_data a = anc_data b.

Definition sameLoop (s1 s2 : Loop) : Prop :=
  sameEntry (top s1) (top s2) ∧ Forall2 sameEntry (below s1) (below s2) ∧
  testCaseIndex s1 = testCaseIndex s2 ∧ index s1 = index s2.

End Discover.

(** ** Matching runtime tasks and synchronising run states *)

Module Watch.
Import Tree.

(** [task.type] as the matcher is typed: ["suite" | "test"]. *)
Inductive TaskType := suite | test.

(** A runtime task as the synchroniser walks it: the task with its
    children.  ([Client.Task] is the same object seen through the index,
    with references for children.) *)
Inductive Task := mkTask {
  id : string;
  type : TaskType;
  name : string;
  result : option Client.TaskResult;
  tasks : list Task
}.

(** A [File] is a suite with a path. *)
Record File := {
  filepath : string;
  file_task : Task
}.

(** The calls on the [TestRun], and the one call of [console.error]. *)
Inductive RunEvent :=
| Started (item : string)
| Skipped (item : string)
| Passed (item : string) (duration : option Z)
| Failed (item : string) (message : string)
| ConsoleError.

(** How a call ends: normally, or with the [TypeError] of reading a
    property of [undefined]. *)
Inductive Completion :=
| Normal
| TypeError (property : string).

(** *** The matcher *)

Section Match.

(** [new Fuse(docs, { keys: ["pattern"] }).search(query)]: the library sees
    the patterns of the documents and the query, and answers with the ranked
    positions ([refIndex]) of the documents it retains. *)
Variable fuseSearch : list string → string → list nat.

(** The two [continue] tests and the comparison of the first loop. *)
Definition isExact (taskName : string) (type : TaskType) (candidate : TestData) : Prop :=
  (match type with
   | suite => isTestDescribe candidate
   | test => isTestCase candidate
   end) = true ∧ pattern candidate = taskName.

#[global] Instance isExact_dec taskName type candidate :
  Decision (isExact taskName type candidate).
Proof. unfold isExact. apply _. Defined.

(** [new Fuse(Array.from(candidates), ...).search(task.name)[0]?.item]. *)
Definition fuzzy (candidates : list TestData) (taskName : string) : option TestData :=
  head (fuseSearch (map pattern candidates) taskName) ≫= λ i, candidates !! i.

(** [matchTask(task, candidates, type)]: the answer and the set as the call
    leaves it.  The set is kept in insertion order. *)
Definition matchTask (taskName : string) (candidates : list TestData) (type : TaskType)
    : option TestData * list TestData :=
  match list_find (isExact taskName type) candidates with
  | Some (i, ans) => (Some ans, delete i candidates)
  | None => (fuzzy candidates taskName, candidates)
  end.

(** *** The synchroniser *)

(** [f(data.item)], which throws when [data] is undefined. *)
Definition withItem (data : option TestData) (f : string → RunEvent)
    : list RunEvent * Completion :=
  match data with
  | Some d => ([f (item d)], Normal)
  | None => ([], TypeError "item")
  end.

(** [task.result.error?.message ?? ""]. *)
Definition errorMessage (r : Client.TaskResult) : string :=
  default "" (Client.error r ≫= Client.message).

(** The branch [task.type === "test"] of the loop of [sync]. *)
Definition report (finished : bool) (data : option TestData)
    (result : option Client.TaskResult) : list RunEvent * Completion :=
  match result with
  | None => if finished then withItem data Skipped else ([], Normal)
  | Some r =>
      let s := Client.state r in
      if bool_decide (s = "pass") then withItem data (λ i, Passed i (Client.duration r))
      else if bool_decide (s = "fail") then withItem data (λ i, Failed i (errorMessage r))
      else if bool_decide (s = "skip") then withItem data Skipped
      else if bool_decide (s = "todo") then withItem data Skipped
      else if bool_decide (s = "run") then withItem data Started
      else if bool_decide (s = "only") then ([], Normal)
      else ([ConsoleError], Normal)
  end.

(** [for (const task of vitest) ...] over a set of candidates, for a given
    treatment of one task. *)
Definition forTasks (body : Task → list TestData → list TestData * (list RunEvent * Completion))
    : list TestData → list Task → list RunEvent * Completion :=
  fix go set vitest :=
    match vitest with
    | [] => ([], Normal)
    | task :: vitest' =>
        let '(set', (events, c)) := body task set in
        match c with
        | Normal => let '(events', c') := go set' vitest' in (events ++ events', c')
        | TypeError p => (events, TypeError p)
        end
    end.

(** The body of the loop of [sync] for one task. *)
Fixpoint syncTask (finished : bool) (task : Task) (set : list TestData)
    : list TestData * (list RunEvent * Completion) :=
  let '(data, set') := matchTask (name task) set (type task) in
  match type task with
  | test => (set', report finished data (result task))
  | suite =>
      match data with
      | None => (set', ([], TypeError "children"))
      | Some d =>
          (set', forTasks (syncTask finished) (default [] (data_children d)) (tasks task))
      end
  end.

(** [sync(run, vscode, vitest)], with [finished] of the enclosing call. *)
Definition sync (finished : bool) (vscode : list TestData) (vitest : list Task)
    : list RunEvent * Completion :=
  forTasks (syncTask finished) vscode vitest.

(** [syncTestStatusToVsCode(vscodeFile, vitestFile, finished)]: nothing
    happens without a run. *)
Definition syncTestStatusToVsCode (run : option nat) (vscodeFile : TestFile)
    (vitestFile : File) (finished : bool) : list RunEvent * Completion :=
  match run with
  | None => ([], Normal)
  | Some _ => sync finished (file_children vscodeFile) (tasks (file_task vitestFile))
  end.

End Match.

(** *** Running files again *)

(** [getTasks] of @vitest/ws-client: a test alone, a suite followed by the
    tasks of its children. *)
Fixpoint getTasks (t : Task) : list Task :=
  match type t with
  | test => [t]
  | suite => t :: flat_map getTasks (tasks t)
  end.

(** [delete f.result; getTasks(f).forEach(i => delete i.result)] on the task
    objects of a file. *)
Fixpoint deleteResults (t : Task) : Task :=
  match type t with
  | test => mkTask (id t) (type t) (name t) None (tasks t)
  | suite => mkTask (id t) (type t) (name t) None (map deleteResults (tasks t))
  end.

(** The fields of [TestWatcher] that [runFiles] looks at. *)
Record TestWatcher := {
  vitestState : bool;
  run : option nat;
  runsCreated : nat
}.

(** What [runFiles] does to the outside, in order. *)
Inductive Effect :=
| CreateTestRun (r : nat)
| RunStarted (r : nat) (item : string)
| DeleteResult (taskId : string)
| RpcRerun (paths : list string).

(** The local function [started(item)]. *)
Fixpoint started (r : nat) (item : TestItem) : list Effect :=
  RunStarted r (item_id item) :: flat_map (started r) (children item).

Section RunFiles.

(** [this.discover.discoverTestFromPath(this.ctrl, path).item]: the item of
    the file at that path. *)
Variable discoverTestFromPath : string → TestItem.

(** [runFiles(files)]: the watcher, the files as the call leaves them and
    the effects. *)
Definition runFiles (w : TestWatcher) (files : list File)
    : TestWatcher * list File * list Effect :=
  if negb (vitestState w) then (w, files, [])
  else
    let '(r, w', created) :=
      match run w with
      | Some r => (r, w, [])
      | None =>
          let r := runsCreated w in
          (r, {| vitestState := vitestState w; run := Some r;
                 runsCreated := S (runsCreated w) |}, [CreateTestRun r])
      end in
    (w',
     map (λ f, {| filepath := filepath f; file_task := deleteResults (file_task f) |}) files,
     (created
      ++ flat_map (λ f, started r (discoverTestFromPath (filepath f))) files
      ++ flat_map (λ f, DeleteResult (id (file_task f))
                          :: map (λ i, DeleteResult (id i)) (getTasks (file_task f))) files
      ++ [RpcRerun (map filepath files)])%list).

End RunFiles.

End Watch.

(** ** Sample data *)

Module Samples.
Import Tree.

(** *** The scheduler: one watched test file *)

Definition watcher_idle : Watcher.VitestWatcher :=
  {| Watcher.files := []; Watcher.testNamePattern := None;
     Watcher.watchEveryFile := false; Watcher.rerunTriggered := false;
     Watcher.enabled := false |}.

Definition watcher_tracking_a : Watcher.VitestWatcher :=
  Watcher.trackTests ["/w/a.test.ts"] None watcher_idle.

Definition ctx_changed (tests : list string) : Watcher.Ctx :=
  {| Watcher.changedTests := tests; Watcher.invalidates := [];
     Watcher.configOverride_testNamePattern := None |}.

Definition no_projects : string → list Watcher.WorkspaceSpec := λ _, [].

(** A stand-in for the engine in the examples: like [new RegExp], it turns
    down a pattern whose parentheses do not pair up, such as [adds (]. *)
Fixpoint groups_close (depth : nat) (pattern : string) : bool :=
  match pattern with
  | EmptyString => bool_decide (depth = 0)
  | String c rest =>
      if bool_decide (c = "("%char) then groups_close (S depth) rest
      else if bool_decide (c = ")"%char)
           then match depth with
                | O => false
                | S depth' => groups_close depth' rest
                end
           else groups_close depth rest
  end.

Definition compiles (pattern : string) : bool := groups_close 0 pattern.

Definition watcher_tracking_open_group : Watcher.VitestWatcher :=
  Watcher.trackTests ["/w/a.test.ts"] (Some "adds (") watcher_idle.

(** *** Results *)

Definition passed : Client.TaskResult :=
  {| Client.state := "pass"; Client.duration := Some 3%Z; Client.error := None |}.

Definition failed : Client.TaskResult :=
  {| Client.state := "fail"; Client.duration := Some 5%Z;
     Client.error := Some {| Client.message := Some "expected 1 to be 2" |} |}.

(** *** The state manager: a file with one test, both collected *)

Definition manager : Client.StateManager :=
  {| Client.filesMap := {[ "/w/math.test.ts" := 0 ]};
     Client.idMap := {[ "f1" := 0; "t1" := 1 ]};
     Client.errorsSet := [];
     Client.heap :=
       {[ 0 := {| Client.id := "f1"; Client.type := "suite";
                  Client.name := "math.test.ts"; Client.tasks := [1];
                  Client.result := None |};
          1 := {| Client.id := "t1"; Client.type := "test";
                  Client.name := "adds"; Client.tasks := [];
                  Client.result := Some failed |} ]} |}.

(** *** A file [math.test.ts] *)

Definition pos (l c : Z) : Position := {| line := l; column := c |}.

Definition block (t n : string) (s e : Position) : Discover.NamedBlock :=
  {| Discover.type := t; Discover.name := n; Discover.start := s;
     Discover.end_ := e; Discover.lastProperty := None |}.

Definition math_uri : string := "file:///w/math.test.ts".

Definition math_world : Discover.World :=
  {| Discover.testItemIdMap := None;
     Discover.fileItem := createTestItem math_uri "math.test.ts" math_uri;
     Discover.data := {| file_item := math_uri; file_children := [] |} |}.

(** [describe('math', () => { it('adds', ...); it('subtracts', ...) })],
    each call on lines of its own. *)
Definition math_suite : Discover.NamedBlock := block "describe" "math" (pos 1 0) (pos 4 2).
Definition adds_case : Discover.NamedBlock := block "it" "adds" (pos 2 2) (pos 2 40).
Definition subtracts_case : Discover.NamedBlock := block "it" "subtracts" (pos 3 2) (pos 3 45).

(** [it('setup', ...)] put in front of two top-level cases. *)
Definition setup_case : Discover.NamedBlock := block "it" "setup" (pos 1 0) (pos 1 30).
Definition first_case : Discover.NamedBlock := block "it" "adds" (pos 2 0) (pos 2 30).
Definition second_case : Discover.NamedBlock := block "it" "subtracts" (pos 3 0) (pos 3 30).

(** A parser that knows two texts and fails on every other one. *)
Definition sample_parse (id content : string) : option Discover.ParseResult :=
  if bool_decide (content = "math") then
    Some {| Discover.describeBlocks := [math_suite];
            Discover.itBlocks := [adds_case; subtracts_case] |}
  else if bool_decide (content = "flat") then
    Some {| Discover.describeBlocks := [];
            Discover.itBlocks := [first_case; second_case] |}
  else None.






(** *** The static and the runtime side of a synchronisation *)

(** A suite without static children next to a case. *)
Definition math_static : list TestData :=
  [TestDescribe "math" false "file:///w/math.test.ts/math@0" [];
   TestCase "b" false "file:///w/math.test.ts/b@1" 0].

(** The runtime found a test in the suite. *)
Definition math_runtime : list Watch.Task :=
  [Watch.mkTask "1" Watch.suite "math" None
     [Watch.mkTask "2" Watch.test "adds" (Some passed) []];
   Watch.mkTask "3" Watch.test "b" (Some passed) []].

(** A parameterised case in front of a plain one of the same stem. *)
Definition each_static : list TestData :=
  [TestCase "adds %i" true "file:///w/math.test.ts/adds %i@0" 0;
   TestCase "adds" false "file:///w/math.test.ts/adds@1" 1].

(** A search that retains every document and ranks them in their order. *)
Definition fuse_all (docs : list string) (query : string) : list nat :=
  seq 0 (length docs).

Definition adds_task : Watch.Task :=
  Watch.mkTask "2" Watch.test "adds" (Some passed) [].

(** *** Running a file again *)

Definition math_item : TestItem :=
  mkTestItem math_uri "math.test.ts" math_uri None []
    [mkTestItem "file:///w/math.test.ts/math@0" "math" math_uri None []
       [createTestItem "file:///w/math.test.ts/math adds@1" "adds" math_uri]].

Definition math_file : Watch.File :=
  {| Watch.filepath := "/w/math.test.ts";
     Watch.file_task :=
       Watch.mkTask "f1" Watch.suite "math.test.ts" (Some failed)
         [Watch.mkTask "1" Watch.suite "math" (Some failed)
            [Watch.mkTask "2" Watch.test "adds" (Some failed) []]] |}.

Definition watcher_connected : Watch.TestWatcher :=
  {| Watch.vitestState := true; Watch.run := None; Watch.runsCreated := 0 |}.

End Samples.
(** ** Collecting files into the state manager *)

Module Collect.
Import Client.

Definition with_idMap (m : gmap string loc) (sm : StateManager) : StateManager :=
  {| filesMap := filesMap sm; idMap := m; errorsSet := errorsSet sm;
     heap := heap sm |}.

Definition with_filesMap (m : gmap string loc) (sm : StateManager) : StateManager :=
  {| filesMap := m; idMap := idMap sm; errorsSet := errorsSet sm;
     heap := heap sm |}.

(** [updateId(task)].  The recursion follows the references of the store,
    so it is bounded by [fuel]; [updateId_fuel] shows that the bound does
    not matter once it reaches the depth of the task.

    [if (this.idMap.get(task.id) === task) return] compares references. *)
Fixpoint updateId (fuel : nat) (l : loc) (sm : StateManager) : StateManager :=
  match fuel with
  | O => sm
  | S fuel' =>
      match heap sm !! l with
      | None => sm
      | Some task =>
          if bool_decide (idMap sm !! id task = Some l) then sm
          else
            let sm' := with_idMap (<[id task := l]> (idMap sm)) sm in
            if bool_decide (type task = "suite")
            then foldl (λ s child, updateId fuel' child s) sm' (tasks task)
            else sm'
      end
  end.

(** A [File] as [collectFiles] reads it: its [filepath] and the task object
    it is. *)
Definition File := (string * loc)%type.

(** [collectFiles(files = [])]. *)
Definition collectFiles (fuel : nat) (files : list File) (sm : StateManager)
    : StateManager :=
  foldl (λ s file, updateId fuel file.2 (with_filesMap (<[file.1 := file.2]> (filesMap s)) s))
    sm files.

(** [getFiles(keys)] with keys: one entry per key, undefined for a path
    that was never collected. *)
Definition getFiles (keys : list string) (sm : StateManager) : list (option loc) :=
  map (λ key, filesMap sm !! key) keys.

(** *** Vocabulary *)

(** The task at [l] and the tasks below it lie within [n] levels: the
    references of suites lead to tasks of the store, and no chain of them is
    longer than [n]. *)
Fixpoint within (h : gmap loc Task) (n : nat) (l : loc) : Prop :=
  match n with
  | O => False
  | S n' =>
      ∃ task, h !! l = Some task ∧
        (type task = "suite" → Forall (within h n') (tasks task))
  end.

(** The task at [l] and the tasks below it, parents before children, as far
    as [n] levels down. *)
Fixpoint subtree (h : gmap loc Task) (n : nat) (l : loc) : list loc :=
  match n with
  | O => []
  | S n' =>
      match h !! l with
      | None => []
      | Some task =>
          l :: (if bool_decide (type task = "suite")
                then flat_map (subtree h n') (tasks task) else [])
      end
  end.

(** Register the task at [l] under its id. *)
Definition register (h : gmap loc Task) (m : gmap string loc) (l : loc)
    : gmap string loc :=
  match h !! l with
  | Some task => <[id task := l]> m
  | None => m
  end.

(** No task of [ls] is registered under its own id yet. *)
Definition fresh (sm : StateManager) (ls : list loc) : Prop :=
  ∀ l task, l ∈ ls → heap sm !! l = Some task → idMap sm !! id task ≠ Some l.

End Collect.

(** ** The counters of the status bar and the end of a run *)

Module Status.
Import Tree.

(** [testStatus.value]. *)
Record TestStatus := {
  passed : nat;
  failed : nat;
  skipped : nat
}.

(** The body of [for (const task of idMap.values())] in [updateStatus]. *)
Definition count (st : TestStatus) (task : Client.Task) : TestStatus :=
  if bool_decide (Client.type task ≠ "test") then st
  else
    match Client.result task with
    | None => {| passed := passed st; failed := failed st; skipped := S (skipped st) |}
    | Some r =>
        let st1 :=
          if bool_decide (Client.state r = "pass")
          then {| passed := S (passed st); failed := failed st; skipped := skipped st |}
          else st in
        if bool_decide (Client.state r = "fail")
        then {| passed := passed st1; failed := S (failed st1); skipped := skipped st1 |}
        else st1
    end.

(** [idMap.values()]: the task objects the index refers to.  The loop only
    counts, so the order of the entries is of no account. *)
Definition values (sm : Client.StateManager) : list Client.Task :=
  omap (λ entry, Client.heap sm !! entry.2) (map_to_list (Client.idMap sm)).

(** [updateStatus()]: the new value of [testStatus]. *)
Definition updateStatus (w : Watch.TestWatcher) (sm : Client.StateManager)
    (old : TestStatus) : TestStatus :=
  if negb (Watch.vitestState w) then old
  else foldl count {| passed := 0; failed := 0; skipped := 0 |} (values sm).

(** What [onUpdated] and the handler [onFinished] do to the outside: they
    create a run, let the synchroniser work on the run [r], end the run, and
    log an exception. *)
Inductive Event :=
| CreateTestRun (r : nat)
| OnRun (r : nat) (e : Watch.RunEvent)
| RunEnd (r : nat)
| ConsoleError (property : string).

(** The fields of [TestWatcher] the handlers write. *)
Record Reactive := {
  watcher : Watch.TestWatcher;
  isRunning : bool;
  testStatus : TestStatus
}.

Section Handlers.

Variable fuseSearch : list string → string → list nat.

(** [this.discover.discoverTestFromPath(this.ctrl, path, true)]: the data
    of the file at that path, as the synchroniser finds it. *)
Variable discoverTestFromPath : string → TestFile.

(** [for (const file of files) { ...; this.syncTestStatusToVsCode(data, file, finished) }]:
    an exception ends the loop. *)
Fixpoint syncFiles (r : nat) (finished : bool) (files : list Watch.File)
    : list Event * Watch.Completion :=
  match files with
  | [] => ([], Watch.Normal)
  | file :: files' =>
      let '(events, c) :=
        Watch.syncTestStatusToVsCode fuseSearch (Some r)
          (discoverTestFromPath (Watch.filepath file)) file finished in
      match c with
      | Watch.Normal =>
          let '(events', c') := syncFiles r finished files' in
          (map (OnRun r) events ++ events', c')
      | Watch.TypeError p => (map (OnRun r) events, Watch.TypeError p)
      end
  end.

(** [onUpdated(files, finished)]. *)
Definition onUpdated (w : Watch.TestWatcher) (files : option (list Watch.File))
    (finished : bool) : Watch.TestWatcher * (list Event * Watch.Completion) :=
  match files with
  | None => (w, ([], Watch.Normal))
  | Some files =>
      match Watch.run w with
      | Some r => (w, syncFiles r finished files)
      | None =>
          let r := Watch.runsCreated w in
          let '(events, c) := syncFiles r finished files in
          ({| Watch.vitestState := Watch.vitestState w; Watch.run := Some r;
              Watch.runsCreated := S (Watch.runsCreated w) |},
           (CreateTestRun r :: events, c))
      end
  end.

(** The handler [onFinished(files)], with its [try] and [catch]. *)
Definition onFinished (sm : Client.StateManager) (st : Reactive)
    (files : option (list Watch.File)) : Reactive * list Event :=
  let '(w, (events, c)) := onUpdated (watcher st) files true in
  match c with
  | Watch.TypeError p =>
      ({| watcher := w; isRunning := false; testStatus := testStatus st |},
       events ++ [ConsoleError p])
  | Watch.Normal =>
      match Watch.run w with
      | None => ({| watcher := w; isRunning := false; testStatus := testStatus st |}, events)
      | Some r =>
          let w' := {| Watch.vitestState := Watch.vitestState w; Watch.run := None;
                       Watch.runsCreated := Watch.runsCreated w |} in
          ({| watcher := w'; isRunning := false;
              testStatus := updateStatus w' sm (testStatus st) |},
           events ++ [RunEnd r])
      end
  end.

End Handlers.

(** *** Vocabulary *)

Definition isTest (task : Client.Task) : bool :=
  bool_decide (Client.type task = "test").

Definition hasState (s : string) (task : Client.Task) : bool :=
  match Client.result task with
  | Some r => bool_decide (Client.state r = s)
  | None => false
  end.

Definition noResult (task : Client.Task) : bool :=
  match Client.result task with Some _ => false | None => true end.

(** The synchronisation of one file at the end of a run. *)
Definition syncOf (fuseSearch : list string → string → list nat)
    (discoverTestFromPath : string → TestFile) (file : Watch.File)
    : list Watch.RunEvent * Watch.Completion :=
  Watch.sync fuseSearch true (file_children (discoverTestFromPath (Watch.filepath file)))
    (Watch.tasks (Watch.file_task file)).

(** The run the handlers work on: the open one, or else the next one to be
    created. *)
Definition currentRun (w : Watch.TestWatcher) : nat :=
  default (Watch.runsCreated w) (Watch.run w).

(** The [createTestRun] of [onUpdated], if there is no open run. *)
Definition created (w : Watch.TestWatcher) : list Event :=
  match Watch.run w with
  | Some _ => []
  | None => [CreateTestRun (Watch.runsCreated w)]
  end.

(** How many of the tasks are tests that satisfy [p]. *)
Definition tests (p : Client.Task → bool) (l : list Client.Task) : nat :=
  length (List.filter (λ task, isTest task && p task) l).

End Status.

(** ** What a synchronisation reports *)

Module Reports.
Import Tree Watch.

(** A node of the data tree and the nodes below it. *)
Fixpoint nodes (d : TestData) : list TestData :=
  d :: match d with
       | TestDescribe _ _ _ cs => flat_map nodes cs
       | TestCase _ _ _ _ => []
       end.

(** The item a call on the run is about. *)
Definition reportedItem (e : RunEvent) : option string :=
  match e with
  | Started i | Skipped i | Passed i _ | Failed i _ => Some i
  | ConsoleError => None
  end.

(** The number of tests of a runtime task. *)
Fixpoint testTasks (t : Task) : nat :=
  match type t with
  | test => 1
  | suite => list_sum (map testTasks (tasks t))
  end.

(** All events are about items of nodes of the forest [vscode]. *)
Definition reportsWithin (vscode : list TestData) (events : list RunEvent) : Prop :=
  ∀ e i, e ∈ events → reportedItem e = Some i →
    ∃ d, d ∈ flat_map nodes vscode ∧ item d = i.

End Reports.

(** ** The shape of a tree that was built *)

Module Shape.
Import Tree Discover.

(** An item without its children. *)
Definition alone (t : TestItem) : TestItem := children_replace [] t.

Definition with_tags (ts : list TestTag) (t : TestItem) : TestItem :=
  mkTestItem (item_id t) (label t) (uri t) (range t) ts (children t).

(** The items of a list of trees, parents before children, each without its
    children. *)
Definition heads (cs : list TestItem) : list TestItem :=
  map alone (flat_map items cs).

(** The item the builder makes for the block [b] when it gives it the id
    [i], with the tags [ts]. *)
Definition blockItem (u : string) (ts : list TestTag) (b : NamedBlock) (i : string)
    : TestItem :=
  mkTestItem i (name b) u (Some (blockRange b)) ts [].

(** The items of the blocks [arr] with the ids [idents]. *)
Definition blockItems (u : string) (ts : list TestTag) (arr : list NamedBlock)
    (idents : list string) : list TestItem :=
  zip_with (blockItem u ts) arr idents.

(** A data node stands for an item: it refers to the item by its id and
    carries its label as pattern; a case stands for an item without
    children, a suite has one child for every child of the item, in the same
    order. *)
Inductive mirror : TestItem → TestData → Prop :=
| mirror_case i l u r ts e n :
    mirror (mkTestItem i l u r ts []) (TestCase l e i n)
| mirror_describe i l u r ts cs e ds :
    Forall2 mirror cs ds →
    mirror (mkTestItem i l u r ts cs) (TestDescribe l e i ds).

(** A data node without its children. *)
Definition bare (d : TestData) : TestData := set_data_children [] d.

(** The nodes of a list of data trees, parents before children, each
    without its children. *)
Definition dataHeads (ds : list TestData) : list TestData :=
  map bare (flat_map Reports.nodes ds).

(** The data the builder makes for the block [b] with the id [i], when [k]
    cases come before it in the file. *)
Definition blockData (b : NamedBlock) (i : string) (k : nat) : TestData :=
  let isEach := bool_decide (lastProperty b = Some "each") in
  if bool_decide (type b = "describe") then TestDescribe (name b) isEach i []
  else TestCase (name b) isEach i k.

(** The data of the blocks [arr] with the ids [idents], the first case
    having the index [k]. *)
Fixpoint blockDatas (arr : list NamedBlock) (idents : list string) (k : nat)
    : list TestData :=
  match arr, idents with
  | b :: arr', i :: idents' =>
      blockData b i k
        :: blockDatas arr' idents' (if bool_decide (type b = "describe") then k else S k)
  | _, _ => []
  end.

(** The last data child of an entry is a suite that is still open. *)
Definition endsInOpenSuite (a : Ancestor) : Prop :=
  ∃ l p e i, anc_dataChildren a = l ++ [TestDescribe p e i []].

(** Every entry of the stack has as many data children as children, and
    each data child stands for the child at its place. *)
Definition framesMirror (top : Ancestor) (rest : list Ancestor) : Prop :=
  Forall (λ a, Forall2 mirror (anc_children a) (anc_dataChildren a)) (top :: rest).

(** The characters of a string. *)
Definition chars (s : string) : list ascii := String.list_ascii_of_string s.

End Shape.

(** ** File items and their labels *)

Module Files.
Import Tree.

(** [vscode.Uri], as far as [getOrCreateFile] reads it: [uri.fsPath] and
    [uri.toString()]. *)
Record Uri := {
  fsPath : string;
  toString : string
}.

(** A file item of the controller: the item, the [fsPath] of its uri, and
    [canResolveChildren]. *)
Record FileEntry := {
  entry_item : TestItem;
  entry_path : string;
  canResolveChildren : bool
}.

Definition with_label (l : string) (e : FileEntry) : FileEntry :=
  {| entry_item :=
       mkTestItem (item_id (entry_item e)) l (uri (entry_item e)) (range (entry_item e))
         (tags (entry_item e)) (children (entry_item e));
     entry_path := entry_path e;
     canResolveChildren := canResolveChildren e |}.

(** The fields of [TestFileDiscoverer] that [getOrCreateFile] works on,
    with [controller.items] and [WEAKMAP_TEST_DATA].  Items are addressed by
    their id; a [Set] of items is the list of their ids in insertion
    order. *)
Record Discoverer := {
  items : gmap string FileEntry;
  testData : gmap string TestFile;
  workspacePaths : list string;
  workspaceCommonPrefix : gmap string string;
  workspaceItems : gmap string (list string);
  pathToFileItem : gmap string string
}.

(** *** Strings *)

(** [s.substring(n)]. *)
Fixpoint substring (n : nat) (s : string) : string :=
  match n, s with
  | O, _ => s
  | S n', String _ s' => substring n' s'
  | S _, EmptyString => EmptyString
  end.

(** [s.split(sep)] for a separator of one character. *)
Fixpoint split (sep : ascii) (s : string) : list string :=
  match s with
  | EmptyString => [EmptyString]
  | String c s' =>
      if bool_decide (c = sep) then EmptyString :: split sep s'
      else
        match split sep s' with
        | segment :: segments => String c segment :: segments
        | [] => [String c EmptyString]
        end
  end.

(** [xs.slice(0, -1)]. *)
Definition slice_0_minus1 {A} (xs : list A) : list A := take (length xs - 1) xs.

(** The loop
    [for (let i = 0; i < workspacePrefix.length; i++)
       if (p[i] !== workspacePrefix[i]) { workspacePrefix = workspacePrefix.slice(0, i); break }]:
    the prefix is cut where it first differs from [p], also when [p] ends
    there. *)
Fixpoint shrink (p workspacePrefix : string) : string :=
  match workspacePrefix, p with
  | String c prefix', String d p' =>
      if bool_decide (d = c) then String c (shrink p' prefix') else EmptyString
  | _, _ => EmptyString
  end.

Section GetOrCreateFile.

(** [sep] of node:path. *)
Variable sep : ascii.

(** [path.slice(0, -1).join(sep) + sep] for [path = uri.fsPath.split(sep)]. *)
Definition directoryOf (fsPath : string) : string :=
  String.concat (String sep EmptyString) (slice_0_minus1 (split sep fsPath))
  +:+ String sep EmptyString.

(** [uri.fsPath.split(sep).pop()!]. *)
Definition baseName (fsPath : string) : string :=
  default EmptyString (last (split sep fsPath)).

(** [items.forEach(v => { v.label = v.uri!.fsPath.substring(workspacePrefix.length) })]. *)
Definition relabel (workspacePrefix : string) (ids : list string)
    (its : gmap string FileEntry) : gmap string FileEntry :=
  foldl (λ m i,
           alter (λ e, with_label (substring (String.length workspacePrefix) (entry_path e)) e)
             i m)
    its ids.

(** [getOrCreateFile(controller, uri)]: the discoverer as the call leaves
    it, and the id of the item it returns. *)
Definition getOrCreateFile (st : Discoverer) (uri : Uri) : Discoverer * string :=
  let id := toString uri in
  match items st !! id with
  | Some _ => (st, id)
  | None =>
      let found := List.find (λ x, String.prefix x (fsPath uri)) (workspacePaths st) in
      let workspacePath :=
        found ≫= λ x, if bool_decide (x = EmptyString) then None else Some x in
      let '(name, its, prefixes, sets) :=
        match workspacePath with
        | Some wp =>
            let '(prefixes, sets) :=
              match workspaceCommonPrefix st !! wp with
              | Some _ => (workspaceCommonPrefix st, workspaceItems st)
              | None =>
                  (<[wp := directoryOf (fsPath uri)]> (workspaceCommonPrefix st),
                   <[wp := []]> (workspaceItems st))
              end in
            let workspacePrefix := default EmptyString (prefixes !! wp) in
            let '(workspacePrefix, its, prefixes) :=
              if String.prefix workspacePrefix (fsPath uri)
              then (workspacePrefix, items st, prefixes)
              else
                let workspacePrefix := shrink (fsPath uri) workspacePrefix in
                (workspacePrefix,
                 relabel workspacePrefix (default [] (sets !! wp)) (items st),
                 <[wp := workspacePrefix]> prefixes) in
            (substring (String.length workspacePrefix) (fsPath uri), its, prefixes,
             alter (λ ids, ids ++ [id]) wp sets)
        | None => (baseName (fsPath uri), items st, workspaceCommonPrefix st, workspaceItems st)
        end in
      let file :=
        {| entry_item := createTestItem id name id; entry_path := fsPath uri;
           canResolveChildren := true |} in
      ({| items := <[id := file]> its;
          testData := <[id := {| file_item := id; file_children := [] |}]> (testData st);
          workspacePaths := workspacePaths st;
          workspaceCommonPrefix := prefixes;
          workspaceItems := sets;
          pathToFileItem := <[fsPath uri := id]> (pathToFileItem st) |},
       id)
  end.

(** A discoverer that has not seen any file. *)
Definition newDiscoverer (paths : list string) : Discoverer :=
  {| items := ∅; testData := ∅; workspacePaths := paths;
     workspaceCommonPrefix := ∅; workspaceItems := ∅; pathToFileItem := ∅ |}.

(** The discoverer after [getOrCreateFile] on each of [uris]. *)
Definition afterFiles (paths : list string) (uris : list Uri) : Discoverer :=
  foldl (λ st uri, (getOrCreateFile st uri).1) (newDiscoverer paths) uris.

End GetOrCreateFile.

(** *** Vocabulary *)

(** The file items of a workspace are labelled by their paths below the
    common prefix of the workspace: the prefix is recorded, every item of
    the workspace is filed in the controller under its id, its path starts
    with the prefix, and its label is the rest of the path. *)
Definition labelled (st : Discoverer) : Prop :=
  ∀ wp ids, workspaceItems st !! wp = Some ids →
    ∃ workspacePrefix, workspaceCommonPrefix st !! wp = Some workspacePrefix ∧
      ∀ i, i ∈ ids →
        ∃ e, items st !! i = Some e ∧
          entry_path e = workspacePrefix +:+ label (entry_item e).

(** The two maps of a workspace go together, the items are labelled as
    above, and no item belongs to two workspaces. *)
Definition consistent (st : Discoverer) : Prop :=
  (∀ wp, is_Some (workspaceCommonPrefix st !! wp) → is_Some (workspaceItems st !! wp)) ∧
  labelled st ∧
  (∀ wp1 wp2 ids1 ids2 i,
     workspaceItems st !! wp1 = Some ids1 → workspaceItems st !! wp2 = Some ids2 →
     i ∈ ids1 → i ∈ ids2 → wp1 = wp2).

End Files.

(** ** Paths handed to the command line (src/pure/utils.ts) *)

Module Utils.

(** A path is a string of characters.  The functions below look at a
    character only to compare it with the backslash and to hand the first
    one to the engine. *)
Definition backslash : ascii := ascii_of_nat 92.

Section SanitizeFilePath.

(** [String.prototype.toUpperCase] on the string of one character that
    [charAt(0)] returns.  The mapping is Unicode's and belongs to the
    engine; its result may be longer than one character: the sharp s
    becomes [SS]. *)
Variable toUpperCase : ascii → string.

(** [string.charAt(0).toUpperCase() + string.slice(1)].  On the empty
    string [charAt(0)] is the empty string, and so is its upper case. *)
Definition capitalizeFirstLetter (s : string) : string :=
  match s with
  | EmptyString => EmptyString
  | String c s' => toUpperCase c +:+ s'
  end.

(** [string.replace(/\\/g, "/")]: every backslash becomes a slash. *)
Fixpoint replaceDoubleSlashes (s : string) : string :=
  match s with
  | EmptyString => EmptyString
  | String c s' =>
      String (if bool_decide (c = backslash) then "/"%char else c) (replaceDoubleSlashes s')
  end.

(** [sanitizeFilePath(path)], with [isWindows] of ./platform. *)
Definition sanitizeFilePath (isWindows : bool) (path : string) : string :=
  if isWindows then capitalizeFirstLetter (replaceDoubleSlashes path) else path.

(** *** Vocabulary *)

(** What is used of the engine's mapping: the upper case of a character is
    not empty, it has a backslash only if the character is one, and its own
    first character is already in upper case. *)
Definition caseMapping : Prop :=
  (∀ c, toUpperCase c ≠ EmptyString) ∧
  (∀ c, c ≠ backslash → backslash ∉ Shape.chars (toUpperCase c)) ∧
  (∀ c, capitalizeFirstLetter (toUpperCase c) = toUpperCase c).

End SanitizeFilePath.

End Utils.

(** ** Positions in transformed code ([createIndexMap] of the collector in
    src/worker/watcher.ts) *)

Module IndexMap.

(** A character as [for (const char of source)] yields it: a code point,
    here its number.  The string holds a code point above U+FFFF as two
    UTF-16 units and any other as one; [source.length] and the offsets of
    the parser count units. *)
Definition CodePoint := N.

Definition newline : CodePoint := 10%N.

Definition units (char : CodePoint) : nat :=
  if (char <? 65536)%N then 1 else 2.

(** [source.length] for the string with these characters. *)
Definition utf16Length (source : list CodePoint) : nat :=
  foldr (λ char n, units char + n) 0 source.

(** The loop of [createIndexMap] over the characters that are left, with
    its three counters and the map.  Of the two comparisons, the one with
    a carriage return and a line feed never holds: a character is one code
    point. *)
Fixpoint fill (source : list CodePoint) (index line column : nat)
    (map : gmap nat (nat * nat)) : gmap nat (nat * nat) :=
  match source with
  | [] => map
  | char :: source' =>
      let map' := <[index := (line, column)]> map in
      if bool_decide (char = newline)
      then fill source' (S index) (S line) 0 map'
      else fill source' (S index) line (S column) map'
  end.

(** [createIndexMap(source)]: from the number of a character, in the order
    of the iteration, to its line and column. *)
Definition createIndexMap (source : list CodePoint) : gmap nat (nat * nat) :=
  fill source 0 1 1 ∅.

(** *** Vocabulary *)

(** What reading one character does to the line and the column. *)
Definition advance (pos : nat * nat) (c : CodePoint) : nat * nat :=
  if bool_decide (c = newline) then (S pos.1, 0) else (pos.1, S pos.2).

(** The number of line breaks in a text. *)
Definition breaks (text : list CodePoint) : nat :=
  length (filter (λ c, c = newline) text).

(** The part of a text behind its last line break, the whole text if it has
    none. *)
Fixpoint lastLine (text : list CodePoint) : list CodePoint :=
  match text with
  | [] => []
  | c :: text' =>
      if bool_decide (breaks text' = 0)
      then (if bool_decide (c = newline) then text' else c :: text')
      else lastLine text'
  end.

End IndexMap.

(** ** Placing the definitions the collector found (the loop over
    [definitions] in [astCollectTests], src/worker/watcher.ts) *)

Module Collector.

(** [LocalCallDefinition], as far as the loop reads it.  [start] and [end]
    are offsets into the transformed code; [mode] is ['run'] or the name of
    the modifier of the call. *)
Record LocalCallDefinition := {
  start : Z;
  end_ : Z;
  name : string;
  type : Watch.TaskType;
  mode : string
}.

(** The task made for a definition.  [suite] refers to the enclosing suite
    by the position of its definition in the sorted array, [None] stands
    for the file. *)
Record ParsedTask := {
  task_type : Watch.TaskType;
  task_name : string;
  task_mode : string;
  task_start : Z;
  task_end : Z;
  task_suite : option nat
}.

(** [lastSuite] and the suites above it ([lastSuite.suite], ...), nearest
    first, without the file, which is the outermost one. *)
Record OpenSuite := {
  position : nat;
  suite_end : Z;
  suite_mode : string
}.

(** [updateLatestSuite(index)]:
    [while (lastSuite.suite && lastSuite.end < index) lastSuite = lastSuite.suite].
    The file has no [suite] and stays. *)
Fixpoint updateLatestSuite (index : Z) (chain : list OpenSuite) : list OpenSuite :=
  match chain with
  | lastSuite :: chain' =>
      if (suite_end lastSuite <? index)%Z then updateLatestSuite index chain' else chain
  | [] => []
  end.

(** The callback of [forEach]: the chain and the tasks made so far. *)
Definition place (st : list OpenSuite * list ParsedTask) (definition : LocalCallDefinition)
    : list OpenSuite * list ParsedTask :=
  let chain := updateLatestSuite (start definition) st.1 in
  let latestMode :=
    match chain with
    | latestSuite :: _ => suite_mode latestSuite
    | [] => "run"
    end in
  let mode' := if bool_decide (latestMode ≠ "run") then latestMode else mode definition in
  let task :=
    {| task_type := type definition; task_name := name definition; task_mode := mode';
       task_start := start definition; task_end := end_ definition;
       task_suite := position <$> head chain |} in
  (match type definition with
   | Watch.suite =>
       {| position := length st.2; suite_end := end_ definition; suite_mode := mode' |}
         :: chain
   | Watch.test => chain
   end,
   st.2 ++ [task]).

(** [definitions.sort((a, b) => a.start - b.start)], a stable sort. *)
Fixpoint insertDefinition (d : LocalCallDefinition) (sorted : list LocalCallDefinition)
    : list LocalCallDefinition :=
  match sorted with
  | [] => [d]
  | x :: xs =>
      if (start d <=? start x)%Z then d :: x :: xs else x :: insertDefinition d xs
  end.

Definition sortDefinitions (definitions : list LocalCallDefinition)
    : list LocalCallDefinition :=
  foldr insertDefinition [] definitions.

(** The tasks of the definitions, in the order of the sorted array. *)
Definition placeAll (definitions : list LocalCallDefinition) : list ParsedTask :=
  (foldl place ([], []) (sortDefinitions definitions)).2.

(** *** Vocabulary *)

(** The task at [k] lies in the suite at [p], directly or through other
    suites. *)
Inductive inside (tasks : list ParsedTask) : nat → nat → Prop :=
| inside_child k p t :
    tasks !! k = Some t → task_suite t = Some p → inside tasks k p
| inside_deeper k q p t :
    tasks !! k = Some t → task_suite t = Some q → inside tasks q p → inside tasks k p.

(** Every entry of the chain is the suite task at its position, with its
    end and its mode. *)
Definition chainOf (tasks : list ParsedTask) (chain : list OpenSuite) : Prop :=
  Forall (λ s, ∃ t, tasks !! position s = Some t ∧ task_type t = Watch.suite ∧
                 task_end t = suite_end s ∧ task_mode t = suite_mode s) chain.

(** What the loop decides for the task at [k] of [tasks], made for the
    definition [d]. *)
Definition placed (tasks : list ParsedTask) (k : nat) (d : LocalCallDefinition)
    (t : ParsedTask) : Prop :=
  task_type t = type d ∧ task_name t = name d ∧
  task_start t = start d ∧ task_end t = end_ d ∧
  match task_suite t with
  | None => task_mode t = mode d
  | Some p =>
      p < k ∧ ∃ s, tasks !! p = Some s ∧ task_type s = Watch.suite ∧
        (start d ≤ task_end s)%Z ∧
        task_mode t = if bool_decide (task_mode s ≠ "run") then task_mode s else mode d
  end.

End Collector.

(** ** Reconnecting the websocket client *)

Module Reconnect.

(** The options of [createClient] that the reconnection reads; the defaults
    are [autoReconnect = true] and [reconnectTries = 10]. *)
Record Options := {
  autoReconnect : bool;
  reconnectTries : Z
}.

(** The variable [tries] of the closure, the number of sockets that were
    constructed, and the number of calls of [reconnect] that
    [setTimeout] holds. *)
Record Connection := {
  tries : Z;
  sockets : nat;
  timers : nat
}.

(** What happens to a client: a socket opens, a socket closes, a timer
    fires, or [reconnect(reset)] is called from outside. *)
Inductive Event :=
| Open
| Close
| Timeout
| Reconnect (reset : bool).

#[global] Instance Event_eq_dec : EqDecision Event.
Proof. solve_decision. Defined.

(** [createClient(url, options)]: one socket, and its listeners. *)
Definition createClient (options : Options) : Connection :=
  {| tries := reconnectTries options; sockets := 1; timers := 0 |}.

(** [function reconnect(reset = false)]. *)
Definition reconnect (options : Options) (reset : bool) (c : Connection) : Connection :=
  {| tries := if reset then reconnectTries options else tries c;
     sockets := S (sockets c);
     timers := timers c |}.

(** The listeners that [registerWS] adds, and the timer. *)
Definition step (options : Options) (c : Connection) (e : Event) : Connection :=
  match e with
  | Open => {| tries := reconnectTries options; sockets := sockets c; timers := timers c |}
  | Close =>
      let tries' := (tries c - 1)%Z in
      {| tries := tries';
         sockets := sockets c;
         timers := if autoReconnect options && (0 <? tries')%Z
                   then S (timers c) else timers c |}
  | Timeout =>
      match timers c with
      | O => c
      | S pending =>
          reconnect options false
            {| tries := tries c; sockets := sockets c; timers := pending |}
      end
  | Reconnect reset => reconnect options reset c
  end.

Definition run (options : Options) (trace : list Event) (c : Connection) : Connection :=
  foldl (step options) c trace.

(** *** Vocabulary *)

(** No socket opens and nobody calls [reconnect]. *)
Definition lost (e : Event) : Prop := e = Close ∨ e = Timeout.

(** The number of times a socket closes. *)
Definition closes (trace : list Event) : Z :=
  Z.of_nat (length (filter (λ e, e = Close) trace)).

End Reconnect.

(** ** More sample data *)

Module MoreSamples.
Import Tree.

(** The state manager before anything was collected: the task objects of
    [Samples.manager] have arrived, the index is empty. *)
Definition uncollected : Client.StateManager :=
  {| Client.filesMap := ∅; Client.idMap := ∅; Client.errorsSet := [];
     Client.heap := Client.heap Samples.manager |}.

(** The data of [math.test.ts] after discovery, and the file as the
    runtime reports it at the end of a run. *)
Definition math_data : TestFile :=
  {| file_item := Samples.math_uri;
     file_children :=
       [TestDescribe "math" false "file:///w/math.test.ts/math@0"
          [TestCase "adds" false "file:///w/math.test.ts/math adds@1" 0;
           TestCase "subtracts" false "file:///w/math.test.ts/math subtracts@2" 1]] |}.

Definition math_finished : Watch.File :=
  {| Watch.filepath := "/w/math.test.ts";
     Watch.file_task :=
       Watch.mkTask "f1" Watch.suite "math.test.ts" None
         [Watch.mkTask "1" Watch.suite "math" None
            [Watch.mkTask "2" Watch.test "adds" (Some Samples.passed) [];
             Watch.mkTask "3" Watch.test "subtracts" (Some Samples.failed) []]] |}.

(** A second file: its suite has no static children, and the runtime found
    a test in it. *)
Definition late_data : TestFile :=
  {| file_item := "file:///w/late.test.ts"; file_children := Samples.math_static |}.

Definition late_finished : Watch.File :=
  {| Watch.filepath := "/w/late.test.ts";
     Watch.file_task :=
       Watch.mkTask "f2" Watch.suite "late.test.ts" None Samples.math_runtime |}.

Definition discovered (path : string) : TestFile :=
  if bool_decide (path = "/w/math.test.ts") then math_data else late_data.

Definition idle : Status.Reactive :=
  {| Status.watcher := Samples.watcher_connected; Status.isRunning := true;
     Status.testStatus := {| Status.passed := 0; Status.failed := 0; Status.skipped := 0 |} |}.

(** A parser that reports a block of a kind the builder does not know. *)
Definition odd_parse (id content : string) : option Discover.ParseResult :=
  Some {| Discover.describeBlocks := [Samples.math_suite];
          Discover.itBlocks :=
            [Samples.adds_case; Samples.block "bench" "sorts" (Samples.pos 3 2) (Samples.pos 3 45)] |}.

(** Two test files of the workspace [/w]. *)
Definition a_uri : Files.Uri :=
  {| Files.fsPath := "/w/src/a.test.ts"; Files.toString := "file:///w/src/a.test.ts" |}.

Definition b_uri : Files.Uri :=
  {| Files.fsPath := "/w/spec/b.test.ts"; Files.toString := "file:///w/spec/b.test.ts" |}.

(** [describe.skip('outer', () => { describe('inner', () => { it.only('t') }) })]
    followed by [it.only('u')], as the collector finds them, not yet
    sorted. *)
Definition skipped_suite : list Collector.LocalCallDefinition :=
  [{| Collector.start := 20; Collector.end_ := 30; Collector.name := "t";
      Collector.type := Watch.test; Collector.mode := "only" |};
   {| Collector.start := 10; Collector.end_ := 50; Collector.name := "inner";
      Collector.type := Watch.suite; Collector.mode := "run" |};
   {| Collector.start := 0; Collector.end_ := 100; Collector.name := "outer";
      Collector.type := Watch.suite; Collector.mode := "skip" |};
   {| Collector.start := 110; Collector.end_ := 130; Collector.name := "u";
      Collector.type := Watch.test; Collector.mode := "only" |}].

(** A stand-in for the engine's upper case in the examples: the letters
    [a] to [z], and the sharp s (character 223), which becomes [SS]; every
    other character is left alone. *)
Definition toUpperCase (c : ascii) : string :=
  let n := nat_of_ascii c in
  if ((97 <=? n)%nat && (n <=? 122)%nat) then String (ascii_of_nat (n - 32)) EmptyString
  else if (n =? 223)%nat then "SS"
  else String c EmptyString.

(** A Windows path that starts with a sharp s: a sharp s, [a], a backslash
    and [b]. *)
Definition sharp_path : string :=
  String (ascii_of_nat 223) (String "a"%char (String Utils.backslash "b")).

(** A source of four characters, the first one above U+FFFF: a face, [a],
    a line break, [b].  As a string it has five units. *)
Definition face_source : list IndexMap.CodePoint :=
  [128512%N; 97%N; 10%N; 98%N].

End MoreSamples.

(** * Properties *)

(** ** The state manager *)

Section ClientFacts.
Import Client.

Lemma with_heap_same sm : with_heap (heap sm) sm = sm.
Proof. by destruct sm. Qed.

Lemma updateTask_index sm p :
  filesMap (updateTask sm p) = filesMap sm ∧
  idMap (updateTask sm p) = idMap sm ∧
  errorsSet (updateTask sm p) = errorsSet sm.
Proof. unfold updateTask. by destruct (idMap sm !! p.1). Qed.

Lemma updateTasks_index packs sm :
  filesMap (updateTasks packs sm) = filesMap sm ∧
  idMap (updateTasks packs sm) = idMap sm ∧
  errorsSet (updateTasks packs sm) = errorsSet sm.
Proof.
  unfold updateTasks. induction packs as [|p packs IH] using rev_ind; [done|].
  rewrite foldl_snoc. destruct IH as (<- & <- & <-). apply updateTask_index.
Qed.

(** A pack for a known id overwrites the result of the task it resolves to
    and nothing else. *)
Lemma updateTask_known sm p l t :
  idMap sm !! p.1 = Some l → heap sm !! l = Some t →
  updateTask sm p = with_heap (<[l := set_result p.2 t]> (heap sm)) sm.
Proof.
  intros Hid Hl. unfold updateTask. rewrite Hid. f_equal.
  apply map_eq. intros l'. destruct (decide (l = l')) as [<-|].
  - by rewrite lookup_alter_eq, lookup_insert_eq, Hl.
  - by rewrite lookup_alter_ne, lookup_insert_ne.
Qed.

(** A pack for an unknown id is dropped. *)
Lemma updateTask_unknown sm p :
  idMap sm !! p.1 = None → updateTask sm p = sm.
Proof. intros Hid. unfold updateTask. by rewrite Hid. Qed.

Lemma lastUpdate_snoc sm packs p l :
  lastUpdate sm (packs ++ [p]) l =
  if decide (idMap sm !! p.1 = Some l) then Some p.2 else lastUpdate sm packs l.
Proof.
  unfold lastUpdate. rewrite filter_app, fmap_app.
  rewrite filter_cons, filter_nil. case_decide; simpl.
  - by rewrite last_snoc.
  - by rewrite app_nil_r.
Qed.

Lemma lastUpdate_unknown sm packs l :
  Forall (λ p, idMap sm !! p.1 = None) packs → lastUpdate sm packs l = None.
Proof.
  induction packs as [|p packs IH] using rev_ind; [done|].
  rewrite Forall_app, Forall_singleton. intros [Hpacks Hp].
  rewrite lastUpdate_snoc, decide_False by congruence. auto.
Qed.

Lemma updateTasks_heap packs sm l :
  heap (updateTasks packs sm) !! l =
  match lastUpdate sm packs l with
  | Some r => set_result r <$> heap sm !! l
  | None => heap sm !! l
  end.
Proof.
  induction packs as [|p packs IH] using rev_ind; [done|].
  rewrite lastUpdate_snoc. unfold updateTasks in *. rewrite foldl_snoc.
  fold (updateTasks packs sm) in *.
  unfold updateTask at 1.
  destruct (updateTasks_index packs sm) as (_ & -> & _).
  destruct (idMap sm !! p.1) as [l0|] eqn:E.
  - simpl. destruct (decide (l0 = l)) as [->|Hne].
    + rewrite decide_True by done. rewrite lookup_alter_eq, IH.
      destruct (lastUpdate sm packs l); [|done].
      by destruct (heap sm !! l).
    + rewrite decide_False by congruence. by rewrite lookup_alter_ne.
  - by rewrite decide_False.
Qed.

(** C6.  A batch of task updates leaves both indexes and the error set as
    they are; every task object keeps its id, type, name and children, and
    its result becomes that of the last pack whose id resolves to it, or
    stays when there is none; a batch all of whose ids are unknown leaves
    the whole state as it is. *)
Theorem updateTasks_replaces_only_results packs sm :
  let sm' := updateTasks packs sm in
  (filesMap sm' = filesMap sm ∧ idMap sm' = idMap sm ∧ errorsSet sm' = errorsSet sm) ∧
  dom (heap sm') = dom (heap sm) ∧
  (∀ l t, heap sm !! l = Some t →
     ∃ t', heap sm' !! l = Some t' ∧
       id t' = id t ∧ type t' = type t ∧ name t' = name t ∧ tasks t' = tasks t ∧
       result t' = default (result t) (lastUpdate sm packs l)) ∧
  (∀ l, lastUpdate sm packs l = None → heap sm' !! l = heap sm !! l) ∧
  (Forall (λ p, idMap sm !! p.1 = None) packs → sm' = sm).
Proof.
  intros sm'. split; [apply updateTasks_index|].
  assert (Hheap := updateTasks_heap packs sm). fold sm' in Hheap.
  split; [|split; [|split]].
  - apply set_eq. intros l. rewrite !elem_of_dom, Hheap.
    destruct (lastUpdate sm packs l); [|done]. by rewrite fmap_is_Some.
  - intros l t Hl. rewrite Hheap, Hl.
    destruct (lastUpdate sm packs l) as [r|]; simpl; eauto 10.
  - intros l Hnone. by rewrite Hheap, Hnone.
  - intros Hunknown.
    assert (heap sm' = heap sm) as Hsame.
    { apply map_eq. intros l. by rewrite Hheap, lastUpdate_unknown. }
    destruct (updateTasks_index packs sm) as (Hf & Hi & He). fold sm' in Hf, Hi, He.
    destruct sm', sm; simpl in *; congruence.
Qed.

Lemma updateTasks_replaces_only_results_witness :
  let sm' := updateTasks [("t1", Some Samples.passed); ("t9", Some Samples.failed)]
               Samples.manager in
  (∃ t', heap sm' !! 1 = Some t' ∧ id t' = "t1" ∧ name t' = "adds" ∧
         result t' = Some Samples.passed) ∧
  heap sm' !! 0 = heap Samples.manager !! 0 ∧
  idMap sm' = idMap Samples.manager ∧
  updateTasks [("t9", Some Samples.failed)] Samples.manager = Samples.manager.
Proof.
  intros sm'.
  destruct (updateTasks_replaces_only_results
              [("t1", Some Samples.passed); ("t9", Some Samples.failed)]
              Samples.manager) as ((_ & Hid & _) & _ & Hres & Hkeep & _).
  destruct (updateTasks_replaces_only_results
              [("t9", Some Samples.failed)] Samples.manager) as (_ & _ & _ & _ & Hdrop).
  fold sm' in Hid, Hres, Hkeep. split_and!.
  - destruct (Hres 1 _ eq_refl) as (t' & Ht' & Hi & _ & Hn & _ & Hr).
    exists t'. split_and!; [exact Ht'|exact Hi|exact Hn|exact Hr].
  - apply Hkeep. reflexivity.
  - exact Hid.
  - apply Hdrop. repeat constructor.
Defined.

End ClientFacts.

(** ** The continuous-run scheduler *)

Section WatcherFacts.
Import Watcher.

Lemma append_String c (w s : string) : String c w +:+ s = String c (w +:+ s).
Proof. reflexivity. Qed.

(** [String.prototype.startsWith]. *)
Lemma prefix_startsWith (w f : string) :
  String.prefix w f = true ↔ startsWith f w.
Proof.
  unfold startsWith. revert f. induction w as [|c w IH]; intros f; simpl.
  - split; [by exists f|by destruct f].
  - destruct f as [|c' f]; simpl.
    + split; [done|]. intros [s Hs]. by rewrite append_String in Hs.
    + setoid_rewrite append_String.
      destruct (Ascii.ascii_dec c c') as [->|Hne].
      * rewrite IH. split; intros [s Hs]; exists s; congruence.
      * split; [done|]. intros [s Hs]. congruence.
Qed.

Lemma last_char_snoc (p : string) (c : ascii) :
  last_char (p +:+ String c "") = Some c.
Proof.
  unfold last_char. induction p as [|d p IH]; [done|].
  rewrite append_String. simpl.
  destruct (String.length (p +:+ String c "")) eqn:E; [|done].
  destruct p; [done|]. by rewrite append_String in E.
Qed.

Lemma last_char_endsWith (w : string) (c : ascii) :
  last_char w = Some c ↔ ∃ p, w = p +:+ String c "".
Proof.
  split.
  - unfold last_char. induction w as [|d w IH]; [done|]. simpl.
    destruct w as [|e w]; simpl in *.
    + intros [= ->]. by exists "".
    + intros H. destruct (IH H) as [p Hp]. exists (String d p).
      rewrite append_String. congruence.
  - intros [p ->]. apply last_char_snoc.
Qed.

Lemma watches_spec f w :
  watches f w = true ↔ w = f ∨ (endsWithSeparator w ∧ startsWith f w).
Proof.
  unfold watches, endsWithSeparator.
  rewrite <- last_char_endsWith, <- prefix_startsWith.
  destruct (decide (w = f)) as [->|Hne].
  - rewrite bool_decide_eq_true_2 by done. tauto.
  - rewrite bool_decide_eq_false_2 by done.
    destruct (decide (last_char w = Some "/"%char)) as [Hl|Hl].
    + rewrite bool_decide_eq_true_2 by done. tauto.
    + rewrite bool_decide_eq_false_2 by done. split; [done|]. tauto.
Qed.

(** [isTestFileWatched] decides the match with the watched set. *)
Lemma isTestFileWatched_spec st f :
  isTestFileWatched st f = true ↔ matchesWatched (files st) f.
Proof.
  unfold isTestFileWatched, matchesWatched.
  transitivity (existsb (watches f) (files st) = true).
  { by destruct (files st). }
  rewrite existsb_exists. setoid_rewrite watches_spec.
  by setoid_rewrite list_elem_of_In.
Qed.

Lemma isTestFileTrigger_true ctx fs :
  isTestFileTrigger ctx fs = true ↔ ∃ t, head fs = Some t ∧ t ∈ changedTests ctx.
Proof.
  destruct fs as [|t fs]; simpl.
  - split; [done|]. by intros (t & ? & _).
  - rewrite bool_decide_eq_true. split; [eauto|]. by intros (t' & [= ->] & ?).
Qed.

(** What the call does when the tracked name pattern does not compile:
    it marks the rerun as triggered and throws; the context is as it was and
    the original function is not called. *)
Lemma scheduleRerun_rejected gp cnp compiles st ctx fs pattern :
  enabled st = true → rejected compiles (namePatternOf st) = Some pattern →
  scheduleRerun gp cnp compiles st ctx fs = (markRerun true st, ctx, [ThrowSyntaxError pattern]).
Proof. intros Hen Hrej. unfold scheduleRerun. by rewrite Hen, Hrej. Qed.

Lemma namePatternOf_Some st pattern :
  namePatternOf st = Some pattern ↔ testNamePattern st = Some pattern ∧ pattern ≠ "".
Proof.
  unfold namePatternOf. destruct (testNamePattern st) as [p|]; [|by split; [|intros []]].
  case_bool_decide as Hp; split.
  - done.
  - intros [[= ->] Hne]. done.
  - intros [= ->]. done.
  - intros [[= ->] _]. done.
Qed.

Lemma rejected_Some compiles namePattern pattern :
  rejected compiles namePattern = Some pattern ↔
  namePattern = Some pattern ∧ compiles pattern = false.
Proof.
  unfold rejected. destruct namePattern as [p|]; [|by split; [|intros []]].
  destruct (compiles p) eqn:Hp; split.
  - done.
  - intros [[= ->] Hc]. congruence.
  - intros [= ->]. done.
  - intros [[= ->] _]. done.
Qed.

(** C8, as the code has it.  With continuous mode on for an explicit list of
    files, and a tracked name pattern that is absent, empty or compiles (the
    call throws on any other, before it filters): when the file that
    triggered the notification is not one of the changed tests, the changed
    tests left for the rerun are those of the tick that match the watched
    set; when the trigger is itself a changed test, the changed tests are
    left as they are. *)
Theorem scheduleRerun_scopes_source_changes gp cnp compiles st ctx fs :
  enabled st = true → watchEveryFile st = false →
  rejected compiles (namePatternOf st) = None →
  let ctx' := (scheduleRerun gp cnp compiles st ctx fs).1.2 in
  ((∀ t, head fs = Some t → t ∉ changedTests ctx) → rerunsIntersection st ctx ctx') ∧
  ((∃ t, head fs = Some t ∧ t ∈ changedTests ctx) → changedTests ctx' = changedTests ctx).
Proof.
  intros Hen Hall Hok. unfold scheduleRerun. rewrite Hen, Hall, Hok. simpl.
  destruct (isTestFileTrigger ctx fs) eqn:Htrig; simpl.
  - split; [|done]. intros Hno.
    apply isTestFileTrigger_true in Htrig as (t & Ht & Hin). by destruct (Hno t Ht).
  - split.
    + intros _ f. simpl. rewrite list_elem_of_filter, isTestFileWatched_spec. tauto.
    + intros Hex. apply isTestFileTrigger_true in Hex. congruence.
Qed.

Lemma scheduleRerun_scopes_source_changes_witness :
  let ctx := Samples.ctx_changed ["/w/a.test.ts"; "/w/b.test.ts"] in
  let ctx' := (scheduleRerun Samples.no_projects "" Samples.compiles
                 Samples.watcher_tracking_a ctx ["/w/src.ts"]).1.2 in
  changedTests ctx' = ["/w/a.test.ts"] ∧
  rejected Samples.compiles (namePatternOf Samples.watcher_tracking_a) = None ∧
  ((∀ t, head ["/w/src.ts"] = Some t → t ∉ changedTests ctx) →
     rerunsIntersection Samples.watcher_tracking_a ctx ctx') ∧
  ((∃ t, head ["/w/src.ts"] = Some t ∧ t ∈ changedTests ctx) →
     changedTests ctx' = changedTests ctx).
Proof.
  split; [reflexivity|]. split; [reflexivity|].
  apply (scheduleRerun_scopes_source_changes Samples.no_projects "" Samples.compiles
           Samples.watcher_tracking_a
           (Samples.ctx_changed ["/w/a.test.ts"; "/w/b.test.ts"]) ["/w/src.ts"]);
    reflexivity.
Defined.

(** C8, as it is worded, fails when the changed file is a test that is not
    watched: [/w/b.test.ts] changes while only [/w/a.test.ts] is watched, and
    it stays among the changed tests.  No name pattern is tracked, so that
    nothing is compiled and the call returns. *)
Lemma scheduleRerun_test_trigger_unfiltered :
  let ctx := Samples.ctx_changed ["/w/b.test.ts"] in
  let r := scheduleRerun Samples.no_projects "" Samples.compiles
             Samples.watcher_tracking_a ctx ["/w/b.test.ts"] in
  let ctx' := r.1.2 in
  enabled Samples.watcher_tracking_a = true ∧
  watchEveryFile Samples.watcher_tracking_a = false ∧
  files Samples.watcher_tracking_a ≠ [] ∧
  testNamePattern Samples.watcher_tracking_a = None ∧
  r.2 = [LogRerun ["/w/b.test.ts"] None; OriginalScheduleRerun ["/w/b.test.ts"]] ∧
  changedTests ctx' = ["/w/b.test.ts"] ∧
  ¬ rerunsIntersection Samples.watcher_tracking_a ctx ctx'.
Proof.
  repeat split; [done|].
  intros H. destruct (H "/w/b.test.ts") as [Hin _].
  destruct Hin as [_ Hw]; [by apply list_elem_of_singleton|].
  apply isTestFileWatched_spec in Hw. discriminate Hw.
Qed.

End WatcherFacts.

(** ** The tree builder *)

Section DiscoverFacts.
Import Tree Discover.

(** *** The sort *)

(** [sortBlocks] sorts by the line on which a block starts. *)
Lemma insertBlock_perm b l : insertBlock b l ≡ₚ b :: l.
Proof.
  induction l as [|x xs IH]; [done|]. simpl.
  destruct (sortKey b <=? sortKey x)%Z; [done|].
  by rewrite IH, Permutation_swap.
Qed.

Lemma sortBlocks_perm arr : sortBlocks arr ≡ₚ arr.
Proof.
  induction arr as [|b arr IH]; [done|]. simpl.
  by rewrite insertBlock_perm, IH.
Qed.

Lemma insertBlock_sorted b l :
  StronglySorted (λ x y, sortKey x ≤ sortKey y)%Z l →
  StronglySorted (λ x y, sortKey x ≤ sortKey y)%Z (insertBlock b l).
Proof.
  induction 1 as [|x xs Hxs IH Hx]; simpl.
  - repeat constructor.
  - destruct (Z.leb_spec (sortKey b) (sortKey x)) as [Hle|Hgt].
    + constructor; [by constructor|]. constructor; [done|].
      eapply Forall_impl; [exact Hx|]. simpl. intros y ?. lia.
    + constructor; [done|]. rewrite insertBlock_perm.
      constructor; [lia|done].
Qed.

Lemma sortBlocks_sorted arr :
  StronglySorted (λ x y, sortKey x ≤ sortKey y)%Z (sortBlocks arr).
Proof.
  induction arr as [|b arr IH]; [constructor|]. by apply insertBlock_sorted.
Qed.

(** The sort is stable: blocks that start on the same line keep their
    order. *)
Lemma insertBlock_stable k b l :
  filter (λ x, sortKey x = k) (insertBlock b l) = filter (λ x, sortKey x = k) (b :: l).
Proof.
  induction l as [|x xs IH]; [done|]. simpl.
  destruct (Z.leb_spec (sortKey b) (sortKey x)) as [Hle|Hgt]; [done|].
  rewrite filter_cons, IH, !filter_cons.
  destruct (decide (sortKey x = k)), (decide (sortKey b = k)); try done. lia.
Qed.

Lemma sortBlocks_stable k arr :
  filter (λ x, sortKey x = k) (sortBlocks arr) = filter (λ x, sortKey x = k) arr.
Proof.
  induction arr as [|b arr IH]; [done|]. simpl.
  by rewrite insertBlock_stable, !filter_cons, IH.
Qed.

(** *** The stack of ancestors *)

Lemma TestItem_forall_ind (P : TestItem → Prop) :
  (∀ i l u r ts cs, Forall P cs → P (mkTestItem i l u r ts cs)) → ∀ t, P t.
Proof.
  intros H. fix IH 1. intros [i l u r ts cs]. apply H.
  induction cs as [|c cs IHcs]; constructor; [apply IH|apply IHcs].
Qed.

Lemma ids_retag ts t : ids (retag ts t) = ids t.
Proof.
  induction t as [i l u r ts' cs IH] using TestItem_forall_ind. simpl. f_equal.
  induction IH as [|c cs Hc _ IHcs]; [done|]. simpl. by rewrite Hc, IHcs.
Qed.

Lemma flat_ids_retag ts cs : flat_map ids (map (retag ts) cs) = flat_map ids cs.
Proof. induction cs as [|c cs IH]; [done|]. simpl. by rewrite ids_retag, IH. Qed.

Lemma alter_last_snoc {A} (f : A → A) l x : alter_last f (l ++ [x]) = l ++ [f x].
Proof.
  induction l as [|y l IH]; [done|]. simpl. rewrite IH.
  by destruct l.
Qed.

Lemma nonempty_snoc {A} (l : list A) : l ≠ [] → ∃ l' x, l = l' ++ [x].
Proof. destruct l as [|y l] using rev_ind; [done|eauto]. Qed.

Lemma getParent_unwind b top rest :
  unwind (getParent b top rest).1 (getParent b top rest).2 = unwind top rest.
Proof.
  revert top. induction rest as [|below rest IH]; intros top; simpl.
  - by destruct (anc_block top).
  - destruct (anc_block top) as [pb|]; [|done].
    destruct (startsAfter b pb); [apply IH|done].
Qed.

Lemma unwind_item t1 t2 rest :
  anc_item t1 = anc_item t2 → anc_item (unwind t1 rest) = anc_item (unwind t2 rest).
Proof.
  revert t1 t2. induction rest as [|below rest IH]; intros t1 t2 H; [done|].
  simpl. by apply IH.
Qed.

Lemma aliased_ext a b rest :
  anc_item a = anc_item b → anc_data a = anc_data b →
  aliased a rest → aliased b rest.
Proof.
  intros Hi Hd. destruct rest as [|lower rest]; [done|]. simpl.
  unfold entryData. by rewrite Hi, Hd.
Qed.

Lemma aliased_nonempty top rest :
  aliased top rest → Forall (λ f, anc_children f ≠ []) rest.
Proof.
  revert top. induction rest as [|lower rest IH]; intros top; [constructor|].
  intros (Hlast & _ & Hrest). constructor; [|by eapply IH].
  intros Hnil. by rewrite Hnil in Hlast.
Qed.

(** Under the invariant, [pop] writes through the alias: the last child of
    the entry below is the item of the popped entry, and it gets the
    children the entry collected. *)
Lemma pop_through_alias top lower rest :
  aliased top (lower :: rest) →
  ∃ l, anc_children lower = l ++ [anc_item top] ∧
       anc_children (pop top lower) =
         l ++ [children_replace (anc_children top) (anc_item top)].
Proof.
  intros (Hlast & _ & _). apply last_Some in Hlast as [l Hl].
  exists l. split; [done|]. simpl. by rewrite Hl, alter_last_snoc.
Qed.

Lemma getParent_inv fi open b top rest :
  stackInv fi open top rest →
  let '(p, r) := getParent b top rest in
  stackInv fi (closeSuites b open) p r ∧ unwind p r = unwind top rest.
Proof.
  revert top open. induction rest as [|below rest IH]; intros top open [Hb Hc Hi].
  - destruct open as [|pb open]; simpl in Hb.
    + injection Hb as Hb. simpl. rewrite Hb.
      split; [|done]. split; [|done..]. simpl. by rewrite Hb.
    + destruct open; discriminate Hb.
  - destruct open as [|pb open]; [discriminate Hb|].
    injection Hb as Htop Hb. simpl. rewrite Htop. unfold startsAfter.
    destruct (line (end_ pb) <=? line (start b))%Z.
    + apply IH. destruct Hc as (_ & _ & Hc). split; [done| |done].
      by apply (aliased_ext below).
    + split; [|done]. split; [|done..]. simpl. by rewrite Htop, Hb.
Qed.

Lemma fullName_open fi open p r b :
  stackInv fi open p r →
  fullName p r b = fullNameUnder (map name (reverse open)) b.
Proof.
  intros [Hb _ _]. unfold fullName, fullNameUnder, ancestorNames. do 3 f_equal.
  change (map ?f ?l) with (f <$> l) in *.
  rewrite fmap_drop, fmap_reverse.
  change (λ x, from_option name "" (anc_block x))
    with (from_option name "" ∘ anc_block).
  rewrite (list_fmap_compose anc_block (from_option name "") (p :: r)), Hb.
  rewrite fmap_app, reverse_app. simpl. rewrite drop_0.
  rewrite <- list_fmap_compose, fmap_reverse. done.
Qed.

Lemma flat_app cs1 cs2 : flat (cs1 ++ cs2) = flat cs1 ++ flat cs2.
Proof. apply flat_map_app. Qed.

Lemma flat_pop top below l x :
  anc_children below = l ++ [x] →
  flat (anc_children (pop top below)) = flat l ++ item_id x :: flat (anc_children top).
Proof.
  intros H. simpl. rewrite H, alter_last_snoc, flat_app. simpl.
  by rewrite app_nil_r.
Qed.

Lemma unwind_flat_ext X t1 t2 rest :
  Forall (λ f, anc_children f ≠ []) rest →
  flat (anc_children t2) = flat (anc_children t1) ++ X →
  flat (anc_children (unwind t2 rest)) = flat (anc_children (unwind t1 rest)) ++ X.
Proof.
  revert t1 t2. induction rest as [|below rest IH]; intros t1 t2 Hne Hext; [done|].
  apply Forall_cons in Hne as [Hbelow Hne]. simpl. apply IH; [done|].
  apply nonempty_snoc in Hbelow as (l & x & Hl).
  rewrite !(flat_pop _ below l x) by done. rewrite Hext.
  by rewrite <- app_assoc.
Qed.

Lemma step_inv u fi open st b :
  stackInv fi open (top st) (below st) →
  validType b →
  ∃ st', step u st b = inl st' ∧
    stackInv fi (openAfter b open) (top st') (below st') ∧
    index st' = S (index st) ∧
    flat (anc_children (unwind (top st') (below st'))) =
      flat (anc_children (unwind (top st) (below st)))
      ++ [makeId u (fullNameUnder (map name (reverse (closeSuites b open))) b) (index st)].
Proof.
  intros Hinv Hvalid. unfold step, openAfter.
  pose proof (getParent_inv fi open b (top st) (below st) Hinv) as Hget.
  destruct (getParent b (top st) (below st)) as [p r].
  destruct Hget as [Hinv' Hunwind]. rewrite <- Hunwind.
  rewrite (fullName_open fi (closeSuites b open)) by done.
  set (i := makeId u _ (index st)).
  destruct Hinv' as [Hb Hc Hi].
  destruct Hvalid as [Hty|Hty]; rewrite Hty; simpl.
  - eexists. split; [done|]. simpl. split; [|split; [done|]].
    + split; simpl.
      * simpl in Hb. by rewrite Hb.
      * rewrite !last_snoc. split_and!; [done..|]. by apply (aliased_ext p).
      * rewrite <- Hi. by apply unwind_item.
    + apply unwind_flat_ext; [by eapply aliased_nonempty|]. simpl.
      rewrite alter_last_snoc, flat_app. simpl. done.
  - eexists. split; [done|]. simpl. split; [|split; [done|]].
    + split; simpl; [done|by apply (aliased_ext p)|].
      rewrite <- Hi. by apply unwind_item.
    + apply unwind_flat_ext; [by eapply aliased_nonempty|]. simpl.
      by rewrite flat_app.
Qed.

Lemma numbered_cons u from n names :
  numbered u from (n :: names) = makeId u n from :: numbered u (S from) names.
Proof.
  unfold numbered. rewrite imap_cons. f_equal.
  - f_equal. lia.
  - apply imap_ext. intros k x _. simpl. f_equal. lia.
Qed.

Lemma loop_inv u fi arr : ∀ open st,
  stackInv fi open (top st) (below st) →
  Forall validType arr →
  ∃ st', loop u st arr = inl st' ∧
    anc_item (unwind (top st') (below st')) = fi ∧
    flat (anc_children (unwind (top st') (below st'))) =
      flat (anc_children (unwind (top st) (below st)))
      ++ numbered u (index st) (fullNames open arr).
Proof.
  induction arr as [|b arr IH]; intros open st Hinv Hvalid.
  - exists st. split; [done|]. split; [apply Hinv|]. by rewrite app_nil_r.
  - apply Forall_cons in Hvalid as [Hb Hvalid].
    destruct (step_inv u fi open st b Hinv Hb) as (st1 & Hstep & Hinv1 & Hidx & Hflat).
    destruct (IH _ st1 Hinv1 Hvalid) as (st' & Hloop & Hitem & Hflat').
    exists st'. simpl. rewrite Hstep. split; [done|]. split; [done|].
    rewrite Hflat', Hflat, Hidx, <- app_assoc. simpl. by rewrite numbered_cons.
Qed.
Lemma pop_same t1 t2 b1 b2 :
  sameEntry t1 t2 → sameEntry b1 b2 → sameEntry (pop t1 b1) (pop t2 b2).
Proof.
  intros (_ & Hc & Hd & _) (Hb & Hc' & Hd' & Ha). unfold sameEntry. simpl.
  by rewrite Hb, Hc, Hd, Hc', Hd', Ha.
Qed.

Lemma getParent_same b p1 p2 r1 r2 :
  sameEntry p1 p2 → Forall2 sameEntry r1 r2 →
  sameEntry (getParent b p1 r1).1 (getParent b p2 r2).1 ∧
  Forall2 sameEntry (getParent b p1 r1).2 (getParent b p2 r2).2.
Proof.
  intros Hp Hr. revert p1 p2 Hp.
  induction Hr as [|b1 b2 r1 r2 Hb Hr IH]; intros p1 p2 Hp.
  - simpl. pose proof Hp as (Hblk & _). rewrite <- Hblk.
    by destruct (anc_block p1).
  - simpl. pose proof Hp as (Hblk & _). rewrite <- Hblk.
    destruct (anc_block p1) as [pb|]; [|by split; [|constructor]].
    destruct (startsAfter b pb).
    + apply IH. by apply pop_same.
    + by split; [|constructor].
Qed.

Lemma unwind_same p1 p2 r1 r2 :
  sameEntry p1 p2 → Forall2 sameEntry r1 r2 →
  sameEntry (unwind p1 r1) (unwind p2 r2).
Proof.
  intros Hp Hr. revert p1 p2 Hp.
  induction Hr as [|b1 b2 r1 r2 Hb Hr IH]; intros p1 p2 Hp; [done|].
  simpl. apply IH. by apply pop_same.
Qed.

Lemma fullName_same p1 p2 r1 r2 b :
  sameEntry p1 p2 → Forall2 sameEntry r1 r2 →
  fullName p1 r1 b = fullName p2 r2 b.
Proof.
  intros Hp Hr. unfold fullName, ancestorNames. do 3 f_equal.
  assert (map anc_block (p1 :: r1) = map anc_block (p2 :: r2)) as Hblocks.
  { simpl. f_equal; [apply Hp|].
    induction Hr as [|?? ?? Hb _ IH]; [done|]. simpl. f_equal; [apply Hb|done]. }
  change (map ?f ?l) with (f <$> l) in *.
  rewrite !fmap_drop, !fmap_reverse.
  change (λ x, from_option name "" (anc_block x))
    with (from_option name "" ∘ anc_block).
  rewrite (list_fmap_compose anc_block _ (p1 :: r1)).
  rewrite (list_fmap_compose anc_block _ (p2 :: r2)).
  by rewrite Hblocks.
Qed.

Lemma step_same u s1 s2 b :
  sameLoop s1 s2 →
  match step u s1 b, step u s2 b with
  | inl a, inl c =>
      sameLoop a c ∧ ∃ i, idMap a = {[ i ]} ∪ idMap s1 ∧ idMap c = {[ i ]} ∪ idMap s2
  | inr m1, inr m2 => ∃ i, m1 = {[ i ]} ∪ idMap s1 ∧ m2 = {[ i ]} ∪ idMap s2
  | _, _ => False
  end.
Proof.
  intros (Ht & Hb & Hn & Hi). unfold step.
  destruct (getParent_same b (top s1) (top s2) (below s1) (below s2) Ht Hb)
    as [Hp Hr].
  destruct (getParent b (top s1) (below s1)) as [p1 r1].
  destruct (getParent b (top s2) (below s2)) as [p2 r2]. simpl in Hp, Hr.
  rewrite (fullName_same p1 p2 r1 r2 b Hp Hr), Hi, Hn.
  pose proof Hp as (Hpb & Hpc & Hpd & Hpa).
  destruct (bool_decide (type b = "describe")).
  - split; [|eauto]. unfold sameLoop, sameEntry. simpl.
    split_and!; try done.
    constructor; [|done]. unfold sameEntry. simpl. by rewrite Hpb, Hpc, Hpd, Hpa.
  - destruct (bool_decide (type b = "it")); [|eauto].
    split; [|eauto]. unfold sameLoop, sameEntry. simpl.
    by rewrite Hpb, Hpc, Hpd, Hpa.
Qed.

Lemma loop_same u arr : ∀ s1 s2,
  sameLoop s1 s2 →
  match loop u s1 arr, loop u s2 arr with
  | inl a, inl c =>
      sameLoop a c ∧ ∃ S, idMap a = S ∪ idMap s1 ∧ idMap c = S ∪ idMap s2
  | inr m1, inr m2 => ∃ S, m1 = S ∪ idMap s1 ∧ m2 = S ∪ idMap s2
  | _, _ => False
  end.
Proof.
  induction arr as [|b arr IH]; intros s1 s2 Hs; simpl.
  - split; [done|]. exists ∅. split; set_solver.
  - pose proof (step_same u s1 s2 b Hs) as Hstep.
    destruct (step u s1 b) as [a|m1], (step u s2 b) as [c|m2]; try done.
    + destruct Hstep as (Hac & i & Ha & Hc).
      specialize (IH a c Hac).
      destruct (loop u a arr) as [a'|m1], (loop u c arr) as [c'|m2]; try done.
      * destruct IH as (? & S & -> & ->). split; [done|].
        exists (S ∪ {[ i ]}). rewrite Ha, Hc. split; set_solver.
      * destruct IH as (S & -> & ->).
        exists (S ∪ {[ i ]}). rewrite Ha, Hc. split; set_solver.
    + destruct Hstep as (i & -> & ->). eauto.
Qed.

Lemma step_item u st b st' :
  step u st b = inl st' →
  anc_item (unwind (top st') (below st')) = anc_item (unwind (top st) (below st)).
Proof.
  unfold step. rewrite <- (getParent_unwind b (top st) (below st)).
  destruct (getParent b (top st) (below st)) as [p r]. simpl.
  destruct (bool_decide (type b = "describe")).
  - intros [= <-]. simpl. by apply unwind_item.
  - destruct (bool_decide (type b = "it")); [|done].
    intros [= <-]. simpl. by apply unwind_item.
Qed.

Lemma loop_item u arr : ∀ st st',
  loop u st arr = inl st' →
  anc_item (unwind (top st') (below st')) = anc_item (unwind (top st) (below st)).
Proof.
  induction arr as [|b arr IH]; intros st st'; simpl.
  - by intros [= ->].
  - destruct (step u st b) as [st1|] eqn:Hstep; [|done].
    intros Hloop. rewrite (IH _ _ Hloop). by eapply step_item.
Qed.

Lemma getParent_file block parent rest :
  anc_block parent = None → getParent block parent rest = (parent, rest).
Proof. intros H. destruct rest; simpl; by rewrite H. Qed.



Section Operation.
Variable parse : string → string → option ParseResult.
Variable openTestTag : TestTag.
Variable isFileOpen : string → bool.

Lemma initialLoop_inv w m :
  stackInv (fileItem w) [] (top (initialLoop w m)) (below (initialLoop w m)).
Proof. by split. Qed.

(** The ids of the tree that valid blocks build: that of the file, then one
    per block, in the order of the blocks. *)
Lemma applyBlocks_ids w m arr :
  Forall validType arr →
  (applyBlocks openTestTag isFileOpen w m arr).2 = Returned ∧
  ids (fileItem (applyBlocks openTestTag isFileOpen w m arr).1) =
    item_id (fileItem w) :: numbered (uri (fileItem w)) 0 (fullNames [] arr).
Proof.
  intros Hvalid. unfold applyBlocks.
  destruct (loop_inv (uri (fileItem w)) (fileItem w) arr [] (initialLoop w m)
              (initialLoop_inv w m) Hvalid) as (st' & -> & Hitem & Hflat).
  split; [done|]. simpl. rewrite flat_ids_retag, Hitem. f_equal. apply Hflat.
Qed.

Lemma fullNames_behind_closed C A arr :
  encloses C A = false →
  fullNames (openAfter C []) (A :: arr) = fullNames [] (A :: arr).
Proof.
  unfold encloses, openAfter. simpl.
  destruct (bool_decide (type C = "describe")); [|done]. simpl.
  rewrite Z.ltb_antisym, negb_false_iff. unfold openAfter. simpl. by intros ->.
Qed.

(** A block put in front of the others takes position 0 and moves every
    other block one position up; the full names stay when the new block is
    closed before the next one starts. *)
Lemma insertion_shifts_every_suffix w m C arr :
  validType C → Forall validType arr →
  from_option (λ A, encloses C A = false) True (head arr) →
  ids (fileItem (applyBlocks openTestTag isFileOpen w m (C :: arr)).1) =
    item_id (fileItem w)
      :: makeId (uri (fileItem w)) (fullNameUnder [] C) 0
      :: numbered (uri (fileItem w)) 1 (fullNames [] arr).
Proof.
  intros HC Harr Hclosed.
  destruct (applyBlocks_ids w m (C :: arr)) as [_ ->]; [by constructor|].
  simpl. rewrite numbered_cons. do 2 f_equal.
  destruct arr as [|A arr]; [done|]. by rewrite fullNames_behind_closed.
Qed.

Lemma encloses_closeSuites A B :
  map name (reverse (closeSuites B (openAfter A []))) = namesAbove2 A B.
Proof.
  unfold namesAbove2, encloses, openAfter. simpl.
  destruct (bool_decide (type A = "describe")); [|done]. simpl.
  rewrite Z.ltb_antisym. by destruct (line (end_ A) <=? line (start B))%Z.
Qed.

Lemma encloses_closeSuites3 C A B :
  map name (reverse (closeSuites B (openAfter A (openAfter C [])))) = namesAbove3 C A B.
Proof.
  unfold namesAbove3, namesAbove2, encloses, openAfter. simpl.
  rewrite !Z.ltb_antisym.
  destruct (bool_decide (type C = "describe")),
    (bool_decide (type A = "describe")); simpl;
    destruct (line (end_ C) <=? line (start A))%Z; simpl;
    try destruct (line (end_ A) <=? line (start B))%Z; simpl;
    try destruct (line (end_ C) <=? line (start B))%Z; done.
Qed.

(** C3.  The ids of the tree of a file, the file first and then the blocks
    in their order: for the blocks [A, B] they end in [@0] and [@1]; with a
    block [C] put in front they end in [@1] and [@2] for [A] and [B]; each
    id is the uri of the file, a slash, the full name of the block (the
    names of the suites around it and its own), [@] and the position.  When
    [C] is not a suite around [A], the full names of [A] and [B] are what
    they were, so that only the position changes. *)
Theorem insertion_shifts_suffix w m A B C :
  validType A → validType B → validType C →
  let u := uri (fileItem w) in
  let tree arr := ids (fileItem (applyBlocks openTestTag isFileOpen w m arr).1) in
  tree [A; B] =
    [item_id (fileItem w);
     makeId u (fullNameUnder [] A) 0;
     makeId u (fullNameUnder (namesAbove2 A B) B) 1] ∧
  tree [C; A; B] =
    [item_id (fileItem w);
     makeId u (fullNameUnder [] C) 0;
     makeId u (fullNameUnder (namesAbove2 C A) A) 1;
     makeId u (fullNameUnder (namesAbove3 C A B) B) 2] ∧
  (encloses C A = false →
   tree [C; A; B] =
    [item_id (fileItem w);
     makeId u (fullNameUnder [] C) 0;
     makeId u (fullNameUnder [] A) 1;
     makeId u (fullNameUnder (namesAbove2 A B) B) 2]).
Proof.
  intros HA HB HC u tree.
  assert (tree [A; B] =
    [item_id (fileItem w);
     makeId u (fullNameUnder [] A) 0;
     makeId u (fullNameUnder (namesAbove2 A B) B) 1]) as H2.
  { unfold tree. destruct (applyBlocks_ids w m [A; B]) as [_ ->]; [by repeat first [apply Forall_nil_2|apply Forall_cons_2]|].
    unfold numbered. simpl. by rewrite encloses_closeSuites. }
  assert (tree [C; A; B] =
    [item_id (fileItem w);
     makeId u (fullNameUnder [] C) 0;
     makeId u (fullNameUnder (namesAbove2 C A) A) 1;
     makeId u (fullNameUnder (namesAbove3 C A B) B) 2]) as H3.
  { unfold tree. destruct (applyBlocks_ids w m [C; A; B]) as [_ ->]; [by repeat first [apply Forall_nil_2|apply Forall_cons_2]|].
    unfold numbered. simpl. by rewrite encloses_closeSuites, encloses_closeSuites3. }
  split; [done|]. split; [done|].
  intros Hclosed. rewrite H3. unfold namesAbove3, namesAbove2. by rewrite Hclosed.
Qed.


Lemma initialLoop_same w1 w2 m1 m2 :
  sameLoop (initialLoop w1 m1) (initialLoop w2 m2).
Proof. by repeat split. Qed.

Lemma filter_openTag_again (l : list TestTag) :
  filter (λ x, x ≠ openTestTag) (filter (λ x, x ≠ openTestTag) l ++ [openTestTag])
  = filter (λ x, x ≠ openTestTag) l.
Proof.
  rewrite filter_app, list_filter_filter_l by done.
  rewrite filter_cons, decide_False by (by intros []). by rewrite filter_nil, app_nil_r.
Qed.

Lemma newTags_again w w' :
  uri (fileItem w') = uri (fileItem w) →
  tags (fileItem w') = newTags openTestTag isFileOpen w →
  newTags openTestTag isFileOpen w' = newTags openTestTag isFileOpen w.
Proof.
  intros Hu Ht. unfold newTags at 1. rewrite Hu, Ht. unfold newTags.
  destruct (isFileOpen (uri (fileItem w))).
  - by rewrite filter_openTag_again.
  - by rewrite list_filter_filter_l.
Qed.

(** Building the same blocks again over the result of building them. *)
Lemma applyBlocks_again w m arr :
  let r := applyBlocks openTestTag isFileOpen w m arr in
  item_id (fileItem w) ∈ m →
  applyBlocks openTestTag isFileOpen r.1
    ({[ item_id (fileItem w) ]} ∪ default ∅ (testItemIdMap r.1)) arr = r.
Proof.
  intros r Hfid. subst r.
  set (u := uri (fileItem w)).
  destruct (loop u (initialLoop w m) arr) as [st|m1] eqn:Hloop.
  - pose proof (loop_item _ _ _ _ Hloop) as Hitem. simpl in Hitem.
    assert (applyBlocks openTestTag isFileOpen w m arr =
      ({| testItemIdMap := Some (idMap st);
          fileItem := retag (newTags openTestTag isFileOpen w)
                        (children_replace (anc_children (unwind (top st) (below st)))
                           (fileItem w));
          data := {| file_item := file_item (data w);
                     file_children := anc_dataChildren (unwind (top st) (below st)) |} |},
       Returned)) as ->.
    { unfold applyBlocks. fold u. by rewrite Hloop, Hitem. }
    set (w1 := {| testItemIdMap := Some (idMap st) |}).
    simpl fst. simpl (default _ _).
    pose proof (loop_same u arr (initialLoop w m)
                  (initialLoop w1 ({[ item_id (fileItem w) ]} ∪ idMap st))
                  (initialLoop_same _ _ _ _)) as Hsame.
    rewrite Hloop in Hsame.
    unfold applyBlocks. change (uri (fileItem w1)) with u.
    destruct (loop u (initialLoop w1 ({[ item_id (fileItem w) ]} ∪ idMap st)) arr)
      as [st2|] eqn:Hloop2; [|done].
    destruct Hsame as ((Htop & Hbelow & _ & _) & S & HS1 & HS2).
    pose proof (unwind_same _ _ _ _ Htop Hbelow) as (_ & Hcs & Hds & _).
    pose proof (loop_item _ _ _ _ Hloop2) as Hitem2.
    simpl in Hitem2, HS1, HS2.
    rewrite (newTags_again w w1) by done.
    rewrite <- Hcs, <- Hds, Hitem2. f_equal. subst w1. simpl.
    f_equal. f_equal. rewrite HS2, HS1. set_solver.
  - assert (applyBlocks openTestTag isFileOpen w m arr =
      ({| testItemIdMap := Some m1; fileItem := fileItem w; data := data w |},
       Thrown "unexpected block type")) as ->.
    { unfold applyBlocks. fold u. by rewrite Hloop. }
    simpl fst. simpl (default _ _).
    pose proof (loop_same u arr (initialLoop w m)
                  (initialLoop w ({[ item_id (fileItem w) ]} ∪ m1))
                  (initialLoop_same _ _ _ _)) as Hsame.
    rewrite Hloop in Hsame.
    unfold applyBlocks. simpl (uri _). fold u.
    change (initialLoop _ ({[ item_id (fileItem w) ]} ∪ m1))
      with (initialLoop w ({[ item_id (fileItem w) ]} ∪ m1)).
    destruct (loop u (initialLoop w ({[ item_id (fileItem w) ]} ∪ m1)) arr)
      as [|m2]; [done|].
    destruct Hsame as (S & HS1 & HS2). simpl in HS1, HS2.
    do 3 f_equal. rewrite HS2, HS1. set_solver.
Qed.

(** C4.  Discovering the same content a second time gives the same outcome
    and leaves the id index, the item of the file with its whole subtree
    (ids, labels, ranges, tags, order of children) and the data of the file
    as the first discovery left them. *)
Theorem discover_idempotent w content :
  let r := discoverTestFromFileContent parse openTestTag isFileOpen w content in
  discoverTestFromFileContent parse openTestTag isFileOpen r.1 content = r.
Proof.
  intros r. subst r.
  destruct (parse (item_id (fileItem w)) content) as [result|] eqn:Hparse.
  - set (m := {[ item_id (fileItem w) ]} ∪ default ∅ (testItemIdMap w)).
    set (arr := sortBlocks (describeBlocks result ++ itBlocks result)).
    assert (discoverTestFromFileContent parse openTestTag isFileOpen w content
            = applyBlocks openTestTag isFileOpen w m arr) as ->.
    { unfold discoverTestFromFileContent. by rewrite Hparse. }
    assert (item_id (fileItem (applyBlocks openTestTag isFileOpen w m arr).1)
            = item_id (fileItem w)) as Hid.
    { unfold applyBlocks. destruct (loop _ _ arr) as [st|] eqn:Hloop; [|done].
      simpl. by rewrite (loop_item _ _ _ _ Hloop). }
    unfold discoverTestFromFileContent. rewrite Hid, Hparse. fold arr.
    apply applyBlocks_again. set_solver.
  - unfold discoverTestFromFileContent. rewrite Hparse. simpl. rewrite Hparse.
    do 3 f_equal. set_solver.
Qed.

(** C5.  When the parser throws, discovery ends with the parse error and
    the item of the file, with its children, and the data of the file are
    what they were. *)
Theorem discover_parse_error_keeps_tree w content :
  parse (item_id (fileItem w)) content = None →
  let r := discoverTestFromFileContent parse openTestTag isFileOpen w content in
  r.2 = ParseError ∧ fileItem r.1 = fileItem w ∧ data r.1 = data w.
Proof. intros Hparse. unfold discoverTestFromFileContent. by rewrite Hparse. Qed.


End Operation.

Lemma insertion_shifts_suffix_witness :
  validType Samples.first_case ∧ validType Samples.second_case ∧
  validType Samples.setup_case ∧
  ids (fileItem (applyBlocks "open" (λ _, true) Samples.math_world ∅
                   [Samples.first_case; Samples.second_case]).1) =
    ["file:///w/math.test.ts";
     "file:///w/math.test.ts/adds@0";
     "file:///w/math.test.ts/subtracts@1"] ∧
  ids (fileItem (applyBlocks "open" (λ _, true) Samples.math_world ∅
                   [Samples.setup_case; Samples.first_case; Samples.second_case]).1) =
    ["file:///w/math.test.ts";
     "file:///w/math.test.ts/setup@0";
     "file:///w/math.test.ts/adds@1";
     "file:///w/math.test.ts/subtracts@2"].
Proof.
  assert (validType Samples.first_case) as HA by (right; reflexivity).
  assert (validType Samples.second_case) as HB by (right; reflexivity).
  assert (validType Samples.setup_case) as HC by (right; reflexivity).
  destruct (insertion_shifts_suffix "open" (λ _, true) Samples.math_world ∅
              Samples.first_case Samples.second_case Samples.setup_case HA HB HC)
    as (H2 & _ & H3).
  split_and!; [exact HA|exact HB|exact HC|exact H2|exact (H3 eq_refl)].
Defined.

Lemma discover_parse_error_keeps_tree_witness :
  let w := (discoverTestFromFileContent Samples.sample_parse "open" (λ _, true)
              Samples.math_world "math").1 in
  let r := discoverTestFromFileContent Samples.sample_parse "open" (λ _, true)
             w "describe(" in
  Samples.sample_parse (item_id (fileItem w)) "describe(" = None ∧
  length (children (fileItem w)) = 1 ∧
  r.2 = ParseError ∧ fileItem r.1 = fileItem w ∧ data r.1 = data w.
Proof.
  intros w r. split; [reflexivity|]. split; [reflexivity|].
  apply (discover_parse_error_keeps_tree Samples.sample_parse "open" (λ _, true)
           w "describe("). reflexivity.
Defined.

Example trim_examples :
  trim "  math adds " = "math adds" ∧ trim " " = "" ∧
  makeId "file:///w/math.test.ts" "math adds" 12 = "file:///w/math.test.ts/math adds@12".
Proof. by repeat split. Qed.

(** The file of the samples: a suite with two cases. *)
Example discover_math :
  let r := discoverTestFromFileContent Samples.sample_parse "open" (λ _, false)
             Samples.math_world "math" in
  r.2 = Returned ∧
  ids (fileItem r.1) =
    ["file:///w/math.test.ts";
     "file:///w/math.test.ts/math@0";
     "file:///w/math.test.ts/math adds@1";
     "file:///w/math.test.ts/math subtracts@2"] ∧
  map label (children (fileItem r.1)) = ["math"] ∧
  data r.1 =
    {| file_item := "file:///w/math.test.ts";
       file_children :=
         [TestDescribe "math" false "file:///w/math.test.ts/math@0"
            [TestCase "adds" false "file:///w/math.test.ts/math adds@1" 0;
             TestCase "subtracts" false "file:///w/math.test.ts/math subtracts@2" 1]] |}.
Proof. by repeat split. Qed.



End DiscoverFacts.

(** ** The matcher, the synchroniser and [runFiles] *)

Section WatchFacts.
Import Tree Watch.

Lemma Task_forall_ind (P : Task → Prop) :
  (∀ i ty n r ts, Forall P ts → P (mkTask i ty n r ts)) → ∀ t, P t.
Proof.
  intros H. fix IH 1. intros [i ty n r ts]. apply H.
  induction ts as [|c cs IHcs]; constructor; [apply IH|apply IHcs].
Qed.

Section Match.
Variable fuseSearch : list string → string → list nat.

(** The first exact candidate of the kind wins and leaves the set. *)
Lemma matchTask_exact taskName type l1 c l2 :
  isExact taskName type c →
  Forall (λ x, ¬ isExact taskName type x) l1 →
  matchTask fuseSearch taskName (l1 ++ c :: l2) type = (Some c, l1 ++ l2).
Proof.
  intros Hc Hl1. unfold matchTask.
  assert (list_find (isExact taskName type) (l1 ++ c :: l2) = Some (length l1, c)) as ->.
  { apply list_find_Some. split; [|split; [done|]].
    - by rewrite list_lookup_middle.
    - intros j y Hj Hlt. rewrite lookup_app_l in Hj by done.
      rewrite Forall_forall in Hl1. apply Hl1. by eapply list_elem_of_lookup_2. }
  by rewrite delete_middle.
Qed.

(** Without an exact candidate the answer is the top result of the search,
    and the set stays as it is. *)
Lemma matchTask_fuzzy taskName type candidates :
  Forall (λ x, ¬ isExact taskName type x) candidates →
  matchTask fuseSearch taskName candidates type =
    (head (fuseSearch (map pattern candidates) taskName) ≫= λ i, candidates !! i,
     candidates).
Proof.
  intros Hnone. unfold matchTask.
  apply (list_find_None (isExact taskName type)) in Hnone. by rewrite Hnone.
Qed.

Lemma matchTask_empty taskName type :
  matchTask fuseSearch taskName [] type = (None, []).
Proof. unfold matchTask, fuzzy. simpl. by destruct (head _). Qed.

(** C1.  Whatever the search would rank first: when the set holds a
    candidate of the kind of the task whose pattern is the name of the task,
    the first such candidate is the answer and leaves the set; when it holds
    none, the answer is the candidate the search ranks first, if any, and
    the set stays as it is, so that the next task meets the same
    candidates. *)
Theorem matchTask_exact_then_fuzzy taskName candidates type :
  (∀ l1 c l2, candidates = l1 ++ c :: l2 →
     isExact taskName type c →
     Forall (λ x, ¬ isExact taskName type x) l1 →
     matchTask fuseSearch taskName candidates type = (Some c, l1 ++ l2)) ∧
  (Forall (λ x, ¬ isExact taskName type x) candidates →
     matchTask fuseSearch taskName candidates type =
       (head (fuseSearch (map pattern candidates) taskName) ≫= λ i, candidates !! i,
        candidates)).
Proof.
  split.
  - intros l1 c l2 -> Hc Hl1. by apply matchTask_exact.
  - apply matchTask_fuzzy.
Qed.

(** C2.  For a test task whose match is [d], the one call on the run is
    fixed by the result of the task: none while the run goes on and
    [skipped] once it is finished when there is no result; [passed] with the
    duration for [pass]; [failed] with the message of the error, or the
    empty string, for [fail]; [skipped] for [skip] and [todo]; [started] for
    [run]; none for [only]. *)
Theorem syncTask_test_transition finished task set d set' :
  type task = test →
  matchTask fuseSearch (name task) set test = (Some d, set') →
  ∃ events,
    syncTask fuseSearch finished task set = (set', (events, Normal)) ∧
    (result task = None →
       events = if finished then [Skipped (item d)] else []) ∧
    (∀ r, result task = Some r →
       (Client.state r = "pass" → events = [Passed (item d) (Client.duration r)]) ∧
       (Client.state r = "fail" →
          events = [Failed (item d)
                      match Client.error r with
                      | Some e => default "" (Client.message e)
                      | None => ""
                      end]) ∧
       (Client.state r = "skip" ∨ Client.state r = "todo" →
          events = [Skipped (item d)]) ∧
       (Client.state r = "run" → events = [Started (item d)]) ∧
       (Client.state r = "only" → events = [])).
Proof.
  intros Htype Hmatch. destruct task as [i ty n res ts]; simpl in *. subst ty.
  rewrite Hmatch. unfold report.
  destruct res as [r|].
  - destruct r as [s dur err]; simpl.
    repeat case_bool_decide; subst; eexists; (split; [reflexivity|]);
      (split; [done|]); intros r' [= <-]; simpl;
      repeat split; try done; try (intros [?|?]; done).
    all: unfold errorMessage; simpl; by destruct err.
  - destruct finished; eexists; (split; [reflexivity|]); split; done.
Qed.

(** A task without a match ends the pass with a [TypeError] as soon as its
    treatment reads [data.item] or [data.children]: the tasks after it are
    not looked at. *)
Lemma sync_unmatched_aborts finished task rest set set' :
  matchTask fuseSearch (name task) set (type task) = (None, set') →
  type task = suite ∨
    (∃ r, result task = Some r ∧
       Client.state r ∈ ["pass"; "fail"; "skip"; "todo"; "run"]) ∨
    (result task = None ∧ finished = true) →
  ∃ p, sync fuseSearch finished set (task :: rest) = ([], TypeError p).
Proof.
  intros Hmatch Hneeds. unfold sync. simpl.
  destruct task as [i ty n res ts]; simpl in *. rewrite Hmatch.
  destruct Hneeds as [->|[(r & -> & Hs)|[-> ->]]]; simpl.
  - by eexists.
  - destruct ty; [by eexists|]. unfold report.
    repeat (apply elem_of_cons in Hs as [->|Hs]; [simpl; by eexists|]).
    by apply elem_of_nil in Hs.
  - destruct ty; by eexists.
Qed.

(** C7, on the code.  The static tree has a suite [math] without children
    and a case [b]; the runtime reports a test inside [math] and the test
    [b].  The test inside [math] has no candidate, reading [data.item]
    throws, and [b], which has an exact match, is never reported, whatever
    the search does. *)
Theorem sync_unmatched_task_throws finished :
  sync fuseSearch finished Samples.math_static Samples.math_runtime
  = ([], TypeError "item").
Proof.
  unfold sync, Samples.math_static, Samples.math_runtime. cbv.
  by destruct (fuseSearch [] "adds").
Qed.

End Match.

(** The first scenario of the specification: the suite [math] with the cases
    [adds] and [subtracts]; the run finishes with [adds] passed and
    [subtracts] failed. *)
Example sync_math_finished :
  let w := (Discover.discoverTestFromFileContent Samples.sample_parse "open"
              (λ _, false) Samples.math_world "math").1 in
  syncTestStatusToVsCode Samples.fuse_all (Some 0) (Discover.data w)
    {| filepath := "/w/math.test.ts";
       file_task :=
         mkTask "f1" suite "math.test.ts" None
           [mkTask "1" suite "math" None
              [mkTask "2" test "adds" (Some Samples.passed) [];
               mkTask "3" test "subtracts" (Some Samples.failed) []]] |}
    true
  = ([Passed "file:///w/math.test.ts/math adds@1" (Some 3%Z);
      Failed "file:///w/math.test.ts/math subtracts@2" "expected 1 to be 2"],
     Normal).
Proof. reflexivity. Qed.

Lemma matchTask_exact_then_fuzzy_witness :
  head (Samples.fuse_all (map pattern Samples.each_static) "adds") = Some 0 ∧
  matchTask Samples.fuse_all "adds" Samples.each_static test =
    (Samples.each_static !! 1, take 1 Samples.each_static) ∧
  matchTask Samples.fuse_all "adds 1" Samples.each_static test =
    (Samples.each_static !! 0, Samples.each_static) ∧
  matchTask Samples.fuse_all "adds 2" Samples.each_static test =
    (Samples.each_static !! 0, Samples.each_static).
Proof.
  split; [reflexivity|]. split_and!.
  - apply (proj1 (matchTask_exact_then_fuzzy Samples.fuse_all "adds"
                    Samples.each_static test)
             (take 1 Samples.each_static) _ [] eq_refl).
    + by split.
    + repeat constructor. by intros [_ ?].
  - apply (proj2 (matchTask_exact_then_fuzzy Samples.fuse_all "adds 1"
                    Samples.each_static test)).
    repeat constructor; by intros [_ ?].
  - apply (proj2 (matchTask_exact_then_fuzzy Samples.fuse_all "adds 2"
                    Samples.each_static test)).
    repeat constructor; by intros [_ ?].
Defined.

Lemma syncTask_test_transition_witness :
  type Samples.adds_task = test ∧
  matchTask Samples.fuse_all (name Samples.adds_task) Samples.each_static test =
    (Samples.each_static !! 1, take 1 Samples.each_static) ∧
  syncTask Samples.fuse_all true Samples.adds_task Samples.each_static =
    (take 1 Samples.each_static,
     ([Passed "file:///w/math.test.ts/adds@1" (Some 3%Z)], Normal)).
Proof.
  split; [reflexivity|]. split; [reflexivity|].
  destruct (syncTask_test_transition Samples.fuse_all true Samples.adds_task
              Samples.each_static _ _ eq_refl eq_refl)
    as (events & -> & _ & Hres).
  destruct (Hres Samples.passed eq_refl) as (-> & _); reflexivity.
Defined.

(** *** Running files again *)

Lemma started_all r t i : i ∈ items t → RunStarted r (item_id i) ∈ started r t.
Proof.
  revert i. induction t as [id l u rg ts cs IH] using TestItem_forall_ind.
  intros i. simpl. rewrite !elem_of_cons. intros [->|Hin]; [by left|right].
  apply list_elem_of_In, in_flat_map in Hin as (c & Hc & Hin).
  apply list_elem_of_In, in_flat_map. exists c. split; [done|].
  apply list_elem_of_In. rewrite Forall_forall in IH.
  apply IH; by apply list_elem_of_In.
Qed.

Lemma started_only r t e : e ∈ started r t → ∃ i, e = RunStarted r i.
Proof.
  induction t as [id l u rg ts cs IH] using TestItem_forall_ind.
  simpl. rewrite elem_of_cons. intros [->|Hin]; [eauto|].
  apply list_elem_of_In, in_flat_map in Hin as (c & Hc & Hin).
  rewrite Forall_forall in IH. apply (IH c); by apply list_elem_of_In.
Qed.

Lemma getTasks_self t : t ∈ getTasks t.
Proof. destruct t as [i [] n r ts]; simpl; by left. Qed.

Lemma deleteResults_clears f t : t ∈ getTasks (deleteResults f) → result t = None.
Proof.
  revert t. induction f as [i ty n r ts IH] using Task_forall_ind.
  intros t. destruct ty; simpl.
  - rewrite elem_of_cons. intros [->|Hin]; [done|].
    apply list_elem_of_In, in_flat_map in Hin as (c & Hc & Hin).
    apply in_map_iff in Hc as (c0 & <- & Hc0).
    rewrite Forall_forall in IH. eapply IH; apply list_elem_of_In; eauto.
  - rewrite list_elem_of_singleton. by intros ->.
Qed.

Section RunFiles.
Variable discoverTestFromPath : string → TestItem.

(** Without a client nothing happens, and no rerun is asked for. *)
Lemma runFiles_disconnected w files :
  vitestState w = false → runFiles discoverTestFromPath w files = (w, files, []).
Proof. intros H. unfold runFiles. by rewrite H. Qed.

(** C10.  With a client, the effects of [runFiles] end with the one rerun
    request, for the paths of the files.  Before it, every item of the tree
    of every file has been reported as started on the run of the watcher,
    and the result of every file and of every task below it has been
    deleted; the files the call leaves hold no result at all. *)
Theorem runFiles_clears_before_rerun w files :
  vitestState w = true →
  let '(w', files', effects) := runFiles discoverTestFromPath w files in
  ∃ r pre,
    run w' = Some r ∧
    effects = pre ++ [RpcRerun (map filepath files)] ∧
    (∀ paths, RpcRerun paths ∉ pre) ∧
    (∀ f i, f ∈ files → i ∈ items (discoverTestFromPath (filepath f)) →
       RunStarted r (item_id i) ∈ pre) ∧
    (∀ f t, f ∈ files → t ∈ getTasks (file_task f) → DeleteResult (id t) ∈ pre) ∧
    map filepath files' = map filepath files ∧
    (∀ f' t, f' ∈ files' → t ∈ getTasks (file_task f') → result t = None).
Proof.
  intros Hstate. unfold runFiles. rewrite Hstate. simpl.
  set (deletes := flat_map (λ f, DeleteResult (id (file_task f))
                      :: map (λ i, DeleteResult (id i)) (getTasks (file_task f))) files).
  assert (∀ r c (Hc : ∀ e, e ∈ c → ∃ n, e = CreateTestRun n),
    (∀ paths, RpcRerun paths ∉
       c ++ flat_map (λ f, started r (discoverTestFromPath (filepath f))) files ++ deletes) ∧
    (∀ f i, f ∈ files → i ∈ items (discoverTestFromPath (filepath f)) →
       RunStarted r (item_id i) ∈
       c ++ flat_map (λ f, started r (discoverTestFromPath (filepath f))) files ++ deletes) ∧
    (∀ f t, f ∈ files → t ∈ getTasks (file_task f) →
       DeleteResult (id t) ∈
       c ++ flat_map (λ f, started r (discoverTestFromPath (filepath f))) files ++ deletes))
    as Hpre.
  { intros r c Hc. split_and!.
    - intros paths. rewrite !elem_of_app. intros [Hin|[Hin|Hin]].
      + by destruct (Hc _ Hin).
      + apply list_elem_of_In, in_flat_map in Hin as (f & _ & Hin).
        by apply list_elem_of_In, started_only in Hin as [? ?].
      + apply list_elem_of_In, in_flat_map in Hin as (f & _ & Hin).
        destruct Hin as [?|Hin]; [done|].
        by apply in_map_iff in Hin as (? & ? & _).
    - intros f i Hf Hi. rewrite !elem_of_app. right; left.
      apply list_elem_of_In, in_flat_map. exists f.
      split; apply list_elem_of_In; [done|]. by apply started_all.
    - intros f t Hf Ht. rewrite !elem_of_app. right; right.
      apply list_elem_of_In, in_flat_map. exists f.
      split; [by apply list_elem_of_In|]. right.
      apply in_map_iff. exists t. split; [done|]. by apply list_elem_of_In. }
  assert (∀ f' t,
    f' ∈ map (λ f, {| filepath := filepath f;
                      file_task := deleteResults (file_task f) |}) files →
    t ∈ getTasks (file_task f') → result t = None) as Hcleared.
  { intros f' t Hf' Ht.
    apply list_elem_of_In, in_map_iff in Hf' as (f & <- & _).
    by apply deleteResults_clears in Ht. }
  destruct (run w) as [r|] eqn:Hrun; simpl.
  - exists r, ([] ++ flat_map (λ f, started r (discoverTestFromPath (filepath f))) files
                 ++ deletes).
    destruct (Hpre r []) as (? & ? & ?); [by intros ? ?%elem_of_nil|].
    split_and!; try done.
    + simpl. by rewrite app_assoc.
    + by rewrite map_map.
  - set (r := runsCreated w).
    exists r, ([CreateTestRun r]
                 ++ flat_map (λ f, started r (discoverTestFromPath (filepath f))) files
                 ++ deletes).
    destruct (Hpre r [CreateTestRun r]) as (? & ? & ?).
    { intros e ?%list_elem_of_singleton. eauto. }
    split_and!; try done.
    + simpl. by rewrite !app_assoc.
    + by rewrite map_map.
Qed.

End RunFiles.

Lemma runFiles_clears_before_rerun_witness :
  vitestState Samples.watcher_connected = true ∧
  runFiles (λ _, Samples.math_item) Samples.watcher_connected [Samples.math_file] =
    ({| vitestState := true; run := Some 0; runsCreated := 1 |},
     [{| filepath := "/w/math.test.ts";
         file_task :=
           mkTask "f1" suite "math.test.ts" None
             [mkTask "1" suite "math" None [mkTask "2" test "adds" None []]] |}],
     [CreateTestRun 0;
      RunStarted 0 "file:///w/math.test.ts";
      RunStarted 0 "file:///w/math.test.ts/math@0";
      RunStarted 0 "file:///w/math.test.ts/math adds@1";
      DeleteResult "f1"; DeleteResult "f1"; DeleteResult "1"; DeleteResult "2";
      RpcRerun ["/w/math.test.ts"]]) ∧
  ∃ r pre,
    run (runFiles (λ _, Samples.math_item) Samples.watcher_connected
           [Samples.math_file]).1.1 = Some r ∧
    (runFiles (λ _, Samples.math_item) Samples.watcher_connected
       [Samples.math_file]).2 = pre ++ [RpcRerun ["/w/math.test.ts"]] ∧
    DeleteResult "2" ∈ pre.
Proof.
  split; [reflexivity|]. split; [reflexivity|].
  pose proof (runFiles_clears_before_rerun (λ _, Samples.math_item)
                Samples.watcher_connected [Samples.math_file] eq_refl) as H.
  destruct (runFiles _ _ _) as [[w' files'] effects].
  destruct H as (r & pre & Hr & He & _ & _ & Hd & _).
  exists r, pre. split_and!; [exact Hr|exact He|].
  apply (Hd Samples.math_file (mkTask "2" test "adds" (Some Samples.failed) [])).
  - by left.
  - simpl. right; right; by left.
Defined.

End WatchFacts.

(** ** The scheduler in its three modes *)

Section WatcherModes.
Import Watcher.

Variable getProjectsByTestFile : string → list WorkspaceSpec.
Variable COLLECT_NAME_PATTERN : string.
Variable compiles : string → bool.

(** X1.  [scheduleRerun] never adds to the two sets of the context: what it
    leaves of the changed tests is a sub-sequence of what it found, in the
    same order, and likewise for the invalidated files. *)
Theorem scheduleRerun_never_adds st ctx fs :
  let ctx' := (scheduleRerun getProjectsByTestFile COLLECT_NAME_PATTERN compiles st ctx fs).1.2 in
  changedTests ctx' `sublist_of` changedTests ctx ∧
  invalidates ctx' `sublist_of` invalidates ctx.
Proof.
  unfold scheduleRerun.
  destruct (enabled st), (isTestFileTrigger ctx fs), (watchEveryFile st),
    (rejected compiles (namePatternOf st)); simpl;
    repeat match goal with
    | |- context [match ?l with [] => _ | _ :: _ => _ end] => destruct l
    end; simpl; split; try done; try apply sublist_nil_l; try apply sublist_filter.
Qed.

Lemma scheduleRerun_returns st ctx fs :
  (enabled st = true → rejected compiles (namePatternOf st) = None) →
  let effects := (scheduleRerun getProjectsByTestFile COLLECT_NAME_PATTERN compiles st ctx fs).2 in
  ∃ before args,
    effects = before ++ [OriginalScheduleRerun args] ∧
    (∀ a, OriginalScheduleRerun a ∉ before) ∧
    (∀ p, ThrowSyntaxError p ∉ before) ∧
    (if negb (enabled st) && isTestFileTrigger ctx fs
        && bool_decide (Exists (λ spec : WorkspaceSpec, browserEnabled spec.1 = true)
                          (flat_map getProjectsByTestFile (changedTests ctx)))
     then args = [] else args = fs).
Proof.
  intros Hok. unfold scheduleRerun.
  destruct (enabled st), (isTestFileTrigger ctx fs) eqn:Ht; simpl;
    try rewrite (Hok eq_refl).
  - destruct (watchEveryFile st); simpl.
    + exists [LogRerunAll fs (namePatternOf st)], fs. split_and!; [done| | |done].
      all: intros a; rewrite list_elem_of_singleton; done.
    + destruct (changedTests ctx) as [|c cs]; simpl.
      * exists [], fs. split_and!; [done| | |done]; intros a; apply not_elem_of_nil.
      * exists [LogRerun (c :: cs) (namePatternOf st)], fs. split_and!; [done| | |done].
        all: intros a; rewrite list_elem_of_singleton; done.
  - destruct (watchEveryFile st); simpl.
    + exists [LogRerunAll fs (namePatternOf st)], fs. split_and!; [done| | |done].
      all: intros a; rewrite list_elem_of_singleton; done.
    + destruct (filter _ (changedTests ctx)) as [|c cs]; simpl.
      * exists [], fs. split_and!; [done| | |done]; intros a; apply not_elem_of_nil.
      * exists [LogRerun (c :: cs) (namePatternOf st)], fs. split_and!; [done| | |done].
        all: intros a; rewrite list_elem_of_singleton; done.
  - destruct (filter _ (flat_map getProjectsByTestFile (changedTests ctx))) as [|s ss] eqn:Hf; simpl.
    + exists [LogCollecting fs], fs. split_and!; [done| | |].
      * intros a. rewrite list_elem_of_singleton. done.
      * intros a. rewrite list_elem_of_singleton. done.
      * case_bool_decide as Hex; [|done]. exfalso.
        apply Exists_exists in Hex as (x & Hx & Hb).
        match type of Hf with
        | ?F = _ => assert (x ∈ F) as Hin by (apply list_elem_of_filter; done)
        end.
        rewrite Hf in Hin. by apply not_elem_of_nil in Hin.
    + exists [LogCollecting fs; LogAstExplorer; AstCollect (s :: ss)], []. split_and!; [done| | |].
      * intros a Hin. repeat (apply elem_of_cons in Hin as [Hin|Hin]; [done|]).
        by apply not_elem_of_nil in Hin.
      * intros a Hin. repeat (apply elem_of_cons in Hin as [Hin|Hin]; [done|]).
        by apply not_elem_of_nil in Hin.
      * case_bool_decide as Hex; [done|]. exfalso. apply Hex.
        match type of Hf with
        | ?F = _ => assert (s ∈ F) as Hin by (rewrite Hf; apply list_elem_of_here)
        end.
        apply list_elem_of_filter in Hin as [Hb Hin].
        apply Exists_exists. by exists s.
  - exists [], fs. split_and!; [done| | |done]; intros a; apply not_elem_of_nil.
Qed.

(** X2.  A call of [scheduleRerun] either throws or ends in exactly one call
    of the original function.  It throws when continuous run is on and the
    tracked name pattern is not empty and does not compile: then the rerun
    is marked as triggered, the context is as it was, and the original
    function is not called.  On every other path the call of the original
    function is the last effect and the only such call.  It gets the files
    of the notification, except when a changed test file is collected
    through the AST explorer while continuous run is off: then it gets no
    file at all. *)
Theorem scheduleRerun_calls_original_once_or_throws st ctx fs :
  let r := scheduleRerun getProjectsByTestFile COLLECT_NAME_PATTERN compiles st ctx fs in
  match (if enabled st then rejected compiles (namePatternOf st) else None) with
  | Some pattern =>
      testNamePattern st = Some pattern ∧ pattern ≠ "" ∧ compiles pattern = false ∧
      r = (markRerun true st, ctx, [ThrowSyntaxError pattern])
  | None =>
      ∃ before args,
        r.2 = before ++ [OriginalScheduleRerun args] ∧
        (∀ a, OriginalScheduleRerun a ∉ before) ∧
        (∀ p, ThrowSyntaxError p ∉ before) ∧
        (if negb (enabled st) && isTestFileTrigger ctx fs
            && bool_decide (Exists (λ spec : WorkspaceSpec, browserEnabled spec.1 = true)
                              (flat_map getProjectsByTestFile (changedTests ctx)))
         then args = [] else args = fs)
  end.
Proof.
  intros r. subst r.
  pose proof (scheduleRerun_returns st ctx fs) as Hret. cbv zeta in Hret.
  destruct (enabled st) eqn:Hen; rewrite ?Hen in Hret.
  - destruct (rejected compiles (namePatternOf st)) as [pattern|] eqn:Hrej.
    + rewrite (scheduleRerun_rejected _ _ _ _ _ _ _ Hen Hrej).
      apply rejected_Some in Hrej as [[Hp Hne]%namePatternOf_Some Hc]. done.
    + apply Hret. done.
  - apply Hret. done.
Qed.

(** X3.  After [stopTracking], a change of a file that is not a changed test
    empties both sets and leaves the watcher as it is, whatever was tracked
    before; a change of a changed test file keeps both sets and overrides
    the name pattern with the one that only collects. *)
Theorem scheduleRerun_after_stopTracking st ctx fs :
  let r := scheduleRerun getProjectsByTestFile COLLECT_NAME_PATTERN compiles (stopTracking st) ctx fs in
  r.1.1 = stopTracking st ∧
  (isTestFileTrigger ctx fs = false →
     changedTests r.1.2 = [] ∧ invalidates r.1.2 = [] ∧
     configOverride_testNamePattern r.1.2 = configOverride_testNamePattern ctx ∧
     r.2 = [OriginalScheduleRerun fs]) ∧
  (isTestFileTrigger ctx fs = true →
     changedTests r.1.2 = changedTests ctx ∧ invalidates r.1.2 = invalidates ctx ∧
     configOverride_testNamePattern r.1.2 = Some COLLECT_NAME_PATTERN).
Proof.
  unfold scheduleRerun. simpl.
  destruct (isTestFileTrigger ctx fs); simpl.
  - destruct (filter _ _); simpl; split_and!; done.
  - split_and!; done.
Qed.

(** X4.  After [trackEveryFile], every notification reruns without filtering:
    the changed tests stay as they are, no name pattern is in force, and the
    rerun is marked as triggered. *)
Theorem scheduleRerun_after_trackEveryFile st ctx fs :
  let r := scheduleRerun getProjectsByTestFile COLLECT_NAME_PATTERN compiles (trackEveryFile st) ctx fs in
  rerunTriggered r.1.1 = true ∧
  changedTests r.1.2 = changedTests ctx ∧ invalidates r.1.2 = invalidates ctx ∧
  configOverride_testNamePattern r.1.2 = None ∧
  r.2 = [LogRerunAll fs None; OriginalScheduleRerun fs].
Proof. done. Qed.

(** X5.  After [trackTests files pattern], a change of a file that is not a
    changed test marks the rerun as triggered.  When [pattern] is absent,
    empty or compiles, the call leaves exactly the changed tests that
    [files] covers, and installs [pattern] as the name pattern unless it is
    empty.  When [pattern] is not empty and does not compile, the call
    throws: the context is as it was, nothing is filtered and the original
    function is not called. *)
Theorem scheduleRerun_after_trackTests st watched pattern ctx fs :
  let r := scheduleRerun getProjectsByTestFile COLLECT_NAME_PATTERN compiles
             (trackTests watched pattern st) ctx fs in
  isTestFileTrigger ctx fs = false →
  rerunTriggered r.1.1 = true ∧
  files r.1.1 = watched ∧
  match rejected compiles (if bool_decide (pattern = Some "") then None else pattern) with
  | Some p => r.1.2 = ctx ∧ r.2 = [ThrowSyntaxError p]
  | None =>
      (∀ f, f ∈ changedTests r.1.2 ↔ f ∈ changedTests ctx ∧ matchesWatched watched f) ∧
      configOverride_testNamePattern r.1.2 =
        (if bool_decide (pattern = Some "") then None else pattern) ∧
      (∃ before, r.2 = before ++ [OriginalScheduleRerun fs])
  end.
Proof.
  intros r Ht. subst r. unfold scheduleRerun. simpl. rewrite Ht. simpl.
  assert (namePatternOf (trackTests watched pattern st)
          = if bool_decide (pattern = Some "") then None else pattern) as ->.
  { unfold namePatternOf. simpl. destruct pattern as [p|]; [|done].
    repeat case_bool_decide; congruence. }
  destruct (rejected compiles _) as [p|]; simpl; [done|].
  split_and!; [done|done| |done|].
  - intros f. rewrite list_elem_of_filter.
    rewrite (isTestFileWatched_spec (trackTests watched pattern st) f). simpl. tauto.
  - destruct (filter _ _); [by exists []|by eexists [_]].
Qed.

End WatcherModes.

Lemma scheduleRerun_after_trackTests_witness :
  let ctx := Samples.ctx_changed ["/w/a.test.ts"; "/w/b.test.ts"] in
  let r := Watcher.scheduleRerun Samples.no_projects "" Samples.compiles
             (Watcher.trackTests ["/w/a.test.ts"] (Some "adds") Samples.watcher_idle)
             ctx ["/w/src.ts"] in
  Watcher.isTestFileTrigger ctx ["/w/src.ts"] = false ∧
  Watcher.changedTests r.1.2 = ["/w/a.test.ts"] ∧
  (Watcher.rerunTriggered r.1.1 = true ∧
   Watcher.files r.1.1 = ["/w/a.test.ts"] ∧
   match Watcher.rejected Samples.compiles
           (if bool_decide (Some "adds" = Some "") then None else Some "adds") with
   | Some p => r.1.2 = ctx ∧ r.2 = [Watcher.ThrowSyntaxError p]
   | None =>
       (∀ f, f ∈ Watcher.changedTests r.1.2 ↔
             f ∈ Watcher.changedTests ctx ∧ Watcher.matchesWatched ["/w/a.test.ts"] f) ∧
       Watcher.configOverride_testNamePattern r.1.2 =
         (if bool_decide (Some "adds" = Some "") then None else Some "adds") ∧
       (∃ before, r.2 = before ++ [Watcher.OriginalScheduleRerun ["/w/src.ts"]])
   end).
Proof.
  split; [reflexivity|]. split; [reflexivity|].
  apply (scheduleRerun_after_trackTests Samples.no_projects "" Samples.compiles
           Samples.watcher_idle ["/w/a.test.ts"] (Some "adds")
           (Samples.ctx_changed ["/w/a.test.ts"; "/w/b.test.ts"]) ["/w/src.ts"]).
  reflexivity.
Defined.

(** A pattern with a group that is left open: the call marks the rerun and
    throws; both changed tests are still there, the unwatched one too, and
    no name pattern is installed. *)
Example scheduleRerun_open_group :
  let ctx := Samples.ctx_changed ["/w/a.test.ts"; "/w/b.test.ts"] in
  Watcher.scheduleRerun Samples.no_projects "" Samples.compiles
    Samples.watcher_tracking_open_group ctx ["/w/src.ts"]
  = (Watcher.markRerun true Samples.watcher_tracking_open_group, ctx,
     [Watcher.ThrowSyntaxError "adds ("]).
Proof. reflexivity. Qed.

(** ** Collecting files *)

Section CollectFacts.
Import Client Collect.

Lemma updateId_frame fuel : ∀ l sm,
  heap (updateId fuel l sm) = heap sm ∧
  filesMap (updateId fuel l sm) = filesMap sm ∧
  errorsSet (updateId fuel l sm) = errorsSet sm ∧
  dom (idMap sm) ⊆ dom (idMap (updateId fuel l sm)).
Proof.
  induction fuel as [|fuel IH]; intros l sm; simpl; [done|].
  destruct (heap sm !! l) as [task|]; [|done].
  case_bool_decide; [done|].
  set (sm' := with_idMap _ sm).
  assert (heap sm' = heap sm ∧ filesMap sm' = filesMap sm ∧
          errorsSet sm' = errorsSet sm ∧ dom (idMap sm) ⊆ dom (idMap sm')) as Hsm'.
  { subst sm'. simpl. split_and!; try done. set_solver. }
  case_bool_decide; [|done].
  generalize dependent sm'. induction (tasks task) as [|c cs IHcs]; intros sm' Hsm'; simpl; [done|].
  apply IHcs. destruct (IH c sm') as (-> & -> & -> & Hd).
  destruct Hsm' as (? & ? & ? & ?). split_and!; try done. set_solver.
Qed.

Lemma foldl_updateId_heap fuel cs : ∀ sm,
  heap (foldl (λ s child, updateId fuel child s) sm cs) = heap sm.
Proof.
  induction cs as [|c cs IH]; intros sm; simpl; [done|].
  rewrite IH. apply updateId_frame.
Qed.

Lemma within_mono h n : ∀ l m, within h n l → n ≤ m → within h m l.
Proof.
  induction n as [|n IH]; intros l m Hw Hle; [done|].
  destruct m as [|m]; [lia|]. destruct Hw as (task & Hl & Hcs).
  exists task. split; [done|]. intros Hs. specialize (Hcs Hs).
  eapply Forall_impl; [done|]. intros c Hc. apply IH; [done|lia].
Qed.

(** The bound of the recursion does not matter once it reaches the depth of
    the task. *)
Lemma updateId_fuel n : ∀ fuel l sm,
  within (heap sm) n l → n ≤ fuel → updateId fuel l sm = updateId n l sm.
Proof.
  induction n as [|n IH]; intros fuel l sm Hw Hle; [done|].
  destruct fuel as [|fuel]; [lia|]. destruct Hw as (task & Hl & Hcs). simpl.
  rewrite Hl. case_bool_decide; [done|]. case_bool_decide as Hs; [|done].
  specialize (Hcs Hs).
  set (sm' := with_idMap _ sm). assert (heap sm' = heap sm) as Hh by done.
  clearbody sm'. revert sm' Hh.
  induction Hcs as [|c cs Hc Hcs IHcs]; intros sm' Hh; simpl; [done|].
  rewrite (IH fuel c sm'); [|by rewrite Hh|lia].
  apply IHcs. rewrite <- Hh. apply updateId_frame.
Qed.

Lemma subtree_fuel h n : ∀ fuel l,
  within h n l → n ≤ fuel → subtree h fuel l = subtree h n l.
Proof.
  induction n as [|n IH]; intros fuel l Hw Hle; [done|].
  destruct fuel as [|fuel]; [lia|]. destruct Hw as (task & Hl & Hcs). simpl.
  rewrite Hl. f_equal. case_bool_decide as Hs; [|done]. specialize (Hcs Hs).
  induction Hcs as [|c cs Hc Hcs IHcs]; simpl; [done|].
  rewrite IHcs. f_equal. apply IH; [done|lia].
Qed.

Lemma register_lookup h ls : ∀ m k v,
  foldl (register h) m ls !! k = Some v → m !! k = Some v ∨ v ∈ ls.
Proof.
  induction ls as [|l ls IH]; intros m k v Hk; simpl in *; [by left|].
  apply IH in Hk as [Hk|Hk]; [|right; by apply list_elem_of_further].
  unfold register in Hk. destruct (h !! l) as [task|]; [|by left].
  destruct (decide (id task = k)) as [<-|Hne].
  - rewrite lookup_insert_eq in Hk. right. injection Hk as <-. apply list_elem_of_here.
  - rewrite lookup_insert_ne in Hk by done. by left.
Qed.

(** On tasks none of which is registered under its id yet, and none of which
    is reached twice, [updateId] registers the task and the tasks below it
    one after the other, parents first. *)
Lemma updateId_fresh n : ∀ l sm,
  within (heap sm) n l →
  NoDup (subtree (heap sm) n l) →
  fresh sm (subtree (heap sm) n l) →
  idMap (updateId n l sm) = foldl (register (heap sm)) (idMap sm) (subtree (heap sm) n l).
Proof.
  induction n as [|n IH]; intros l sm Hw Hnd Hf; [done|].
  destruct Hw as (task & Hl & Hcs). simpl in *. rewrite Hl in *.
  rewrite bool_decide_eq_false_2 by (apply (Hf l task); [apply list_elem_of_here|done]).
  change (foldl ?f ?a (?x :: ?xs)) with (foldl f (f a x) xs).
  unfold register at 2. rewrite Hl.
  apply NoDup_cons in Hnd as [Hl' Hnd].
  case_bool_decide as Hs; [|done]. specialize (Hcs Hs).
  set (sm' := with_idMap _ sm).
  assert (heap sm' = heap sm) as Hh by done.
  assert (idMap sm' = <[id task := l]> (idMap sm)) as Hm by done.
  assert (∀ c t, c ∈ flat_map (subtree (heap sm) n) (tasks task) →
            heap sm !! c = Some t → idMap sm' !! id t ≠ Some c) as Hf'.
  { intros c t Hc Ht. rewrite Hm. destruct (decide (id task = id t)) as [He|Hne].
    - rewrite He, lookup_insert_eq. intros [= ->]. done.
    - rewrite lookup_insert_ne by done. apply (Hf c t); [|done].
      by apply list_elem_of_further. }
  rewrite <- Hm. clearbody sm'. clear Hm Hl' Hf.
  revert sm' Hh Hf'. induction Hcs as [|c cs Hc Hcs IHcs]; intros sm' Hh Hf'; simpl in *; [done|].
  apply NoDup_app in Hnd as (Hnd1 & Hdis & Hnd2).
  rewrite foldl_app.
  destruct (updateId_frame n c sm') as (Hh' & _).
  assert (idMap (updateId n c sm') =
          foldl (register (heap sm)) (idMap sm') (subtree (heap sm) n c)) as Hc'.
  { rewrite IH, Hh; [done|by rewrite Hh|by rewrite Hh|].
    intros c'' t'' Hc'' Ht''. rewrite Hh in *. apply Hf'; [|done].
    apply elem_of_app. by left. }
  rewrite IHcs; [by rewrite Hc'|done|congruence|].
  intros c' t Hin Ht. rewrite Hc'. intros Hk.
  apply register_lookup in Hk as [Hk|Hk].
  - revert Hk. apply Hf'; [|done]. apply elem_of_app. by right.
  - by eapply Hdis.
Qed.

Lemma register_snoc h m ls l :
  foldl (register h) m (ls ++ [l]) = register h (foldl (register h) m ls) l.
Proof. by rewrite foldl_app. Qed.

Lemma register_lookup_in h m ls : ∀ l task,
  l ∈ ls → h !! l = Some task →
  ∃ l' task', foldl (register h) m ls !! id task = Some l' ∧
    l' ∈ ls ∧ h !! l' = Some task' ∧ id task' = id task.
Proof.
  induction ls as [|x ls IH] using rev_ind; intros l task Hl Ht;
    [by apply not_elem_of_nil in Hl|].
  rewrite register_snoc. unfold register at 1.
  destruct (h !! x) as [tx|] eqn:Hx.
  - destruct (decide (id tx = id task)) as [He|Hne].
    + exists x, tx. rewrite He, lookup_insert_eq. split_and!; try done.
      apply elem_of_app. right. apply list_elem_of_here.
    + rewrite lookup_insert_ne by done.
      apply elem_of_app in Hl as [Hl|Hl].
      * destruct (IH l task Hl Ht) as (l' & task' & ? & ? & ? & ?).
        exists l', task'. split_and!; try done. apply elem_of_app. by left.
      * apply list_elem_of_singleton in Hl as ->. congruence.
  - apply elem_of_app in Hl as [Hl|Hl].
    + destruct (IH l task Hl Ht) as (l' & task' & ? & ? & ? & ?).
      exists l', task'. split_and!; try done. apply elem_of_app. by left.
    + apply list_elem_of_singleton in Hl as ->. congruence.
Qed.

Lemma register_lookup_out h m ls k :
  (∀ l task, l ∈ ls → h !! l = Some task → id task ≠ k) →
  foldl (register h) m ls !! k = m !! k.
Proof.
  induction ls as [|x ls IH] using rev_ind; intros Hk; [done|].
  rewrite register_snoc. unfold register at 1.
  assert (foldl (register h) m ls !! k = m !! k) as Hrec.
  { apply IH. intros l task Hl. apply Hk, elem_of_app. by left. }
  destruct (h !! x) as [tx|] eqn:Hx; [|done].
  rewrite lookup_insert_ne; [done|].
  apply (Hk x tx); [|done]. apply elem_of_app. right. apply list_elem_of_here.
Qed.

Lemma register_lookup_last h m ls : ∀ l task,
  l ∈ ls → h !! l = Some task →
  (∀ l' task', l' ∈ ls → h !! l' = Some task' → id task' = id task → l' = l) →
  foldl (register h) m ls !! id task = Some l.
Proof.
  intros l task Hl Ht Huniq.
  destruct (register_lookup_in h m ls l task Hl Ht) as (l' & task' & Hk & Hl' & Ht' & Hid).
  by rewrite Hk, (Huniq l' task' Hl' Ht' Hid).
Qed.

(** X6.  Collecting a task that arrives with fresh objects.  Whatever the
    bound of the recursion, once it reaches the depth of the task:
    [updateId] changes nothing but the id index; every task at or below the
    collected one is then registered, under its id, to a task of that
    subtree with that id (to itself when no other task of the subtree shares
    its id), and ids that do not occur in the subtree keep their entry. *)
Theorem updateId_registers_subtree n fuel l sm :
  within (heap sm) n l → n ≤ fuel →
  NoDup (subtree (heap sm) n l) →
  fresh sm (subtree (heap sm) n l) →
  let sm' := updateId fuel l sm in
  let sub := subtree (heap sm) n l in
  (heap sm' = heap sm ∧ filesMap sm' = filesMap sm ∧ errorsSet sm' = errorsSet sm) ∧
  idMap sm' = foldl (register (heap sm)) (idMap sm) sub ∧
  l ∈ sub ∧
  (∀ l1 task1, l1 ∈ sub → heap sm !! l1 = Some task1 →
     ∃ l2 task2, idMap sm' !! id task1 = Some l2 ∧ l2 ∈ sub ∧
       heap sm !! l2 = Some task2 ∧ id task2 = id task1) ∧
  (∀ l1 task1, l1 ∈ sub → heap sm !! l1 = Some task1 →
     (∀ l2 task2, l2 ∈ sub → heap sm !! l2 = Some task2 → id task2 = id task1 → l2 = l1) →
     idMap sm' !! id task1 = Some l1) ∧
  (∀ k, (∀ l1 task1, l1 ∈ sub → heap sm !! l1 = Some task1 → id task1 ≠ k) →
     idMap sm' !! k = idMap sm !! k).
Proof.
  intros Hw Hle Hnd Hf sm' sub. subst sm'.
  rewrite (updateId_fuel n fuel l sm Hw Hle).
  pose proof (updateId_fresh n l sm Hw Hnd Hf) as Hm. fold sub in Hm.
  destruct (updateId_frame n l sm) as (Hh & Hfm & He & _).
  split_and!; try done.
  - subst sub. destruct n as [|n]; [done|]. destruct Hw as (task & Hl & _).
    simpl. rewrite Hl. apply list_elem_of_here.
  - intros l1 task1 Hl1 Ht1. rewrite Hm. by apply register_lookup_in with l1.
  - intros l1 task1 Hl1 Ht1 Hu. rewrite Hm. by apply register_lookup_last.
  - intros k Hk. rewrite Hm. by apply register_lookup_out.
Qed.

(** X7.  A result that arrives before its task was collected is dropped, and
    is applied once the task has been collected.  With an id that the index
    does not know, [updateTasks] changes nothing; after [updateId] of fresh
    objects among which a task carries that id, the same batch replaces the
    result of a task with that id. *)
Theorem update_applies_after_collect n fuel l sm i r l1 task1 :
  within (heap sm) n l → n ≤ fuel →
  NoDup (subtree (heap sm) n l) →
  fresh sm (subtree (heap sm) n l) →
  idMap sm !! i = None →
  l1 ∈ subtree (heap sm) n l → heap sm !! l1 = Some task1 → id task1 = i →
  updateTasks [(i, r)] sm = sm ∧
  ∃ l2 task2, l2 ∈ subtree (heap sm) n l ∧ heap sm !! l2 = Some task2 ∧ id task2 = i ∧
    updateTasks [(i, r)] (updateId fuel l sm) =
      with_heap (<[l2 := set_result r task2]> (heap sm)) (updateId fuel l sm).
Proof.
  intros Hw Hle Hnd Hf Hi Hl1 Ht1 Hid. split.
  - simpl. by apply updateTask_unknown.
  - destruct (updateId_frame fuel l sm) as (Hh & _).
    pose proof (updateId_fresh n l sm Hw Hnd Hf) as Hm.
    rewrite <- (updateId_fuel n fuel l sm Hw Hle) in Hm.
    destruct (register_lookup_in (heap sm) (idMap sm) _ l1 task1 Hl1 Ht1)
      as (l2 & task2 & Hk & Hl2 & Ht2 & Hid2).
    rewrite <- Hm in Hk.
    exists l2, task2. split_and!; [done|done|congruence|].
    simpl. rewrite <- Hh. apply updateTask_known; simpl; [by rewrite <- Hid|].
    by rewrite Hh.
Qed.

Lemma collectFiles_snoc fuel files file sm :
  collectFiles fuel (files ++ [file]) sm =
  updateId fuel file.2
    (with_filesMap (<[file.1 := file.2]> (filesMap (collectFiles fuel files sm)))
       (collectFiles fuel files sm)).
Proof. unfold collectFiles. by rewrite foldl_app. Qed.

(** X8.  [collectFiles] files every file under its path, a later file of the
    batch replacing an earlier one with the same path; paths that are not in
    the batch keep their entry.  No task object is touched, no error is
    recorded or dropped, and no id that was registered becomes unknown. *)
Theorem collectFiles_files_by_path fuel files sm :
  let sm' := collectFiles fuel files sm in
  (∀ p, getFiles [p] sm' =
        [match last (filter (λ file : File, file.1 = p) files) with
         | Some file => Some file.2
         | None => filesMap sm !! p
         end]) ∧
  heap sm' = heap sm ∧ errorsSet sm' = errorsSet sm ∧
  dom (idMap sm) ⊆ dom (idMap sm').
Proof.
  unfold getFiles. induction files as [|file files IH] using rev_ind; simpl; [done|].
  rewrite collectFiles_snoc.
  set (sm1 := collectFiles fuel files sm) in *.
  destruct IH as (Hp & Hh & He & Hd).
  destruct (updateId_frame fuel file.2
              (with_filesMap (<[file.1 := file.2]> (filesMap sm1)) sm1))
    as (Hh' & Hf' & He' & Hd').
  simpl in *. split_and!; [|congruence|congruence|set_solver].
  intros p. f_equal. specialize (Hp p). injection Hp as Hp.
  rewrite Hf', filter_app, filter_cons, filter_nil. case_decide as Hfp.
  - rewrite last_snoc, Hfp, lookup_insert_eq. done.
  - rewrite app_nil_r, lookup_insert_ne by done. apply Hp.
Qed.

End CollectFacts.

Lemma uncollected_ready :
  Collect.within (Client.heap MoreSamples.uncollected) 2 0 ∧
  NoDup (Collect.subtree (Client.heap MoreSamples.uncollected) 2 0) ∧
  Collect.fresh MoreSamples.uncollected (Collect.subtree (Client.heap MoreSamples.uncollected) 2 0).
Proof.
  split_and!.
  - simpl. eexists. split; [reflexivity|]. intros _. simpl.
    repeat constructor. eexists. split; [reflexivity|]. intros H. discriminate H.
  - change (NoDup [0; 1]). apply NoDup_cons. split.
    + intros H. apply list_elem_of_singleton in H. discriminate H.
    + apply NoDup_singleton.
  - intros l task _ _. simpl. rewrite lookup_empty. discriminate.
Defined.

Lemma updateId_registers_subtree_witness :
  let sm' := Collect.updateId 5 0 MoreSamples.uncollected in
  Collect.within (Client.heap MoreSamples.uncollected) 2 0 ∧
  NoDup (Collect.subtree (Client.heap MoreSamples.uncollected) 2 0) ∧
  Collect.fresh MoreSamples.uncollected (Collect.subtree (Client.heap MoreSamples.uncollected) 2 0) ∧
  Client.heap sm' = Client.heap MoreSamples.uncollected ∧
  Client.idMap sm' =
    foldl (Collect.register (Client.heap MoreSamples.uncollected)) ∅ [0; 1].
Proof.
  destruct uncollected_ready as (Hw & Hnd & Hf).
  split; [exact Hw|]. split; [exact Hnd|]. split; [exact Hf|].
  destruct (updateId_registers_subtree 2 5 0 MoreSamples.uncollected Hw
              (le_S _ _ (le_S _ _ (le_S _ _ (le_n 2)))) Hnd Hf)
    as ((Hh & _) & Hm & _).
  split; [exact Hh|exact Hm].
Defined.

Lemma update_applies_after_collect_witness :
  Collect.within (Client.heap MoreSamples.uncollected) 2 0 ∧
  Client.idMap MoreSamples.uncollected !! "t1" = None ∧
  1 ∈ Collect.subtree (Client.heap MoreSamples.uncollected) 2 0 ∧
  Client.updateTasks [("t1", Some Samples.passed)] MoreSamples.uncollected
    = MoreSamples.uncollected ∧
  ∃ l2 task2,
    l2 ∈ Collect.subtree (Client.heap MoreSamples.uncollected) 2 0 ∧
    Client.heap MoreSamples.uncollected !! l2 = Some task2 ∧ Client.id task2 = "t1" ∧
    Client.updateTasks [("t1", Some Samples.passed)]
      (Collect.updateId 5 0 MoreSamples.uncollected) =
    Client.with_heap
      (<[l2 := Client.set_result (Some Samples.passed) task2]>
         (Client.heap MoreSamples.uncollected))
      (Collect.updateId 5 0 MoreSamples.uncollected).
Proof.
  destruct uncollected_ready as (Hw & Hnd & Hf).
  assert (1 ∈ Collect.subtree (Client.heap MoreSamples.uncollected) 2 0) as Hin.
  { change (1 ∈ [0; 1]). apply list_elem_of_further, list_elem_of_here. }
  split; [exact Hw|]. split; [reflexivity|]. split; [exact Hin|].
  exact (update_applies_after_collect 2 5 0 MoreSamples.uncollected "t1"
           (Some Samples.passed) 1
           {| Client.id := "t1"; Client.type := "test"; Client.name := "adds";
              Client.tasks := []; Client.result := Some Samples.failed |}
           Hw (le_S _ _ (le_S _ _ (le_S _ _ (le_n 2)))) Hnd Hf
           eq_refl Hin eq_refl eq_refl).
Defined.

(** ** The counters of the status bar *)

Section StatusFacts.
Import Tree Watch Status.

Lemma count_foldl l : ∀ st,
  let st' := foldl count st l in
  passed st' = passed st + tests (hasState "pass") l ∧
  failed st' = failed st + tests (hasState "fail") l ∧
  skipped st' = skipped st + tests noResult l.
Proof.
  induction l as [|task l IH]; intros st; simpl; [unfold tests; simpl; lia|].
  destruct (IH (count st task)) as (Hp & Hf & Hs). rewrite Hp, Hf, Hs.
  unfold tests, count, isTest, hasState, noResult. simpl.
  destruct (Client.result task) as [r|];
    repeat (case_bool_decide; simpl); try congruence; try lia.
Qed.

Lemma tests_partition l :
  tests (hasState "pass") l + tests (hasState "fail") l + tests noResult l
  + tests (λ task, negb (noResult task) && negb (hasState "pass" task)
                   && negb (hasState "fail" task)) l
  = tests (λ _, true) l.
Proof.
  unfold tests. induction l as [|task l IH]; simpl; [done|].
  unfold isTest, hasState, noResult in *.
  destruct (Client.result task) as [r|];
    repeat (case_bool_decide; simpl); try congruence; try lia.
Qed.

(** X9.  With a client, [updateStatus] counts among the registered tasks the
    tests that passed, the tests that failed, and as skipped the tests
    without a result.  A test with a result in any other state, ["skip"] and
    ["todo"] among them, is counted nowhere: the three counters add up to
    the number of tests less those. *)
Theorem updateStatus_counts w sm old :
  vitestState w = true →
  let s := updateStatus w sm old in
  passed s = tests (hasState "pass") (values sm) ∧
  failed s = tests (hasState "fail") (values sm) ∧
  skipped s = tests noResult (values sm) ∧
  passed s + failed s + skipped s
  + tests (λ task, negb (noResult task) && negb (hasState "pass" task)
                   && negb (hasState "fail" task)) (values sm)
  = tests (λ _, true) (values sm).
Proof.
  intros Hv s. subst s. unfold updateStatus. rewrite Hv. simpl.
  destruct (count_foldl (values sm) {| passed := 0; failed := 0; skipped := 0 |})
    as (Hp & Hf & Hs). simpl in *.
  rewrite Hp, Hf, Hs. split_and!; try done. apply tests_partition.
Qed.

End StatusFacts.

Lemma updateStatus_counts_witness :
  let s := Status.updateStatus Samples.watcher_connected Samples.manager
             (Status.testStatus MoreSamples.idle) in
  Watch.vitestState Samples.watcher_connected = true ∧
  Status.tests (Status.hasState "fail") (Status.values Samples.manager) = 1 ∧
  Status.passed s = Status.tests (Status.hasState "pass") (Status.values Samples.manager) ∧
  Status.failed s = Status.tests (Status.hasState "fail") (Status.values Samples.manager) ∧
  Status.skipped s = Status.tests Status.noResult (Status.values Samples.manager).
Proof.
  split; [reflexivity|]. split; [vm_compute; reflexivity|].
  destruct (updateStatus_counts Samples.watcher_connected Samples.manager
              (Status.testStatus MoreSamples.idle) eq_refl) as (Hp & Hf & Hs & _).
  split; [exact Hp|]. split; [exact Hf|exact Hs].
Defined.

(** ** What a synchronisation reports *)

Section ReportFacts.
Import Tree Watch Reports.

Variable fuseSearch : list string → string → list nat.

Lemma matchTask_answers_from_candidates_aux taskName candidates type :
  (∀ d, (matchTask fuseSearch taskName candidates type).1 = Some d → d ∈ candidates) ∧
  (matchTask fuseSearch taskName candidates type).2 ⊆ candidates.
Proof.
  unfold matchTask.
  destruct (list_find (isExact taskName type) candidates) as [[i ans]|] eqn:Hfind; simpl.
  - apply list_find_Some in Hfind as (Hi & _ & _). split.
    + intros d [= <-]. by eapply list_elem_of_lookup_2.
    + apply sublist_subseteq, sublist_delete.
  - split; [|done]. intros d Hd. unfold fuzzy in Hd.
    destruct (head (fuseSearch (map pattern candidates) taskName)) as [i|]; [|done].
    simpl in Hd. by eapply list_elem_of_lookup_2.
Qed.

(** X10.  The answer of [matchTask] is one of the candidates, also when it
    comes from the search; the call takes at most one candidate out of the
    set, the answer, and keeps the others in their order. *)
Theorem matchTask_answers_from_candidates taskName candidates type :
  let r := matchTask fuseSearch taskName candidates type in
  (∀ d, r.1 = Some d → d ∈ candidates) ∧
  r.2 `sublist_of` candidates ∧
  (r.2 = candidates ∨
   ∃ l1 d l2, candidates = l1 ++ d :: l2 ∧ r = (Some d, l1 ++ l2)).
Proof.
  unfold matchTask.
  destruct (list_find (isExact taskName type) candidates) as [[i ans]|] eqn:Hfind; simpl.
  - apply list_find_Some in Hfind as (Hi & _ & _).
    split_and!.
    + intros d [= <-]. by eapply list_elem_of_lookup_2.
    + apply sublist_delete.
    + right. exists (take i candidates), ans, (drop (S i) candidates).
      split; [by rewrite take_drop_middle|].
      f_equal. apply delete_take_drop.
  - split_and!; [|done|by left].
    intros d Hd. unfold fuzzy in Hd.
    destruct (head (fuseSearch (map pattern candidates) taskName)) as [i|]; [|done].
    simpl in Hd. by eapply list_elem_of_lookup_2.
Qed.

Lemma nodes_self d : d ∈ nodes d.
Proof. destruct d; apply list_elem_of_here. Qed.

Lemma nodes_children d cs :
  data_children d = Some cs → flat_map nodes cs ⊆ nodes d.
Proof.
  destruct d; simpl; intros [= <-]. intros x Hx. by apply list_elem_of_further.
Qed.

Lemma flat_nodes_subseteq (l1 l2 : list TestData) :
  l1 ⊆ l2 → flat_map nodes l1 ⊆ flat_map nodes l2.
Proof.
  intros Hsub x Hx. apply list_elem_of_In, in_flat_map in Hx as (d & Hd & Hx).
  apply list_elem_of_In, in_flat_map. exists d. split; [|done].
  apply list_elem_of_In, Hsub, list_elem_of_In, Hd.
Qed.

Lemma flat_nodes_elem d (l : list TestData) :
  d ∈ l → nodes d ⊆ flat_map nodes l.
Proof.
  intros Hd x Hx. apply list_elem_of_In, in_flat_map. exists d.
  split; by apply list_elem_of_In.
Qed.

Lemma reportsWithin_mono l1 l2 events :
  flat_map nodes l1 ⊆ flat_map nodes l2 →
  reportsWithin l1 events → reportsWithin l2 events.
Proof.
  intros Hsub Hr e i He Hi. destruct (Hr e i He Hi) as (d & Hd & Hid).
  exists d. split; [by apply Hsub|done].
Qed.

Lemma reportsWithin_app l ev1 ev2 :
  reportsWithin l ev1 → reportsWithin l ev2 → reportsWithin l (ev1 ++ ev2).
Proof.
  intros H1 H2 e i He. apply elem_of_app in He as [He|He]; [by apply H1|by apply H2].
Qed.

Lemma reportsWithin_nil l : reportsWithin l [].
Proof. intros e i He. by apply not_elem_of_nil in He. Qed.

Lemma withItem_within l data f :
  (∀ d, data = Some d → d ∈ l) →
  (∀ i, reportedItem (f i) = Some i) →
  reportsWithin l (withItem data f).1 ∧ length (withItem data f).1 ≤ 1.
Proof.
  intros Hd Hf. destruct data as [d|]; simpl; [|split; [apply reportsWithin_nil|lia]].
  split; [|lia]. intros e i He Hi. apply list_elem_of_singleton in He as ->.
  rewrite Hf in Hi. injection Hi as <-. exists d. split; [|done].
  apply (flat_nodes_elem d l (Hd d eq_refl)), nodes_self.
Qed.

Lemma report_within l finished data result :
  (∀ d, data = Some d → d ∈ l) →
  reportsWithin l (report finished data result).1 ∧
  length (report finished data result).1 ≤ 1.
Proof.
  intros Hd. unfold report. destruct result as [r|].
  - repeat case_bool_decide; try (apply withItem_within; done); simpl;
      (split; [|lia]); try apply reportsWithin_nil.
    intros e i He Hi. apply list_elem_of_singleton in He as ->. done.
  - destruct finished; [by apply withItem_within|].
    simpl. split; [apply reportsWithin_nil|lia].
Qed.

Lemma forTasks_within body vitest :
  Forall (λ task, ∀ set,
            (body task set).1 ⊆ set ∧
            reportsWithin set (body task set).2.1 ∧
            length (body task set).2.1 ≤ testTasks task) vitest →
  ∀ set, reportsWithin set (forTasks body set vitest).1 ∧
         length (forTasks body set vitest).1 ≤ list_sum (map testTasks vitest).
Proof.
  induction 1 as [|task vitest Hb _ IH]; intros set; simpl;
    [split; [apply reportsWithin_nil|done]|].
  destruct (Hb set) as (Hsub & Hr & Hlen).
  destruct (body task set) as [set' [events c]]. simpl in *.
  destruct c as [|p]; simpl; [|split; [done|lia]].
  destruct (IH set') as (Hr' & Hlen').
  destruct (forTasks body set' vitest) as [events' c']. simpl in *.
  split; [|rewrite length_app; lia].
  apply reportsWithin_app; [done|].
  eapply reportsWithin_mono; [|done]. by apply flat_nodes_subseteq.
Qed.

Lemma syncTask_within finished task : ∀ set,
  (syncTask fuseSearch finished task set).1 ⊆ set ∧
  reportsWithin set (syncTask fuseSearch finished task set).2.1 ∧
  length (syncTask fuseSearch finished task set).2.1 ≤ testTasks task.
Proof.
  induction task as [i ty n r ts IH] using Task_forall_ind. intros set.
  destruct (matchTask_answers_from_candidates_aux (n) set ty) as (Hans & Hsub).
  simpl. destruct (matchTask fuseSearch n set ty) as [data set'] eqn:Hm. simpl in *.
  destruct ty; simpl.
  - destruct data as [d|]; simpl; [|split_and!; [done|apply reportsWithin_nil|lia]].
    destruct (forTasks_within (syncTask fuseSearch finished) ts IH
                (default [] (data_children d))) as (Hr & Hlen).
    split_and!; [done| |done].
    eapply reportsWithin_mono; [|done].
    destruct (data_children d) as [cs|] eqn:Hcs; simpl; [|by intros x Hx; apply not_elem_of_nil in Hx].
    etrans; [by apply nodes_children|]. apply flat_nodes_elem. by apply Hans.
  - split; [done|]. by apply report_within.
Qed.

(** X11.  A synchronisation only reports on items of the file's data tree:
    every call on the run is about the item of a node of [vscode], whatever
    the search answers.  It makes at most one call for each runtime test. *)
Theorem sync_reports_items_of_the_tree finished vscode vitest :
  reportsWithin vscode (sync fuseSearch finished vscode vitest).1 ∧
  length (sync fuseSearch finished vscode vitest).1 ≤ list_sum (map testTasks vitest).
Proof.
  apply forTasks_within, Forall_forall. intros task _ set.
  apply syncTask_within.
Qed.

End ReportFacts.

(** ** The end of a run *)

Section FinishFacts.
Import Tree Watch Status.

Variable fuseSearch : list string → string → list nat.
Variable discoverTestFromPath : string → TestFile.


Lemma syncFiles_normal r files :
  Forall (λ file, (syncOf fuseSearch discoverTestFromPath file).2 = Normal) files →
  syncFiles fuseSearch discoverTestFromPath r true files =
    (flat_map (λ file, map (OnRun r) (syncOf fuseSearch discoverTestFromPath file).1) files, Normal).
Proof.
  induction 1 as [|file files Hf _ IH]; simpl; [done|].
  unfold Status.syncOf in Hf. fold (Status.syncOf fuseSearch discoverTestFromPath file).
  destruct (sync fuseSearch true _ _) as [events c] eqn:Hs. simpl in Hf. subst c.
  rewrite IH. unfold Status.syncOf. by rewrite Hs.
Qed.

Lemma syncFiles_throws r before file after p :
  Forall (λ file, (syncOf fuseSearch discoverTestFromPath file).2 = Normal) before →
  (syncOf fuseSearch discoverTestFromPath file).2 = TypeError p →
  syncFiles fuseSearch discoverTestFromPath r true (before ++ file :: after) =
    (flat_map (λ file, map (OnRun r) (syncOf fuseSearch discoverTestFromPath file).1) (before ++ [file]), TypeError p).
Proof.
  intros Hb Hf. induction Hb as [|file' before Hf' _ IH]; simpl.
  - unfold Status.syncOf in Hf.
    destruct (sync fuseSearch true _ _) as [events c] eqn:Hs. simpl in Hf. subst c.
    unfold Status.syncOf. rewrite Hs. simpl. by rewrite app_nil_r.
  - unfold Status.syncOf in Hf'.
    destruct (sync fuseSearch true _ _) as [events c] eqn:Hs. simpl in Hf'. subst c.
    rewrite IH. unfold Status.syncOf at 2. by rewrite Hs.
Qed.

(** X12.  When every file of the batch synchronises without exception,
    [onFinished] reports the files in order on the current run, ends that
    run, forgets it and recomputes the counters. *)
Theorem onFinished_ends_the_run sm st files :
  Forall (λ file, (syncOf fuseSearch discoverTestFromPath file).2 = Normal) files →
  let r := currentRun (watcher st) in
  let st' := (onFinished fuseSearch discoverTestFromPath sm st (Some files)).1 in
  (onFinished fuseSearch discoverTestFromPath sm st (Some files)).2 =
    created (watcher st)
    ++ flat_map (λ file, map (OnRun r) (syncOf fuseSearch discoverTestFromPath file).1) files
    ++ [RunEnd r] ∧
  run (watcher st') = None ∧
  isRunning st' = false ∧
  testStatus st' = updateStatus (watcher st') sm (testStatus st).
Proof.
  intros Hf r st'. subst r st'. unfold Status.onFinished, Status.onUpdated, currentRun, created.
  destruct (run (watcher st)) as [r|] eqn:Hr; simpl.
  - rewrite (syncFiles_normal r files Hf). by rewrite Hr.
  - rewrite (syncFiles_normal _ files Hf). simpl. done.
Qed.

(** X13.  When the synchronisation of a file throws, [onFinished] logs the
    exception and stops there: the files behind it are not synchronised, the
    run is not ended and stays the current one, and the counters are not
    recomputed. *)
Theorem onFinished_leaves_the_run_open sm st before file after p :
  Forall (λ file, (syncOf fuseSearch discoverTestFromPath file).2 = Normal) before →
  (syncOf fuseSearch discoverTestFromPath file).2 = TypeError p →
  let r := currentRun (watcher st) in
  let files := before ++ file :: after in
  let st' := (onFinished fuseSearch discoverTestFromPath sm st (Some files)).1 in
  (onFinished fuseSearch discoverTestFromPath sm st (Some files)).2 =
    created (watcher st)
    ++ flat_map (λ file, map (OnRun r) (syncOf fuseSearch discoverTestFromPath file).1) (before ++ [file])
    ++ [ConsoleError p] ∧
  (∀ r', RunEnd r' ∉ (onFinished fuseSearch discoverTestFromPath sm st (Some files)).2) ∧
  run (watcher st') = Some r ∧
  isRunning st' = false ∧
  testStatus st' = testStatus st.
Proof.
  intros Hb Hf r files st'. subst r files st'.
  unfold Status.onFinished, Status.onUpdated, currentRun, created.
  assert (∀ r r', RunEnd r' ∉
            flat_map (λ file, map (OnRun r) (syncOf fuseSearch discoverTestFromPath file).1) (before ++ [file])) as Hno.
  { intros r r' Hin. apply list_elem_of_In, in_flat_map in Hin as (f & _ & Hin).
    apply in_map_iff in Hin as (e & He & _). done. }
  destruct (run (watcher st)) as [r|] eqn:Hr; simpl.
  - rewrite (syncFiles_throws r before file after p Hb Hf). simpl.
    split_and!; try done. intros r' Hin.
    apply elem_of_app in Hin as [Hin|Hin]; [by apply Hno in Hin|].
    by apply list_elem_of_singleton in Hin.
  - rewrite (syncFiles_throws _ before file after p Hb Hf). simpl.
    split_and!; try done. intros r' Hin.
    apply elem_of_cons in Hin as [Hin|Hin]; [done|].
    apply elem_of_app in Hin as [Hin|Hin]; [by apply Hno in Hin|].
    by apply list_elem_of_singleton in Hin.
Qed.

End FinishFacts.

Lemma onFinished_ends_the_run_witness :
  let r := Status.onFinished Samples.fuse_all MoreSamples.discovered Samples.manager
             MoreSamples.idle (Some [MoreSamples.math_finished]) in
  Forall (λ file, (Status.syncOf Samples.fuse_all MoreSamples.discovered file).2 = Watch.Normal)
    [MoreSamples.math_finished] ∧
  r.2 =
    [Status.CreateTestRun 0;
     Status.OnRun 0 (Watch.Passed "file:///w/math.test.ts/math adds@1" (Some 3%Z));
     Status.OnRun 0 (Watch.Failed "file:///w/math.test.ts/math subtracts@2" "expected 1 to be 2");
     Status.RunEnd 0] ∧
  Watch.run (Status.watcher r.1) = None ∧
  Status.isRunning r.1 = false.
Proof.
  assert (Forall (λ file, (Status.syncOf Samples.fuse_all MoreSamples.discovered file).2
                          = Watch.Normal) [MoreSamples.math_finished]) as Hn.
  { constructor; [vm_compute; reflexivity|constructor]. }
  split; [exact Hn|].
  destruct (onFinished_ends_the_run Samples.fuse_all MoreSamples.discovered Samples.manager
              MoreSamples.idle [MoreSamples.math_finished] Hn) as (He & Hr & Hi & _).
  split; [|split; [exact Hr|exact Hi]].
  etransitivity; [exact He|]. vm_compute. reflexivity.
Defined.

Lemma onFinished_leaves_the_run_open_witness :
  let files := [MoreSamples.math_finished; MoreSamples.late_finished; MoreSamples.math_finished] in
  let r := Status.onFinished Samples.fuse_all MoreSamples.discovered Samples.manager
             MoreSamples.idle (Some files) in
  (Status.syncOf Samples.fuse_all MoreSamples.discovered MoreSamples.math_finished).2
    = Watch.Normal ∧
  (Status.syncOf Samples.fuse_all MoreSamples.discovered MoreSamples.late_finished).2
    = Watch.TypeError "item" ∧
  r.2 =
    [Status.CreateTestRun 0;
     Status.OnRun 0 (Watch.Passed "file:///w/math.test.ts/math adds@1" (Some 3%Z));
     Status.OnRun 0 (Watch.Failed "file:///w/math.test.ts/math subtracts@2" "expected 1 to be 2");
     Status.ConsoleError "item"] ∧
  Watch.run (Status.watcher r.1) = Some 0 ∧
  Status.testStatus r.1 = Status.testStatus MoreSamples.idle.
Proof.
  assert ((Status.syncOf Samples.fuse_all MoreSamples.discovered MoreSamples.math_finished).2
          = Watch.Normal) as Hn by (vm_compute; reflexivity).
  assert ((Status.syncOf Samples.fuse_all MoreSamples.discovered MoreSamples.late_finished).2
          = Watch.TypeError "item") as Ht by (vm_compute; reflexivity).
  assert (Forall (λ file, (Status.syncOf Samples.fuse_all MoreSamples.discovered file).2
                          = Watch.Normal) [MoreSamples.math_finished]) as Hb.
  { constructor; [exact Hn|constructor]. }
  split; [exact Hn|]. split; [exact Ht|].
  destruct (onFinished_leaves_the_run_open Samples.fuse_all MoreSamples.discovered
              Samples.manager MoreSamples.idle [MoreSamples.math_finished]
              MoreSamples.late_finished [MoreSamples.math_finished] "item"
              Hb Ht) as (He & _ & Hr & _ & Hs).
  split; [|split; [exact Hr|exact Hs]].
  etransitivity; [exact He|]. vm_compute. reflexivity.
Defined.

(** ** The tree that [discoverTestFromFileContent] builds *)

Section ShapeFacts.
Import Tree Discover Shape.

(** *** Ids are unique *)

Lemma chars_app (s1 s2 : string) : chars (s1 +:+ s2) = chars s1 ++ chars s2.
Proof. induction s1 as [|c s1 IH]; simpl; [done|]. by rewrite <- IH. Qed.

Lemma chars_inj (s1 s2 : string) : chars s1 = chars s2 → s1 = s2.
Proof.
  intros H. rewrite <- (String.string_of_list_ascii_of_string s1),
    <- (String.string_of_list_ascii_of_string s2). unfold chars in H. by rewrite H.
Qed.

Lemma digits_no_at d : "@"%char ∉ chars (NilEmpty.string_of_uint d).
Proof.
  induction d; simpl; [apply not_elem_of_nil|..];
    (apply not_elem_of_cons; split; [discriminate|done]).
Qed.

Lemma Number_toString_inj n m : Number_toString n = Number_toString m → n = m.
Proof.
  unfold Number_toString. intros H.
  assert (Some (Nat.to_uint n) = Some (Nat.to_uint m)) as He.
  { rewrite <- !NilEmpty.usu. by rewrite H. }
  injection He as He. apply (f_equal Nat.of_uint) in He.
  by rewrite !DecimalNat.Unsigned.of_to in He.
Qed.

(** The number behind the last [@] of an id is the position of the block:
    ids with different positions differ, whatever the names. *)
Lemma makeId_index u n1 n2 k1 k2 :
  makeId u n1 k1 = makeId u n2 k2 → k1 = k2.
Proof.
  unfold makeId. intros H.
  apply (String.app_inj u), (String.app_inj "/") in H.
  apply (f_equal chars) in H. rewrite !chars_app in H. simpl in H.
  apply not_elem_of_app_cons_inv_r in H as (_ & _ & H);
    [|apply digits_no_at..].
  by apply Number_toString_inj, chars_inj.
Qed.

Lemma numbered_elem u from names x :
  x ∈ numbered u from names → ∃ n k, from ≤ k ∧ x = makeId u n k.
Proof.
  unfold numbered. intros Hx. apply elem_of_lookup_imap_1 in Hx as (i & n & -> & _).
  exists n, (from + i). split; [lia|done].
Qed.

Lemma numbered_NoDup u names : ∀ from, NoDup (numbered u from names).
Proof.
  induction names as [|n names IH]; intros from; [constructor|].
  rewrite numbered_cons. constructor; [|apply IH].
  intros Hin. apply numbered_elem in Hin as (n' & k & Hk & Heq).
  apply makeId_index in Heq. lia.
Qed.

Lemma makeId_longer u n k : makeId u n k ≠ u.
Proof.
  unfold makeId. intros H. apply (f_equal chars) in H.
  rewrite chars_app in H. simpl in H.
  apply (f_equal length) in H. rewrite length_app in H. simpl in H. lia.
Qed.

(** *** The items, one for each block *)

Lemma items_unfold t : items t = t :: flat_map items (children t).
Proof. by destruct t. Qed.

Lemma heads_app cs1 cs2 : heads (cs1 ++ cs2) = heads cs1 ++ heads cs2.
Proof. unfold heads. by rewrite flat_map_app, map_app. Qed.

Lemma heads_pop top below l x :
  anc_children below = l ++ [x] →
  heads (anc_children (pop top below)) = heads l ++ alone x :: heads (anc_children top).
Proof.
  intros H. simpl. rewrite H, alter_last_snoc, heads_app. f_equal.
  unfold heads. simpl. by rewrite app_nil_r.
Qed.

Lemma unwind_heads_ext X t1 t2 rest :
  Forall (λ f, anc_children f ≠ []) rest →
  heads (anc_children t2) = heads (anc_children t1) ++ X →
  heads (anc_children (unwind t2 rest)) = heads (anc_children (unwind t1 rest)) ++ X.
Proof.
  revert t1 t2. induction rest as [|below rest IH]; intros t1 t2 Hne Hext; [done|].
  apply Forall_cons in Hne as [Hbelow Hne]. simpl. apply IH; [done|].
  apply nonempty_snoc in Hbelow as (l & x & Hl).
  rewrite !(heads_pop _ below l x) by done. rewrite Hext.
  by rewrite <- app_assoc.
Qed.

Lemma pop_mirror top lower rest :
  aliased top (lower :: rest) →
  framesMirror top (lower :: rest) →
  framesMirror (pop top lower) rest.
Proof.
  intros (Hlast & Hdata & _) Hm.
  apply Forall_cons in Hm as [Htop Hm]. apply Forall_cons in Hm as [Hlower Hm].
  apply Forall_cons. split; [|done]. simpl.
  apply last_Some in Hlast as [l Hl]. rewrite Hl in *.
  destruct (last (anc_dataChildren lower)) as [d|] eqn:Hd.
  - apply last_Some in Hd as [l' Hl']. rewrite Hl' in *.
    rewrite !alter_last_snoc.
    apply Forall2_app_inv in Hlower as [Hl0 Hx];
      [|apply Forall2_length in Hlower; rewrite !length_app in Hlower; simpl in Hlower; lia].
    apply Forall2_app; [done|]. apply Forall2_cons_1 in Hx as [Hx _].
    unfold entryData in Hdata. destruct (anc_data top) as [|p e i]; [done|].
    injection Hdata as ->. inversion Hx as [|i' l0 u r ts cs e' ds Hcs]; subst.
    repeat constructor. simpl. done.
  - apply last_None in Hd. rewrite Hd in Hlower. apply Forall2_nil_inv_r in Hlower.
    by destruct l.
Qed.

Lemma getParent_mirror fi open b top rest :
  stackInv fi open top rest →
  framesMirror top rest →
  framesMirror (getParent b top rest).1 (getParent b top rest).2.
Proof.
  revert top open. induction rest as [|below rest IH]; intros top open [Hb Hc Hi] Hm.
  - simpl. by destruct (anc_block top).
  - simpl. destruct (anc_block top) as [pb|] eqn:Htop; [|done].
    destruct (startsAfter b pb); [|done].
    destruct open as [|pb' open]; [discriminate Hb|]. injection Hb as _ Hb.
    apply (IH _ open).
    + destruct Hc as (? & ? & Hc). split; [done| |done]. by apply (aliased_ext below).
    + by apply (pop_mirror _ _ rest).
Qed.

Lemma unwind_mirror top rest :
  aliased top rest → framesMirror top rest →
  Forall2 mirror (anc_children (unwind top rest)) (anc_dataChildren (unwind top rest)).
Proof.
  revert top. induction rest as [|below rest IH]; intros top Hc Hm.
  - by apply Forall_cons in Hm as [Hm _].
  - simpl. apply IH.
    + destruct Hc as (_ & _ & Hc). by apply (aliased_ext below).
    + by apply (pop_mirror _ _ rest).
Qed.

Lemma dataHeads_app ds1 ds2 : dataHeads (ds1 ++ ds2) = dataHeads ds1 ++ dataHeads ds2.
Proof. unfold dataHeads. by rewrite flat_map_app, map_app. Qed.

Lemma dataHeads_pop top below :
  endsInOpenSuite below →
  ∃ l d, anc_dataChildren below = l ++ [d] ∧ bare d = d ∧
    dataHeads (anc_dataChildren (pop top below)) =
      dataHeads l ++ d :: dataHeads (anc_dataChildren top).
Proof.
  intros (l & p & e & i & Hl). exists l, (TestDescribe p e i []).
  split; [done|]. split; [done|].
  simpl. rewrite Hl, alter_last_snoc, dataHeads_app. f_equal.
  unfold dataHeads. simpl. by rewrite app_nil_r.
Qed.

Lemma unwind_dataHeads_ext X t1 t2 rest :
  Forall endsInOpenSuite rest →
  dataHeads (anc_dataChildren t2) = dataHeads (anc_dataChildren t1) ++ X →
  dataHeads (anc_dataChildren (unwind t2 rest)) =
    dataHeads (anc_dataChildren (unwind t1 rest)) ++ X.
Proof.
  revert t1 t2. induction rest as [|below rest IH]; intros t1 t2 Hopen Hext; [done|].
  apply Forall_cons in Hopen as [Hbelow Hopen]. simpl. apply IH; [done|].
  destruct (dataHeads_pop t1 below Hbelow) as (l & d & Hl & _ & ->).
  destruct (dataHeads_pop t2 below Hbelow) as (l' & d' & Hl' & _ & ->).
  rewrite Hl in Hl'. apply app_inj_tail in Hl' as [<- <-].
  rewrite Hext. by rewrite <- app_assoc.
Qed.

Lemma aliased_open top rest :
  aliased top rest → framesMirror top rest → Forall endsInOpenSuite rest.
Proof.
  revert top. induction rest as [|lower rest IH]; intros top Hal Hm; [constructor|].
  destruct Hal as (Hlast & Hdata & Hal).
  pose proof Hm as Hm'. apply Forall_cons in Hm' as [_ Hm'].
  constructor; [|by apply (IH lower)].
  apply Forall_cons in Hm' as [Hlower _].
  unfold entryData in Hdata. destruct (anc_data top) as [|p e i].
  - apply last_None in Hdata. rewrite Hdata in Hlower.
    apply Forall2_nil_inv_r in Hlower. by rewrite Hlower in Hlast.
  - apply last_Some in Hdata as [l Hl]. by exists l, p, e, i.
Qed.

(** One turn of the loop on a block the builder accepts: the stack keeps its
    invariant, the id of the block joins the index, and the tree gains one
    item, behind all the others. *)
Lemma step_shape u fi open st b :
  stackInv fi open (top st) (below st) →
  framesMirror (top st) (below st) →
  validType b →
  let i := makeId u (fullNameUnder (map name (reverse (closeSuites b open))) b) (index st) in
  ∃ st', step u st b = inl st' ∧
    stackInv fi (openAfter b open) (top st') (below st') ∧
    framesMirror (top st') (below st') ∧
    index st' = S (index st) ∧
    idMap st' = {[ i ]} ∪ idMap st ∧
    testCaseIndex st' =
      (if bool_decide (type b = "describe") then testCaseIndex st else S (testCaseIndex st)) ∧
    heads (anc_children (unwind (top st') (below st'))) =
      heads (anc_children (unwind (top st) (below st))) ++ [blockItem u [] b i] ∧
    dataHeads (anc_dataChildren (unwind (top st') (below st'))) =
      dataHeads (anc_dataChildren (unwind (top st) (below st)))
      ++ [blockData b i (testCaseIndex st)].
Proof.
  intros Hinv Hmir Hvalid. unfold step, openAfter, blockData.
  pose proof (getParent_inv fi open b (top st) (below st) Hinv) as Hget.
  pose proof (getParent_mirror fi open b (top st) (below st) Hinv Hmir) as Hgm.
  destruct (getParent b (top st) (below st)) as [p r].
  destruct Hget as [Hinv' Hunwind]. rewrite <- Hunwind.
  rewrite (fullName_open fi (closeSuites b open)) by done.
  set (i := makeId u _ (index st)). simpl in Hgm.
  pose proof (aliased_open p r (inv_alias _ _ _ _ Hinv') Hgm) as Hopen.
  apply Forall_cons in Hgm as [Hp Hr].
  destruct Hinv' as [Hb Hc Hi].
  destruct Hvalid as [Hty|Hty]; rewrite Hty; simpl.
  - eexists. split; [done|]. simpl. split_and!; [| |done|done|done| |].
    + split; simpl.
      * simpl in Hb. by rewrite Hb.
      * rewrite !last_snoc. split_and!; [done..|]. by apply (aliased_ext p).
      * rewrite <- Hi. by apply unwind_item.
    + apply Forall_cons. split; [constructor|]. apply Forall_cons. split; [|done].
      simpl. apply Forall2_app; [done|]. repeat constructor.
    + apply unwind_heads_ext; [by eapply aliased_nonempty|]. simpl.
      rewrite alter_last_snoc, heads_app. simpl. done.
    + apply unwind_dataHeads_ext; [done|]. simpl.
      rewrite alter_last_snoc, dataHeads_app. simpl. done.
  - eexists. split; [done|]. simpl. split_and!; [| |done|done|done| |].
    + split; simpl; [done|by apply (aliased_ext p)|].
      rewrite <- Hi. by apply unwind_item.
    + apply Forall_cons. split; [|done]. simpl. apply Forall2_app; [done|].
      repeat constructor.
    + apply unwind_heads_ext; [by eapply aliased_nonempty|]. simpl.
      by rewrite heads_app.
    + apply unwind_dataHeads_ext; [done|]. simpl.
      by rewrite dataHeads_app.
Qed.

Lemma blockItems_cons u ts b arr i idents :
  blockItems u ts (b :: arr) (i :: idents) = blockItem u ts b i :: blockItems u ts arr idents.
Proof. done. Qed.

Lemma loop_shape u fi arr : ∀ open st,
  stackInv fi open (top st) (below st) →
  framesMirror (top st) (below st) →
  Forall validType arr →
  let idents := numbered u (index st) (fullNames open arr) in
  ∃ st', loop u st arr = inl st' ∧
    aliased (top st') (below st') ∧
    framesMirror (top st') (below st') ∧
    idMap st' = list_to_set idents ∪ idMap st ∧
    heads (anc_children (unwind (top st') (below st'))) =
      heads (anc_children (unwind (top st) (below st))) ++ blockItems u [] arr idents ∧
    dataHeads (anc_dataChildren (unwind (top st') (below st'))) =
      dataHeads (anc_dataChildren (unwind (top st) (below st)))
      ++ blockDatas arr idents (testCaseIndex st).
Proof.
  induction arr as [|b arr IH]; intros open st Hinv Hmir Hvalid.
  - exists st. simpl.
    split_and!; [done|apply Hinv|done|set_solver|by rewrite app_nil_r..].
  - apply Forall_cons in Hvalid as [Hb Hvalid].
    destruct (step_shape u fi open st b Hinv Hmir Hb)
      as (st1 & Hstep & Hinv1 & Hmir1 & Hidx & Hmap & Hcase & Hheads & Hdata).
    destruct (IH _ st1 Hinv1 Hmir1 Hvalid)
      as (st' & Hloop & Hal & Hmir' & Hmap' & Hheads' & Hdata').
    exists st'.
    change (fullNames open (b :: arr))
      with (fullNameUnder (map name (reverse (closeSuites b open))) b
              :: fullNames (openAfter b open) arr).
    rewrite numbered_cons, blockItems_cons. cbn [loop blockDatas]. rewrite Hstep.
    split_and!; [done..| | |].
    + rewrite Hmap', Hmap, Hidx. set_solver.
    + rewrite Hheads', Hheads, Hidx, <- app_assoc. done.
    + rewrite Hdata', Hdata, Hidx, Hcase, <- app_assoc. done.
Qed.

Lemma alone_retag ts t : alone (retag ts t) = with_tags ts (alone t).
Proof. by destruct t. Qed.

Lemma heads_retag ts cs : heads (map (retag ts) cs) = map (with_tags ts) (heads cs).
Proof.
  unfold heads. induction cs as [|t cs IH]; simpl; [done|].
  rewrite !map_app, IH. f_equal. clear IH.
  induction t as [i l u r ts0 cs' IH'] using TestItem_forall_ind. simpl. f_equal.
  induction IH' as [|c cs' Hc _ IHcs]; simpl; [done|].
  by rewrite !map_app, Hc, IHcs.
Qed.

Lemma blockItems_tags u ts arr : ∀ idents,
  map (with_tags ts) (blockItems u [] arr idents) = blockItems u ts arr idents.
Proof.
  induction arr as [|b arr IH]; intros [|i idents]; simpl; try done.
  by rewrite <- IH.
Qed.

Lemma mirror_retag ts t : ∀ d, mirror t d → mirror (retag ts t) d.
Proof.
  induction t as [i l u r ts0 cs IH] using TestItem_forall_ind.
  intros d Hm. inversion Hm as [|? ? ? ? ? ? e ds Hcs]; subst; simpl; constructor.
  clear Hm. revert ds Hcs. induction IH as [|c cs Hc _ IHcs]; intros ds Hcs.
  - apply Forall2_nil_inv_l in Hcs as ->. constructor.
  - apply Forall2_cons_inv_l in Hcs as (d & ds' & Hd & Hds & ->). simpl.
    constructor; [by apply Hc|by apply IHcs].
Qed.

Lemma step_outcome u st b :
  (validType b → ∃ st', step u st b = inl st' ∧ idMap st ⊆ idMap st') ∧
  (¬ validType b → ∃ m, step u st b = inr m ∧ idMap st ⊆ m).
Proof.
  unfold step, validType. destruct (getParent b (top st) (below st)) as [p r].
  repeat case_bool_decide; split; intros Hv; try tauto;
    eexists; (split; [done|]); simpl; set_solver.
Qed.

Lemma loop_outcome u arr : ∀ st,
  (Forall validType arr → ∃ st', loop u st arr = inl st' ∧ idMap st ⊆ idMap st') ∧
  (¬ Forall validType arr → ∃ m, loop u st arr = inr m ∧ idMap st ⊆ m).
Proof.
  induction arr as [|b arr IH]; intros st; simpl.
  - split; [by exists st|]. intros H. by destruct H.
  - destruct (step_outcome u st b) as [Hok Hbad].
    destruct (decide (type b = "describe" ∨ type b = "it")) as [Hv|Hv].
    + destruct (Hok Hv) as (st1 & -> & Hsub). destruct (IH st1) as [IHok IHbad]. split.
      * intros H. apply Forall_cons in H as [_ H].
        destruct (IHok H) as (st' & -> & Hsub'). exists st'. split; [done|set_solver].
      * intros H. destruct IHbad as (m & -> & Hsub').
        { intros Harr. apply H. by constructor. }
        exists m. split; [done|set_solver].
    + destruct (Hbad Hv) as (m & -> & Hsub). split.
      * intros H. apply Forall_cons in H as [H _]. done.
      * intros _. by exists m.
Qed.

Section Operation.

Variable parse : string → string → option ParseResult.
Variable openTestTag : TestTag.
Variable isFileOpen : string → bool.

Lemma initialLoop_mirror w m :
  framesMirror (top (initialLoop w m)) (below (initialLoop w m)).
Proof. repeat constructor. Qed.

Lemma applyBlocks_shape w m arr :
  Forall validType arr →
  let r := applyBlocks openTestTag isFileOpen w m arr in
  let u := uri (fileItem w) in
  let idents := numbered u 0 (fullNames [] arr) in
  r.2 = Returned ∧
  heads (children (fileItem r.1)) =
    blockItems u (newTags openTestTag isFileOpen w) arr idents ∧
  alone (fileItem r.1) = with_tags (newTags openTestTag isFileOpen w) (alone (fileItem w)) ∧
  testItemIdMap r.1 = Some (list_to_set idents ∪ m) ∧
  dataHeads (file_children (data r.1)) = blockDatas arr idents 0 ∧
  file_item (data r.1) = file_item (data w).
Proof.
  intros Hvalid r u idents. subst r u idents. unfold applyBlocks.
  destruct (loop_shape (uri (fileItem w)) (fileItem w) arr [] (initialLoop w m)
              (initialLoop_inv w m) (initialLoop_mirror w m) Hvalid)
    as (st' & Hloop & _ & _ & Hmap & Hheads & Hdata).
  pose proof (loop_item (uri (fileItem w)) arr (initialLoop w m) st' Hloop) as Hitem.
  rewrite Hloop. simpl in *. split_and!; [done| | |by rewrite Hmap|done|done].
  - rewrite heads_retag, Hheads. simpl. apply blockItems_tags.
  - rewrite Hitem. by destruct (fileItem w).
Qed.

(** X14.  Blocks the builder accepts make one item each.  Read parents first,
    the items below the file are those of the blocks in their order: the
    item of a block has the name of the block as label, the range of the
    block with lines counted from 0, the uri of the file, and the id made of
    the full name and the position; all of them carry the tags the file
    gets.  The file item keeps its id, label, uri and range, and the index
    gains exactly the new ids. *)
Theorem applyBlocks_one_item_per_block w m arr :
  Forall validType arr →
  let r := applyBlocks openTestTag isFileOpen w m arr in
  let u := uri (fileItem w) in
  let idents := numbered u 0 (fullNames [] arr) in
  r.2 = Returned ∧
  heads (children (fileItem r.1)) =
    blockItems u (newTags openTestTag isFileOpen w) arr idents ∧
  alone (fileItem r.1) = with_tags (newTags openTestTag isFileOpen w) (alone (fileItem w)) ∧
  testItemIdMap r.1 = Some (list_to_set idents ∪ m).
Proof.
  intros Hvalid. destruct (applyBlocks_shape w m arr Hvalid) as (? & ? & ? & ? & _).
  done.
Qed.

(** X15.  The data of a file, node by node.  Read parents first, the data
    nodes below the file are those of the blocks in their order: a suite for
    a ['describe'] block and a case for an ['it'] block, with the name of
    the block as pattern, the id of the block's item as item, and [isEach]
    set exactly when the last modifier of the call is ['each'].  The index
    of a case is the number of cases in front of it in the file, whatever
    suites they are in. *)
Theorem applyBlocks_one_data_per_block w m arr :
  Forall validType arr →
  let r := applyBlocks openTestTag isFileOpen w m arr in
  let idents := numbered (uri (fileItem w)) 0 (fullNames [] arr) in
  dataHeads (file_children (data r.1)) = blockDatas arr idents 0 ∧
  file_item (data r.1) = file_item (data w).
Proof.
  intros Hvalid. destruct (applyBlocks_shape w m arr Hvalid) as (_ & _ & _ & _ & ? & ?).
  done.
Qed.

(** X16.  The data tree that a successful build leaves has the shape of the
    item tree: the children of the file's data stand, one by one and in
    order, for the children of the file item, and so on down the tree; every
    data node refers to the item at its place and has the item's label as
    its pattern. *)
Theorem applyBlocks_data_mirrors_items w m arr :
  Forall validType arr →
  let r := applyBlocks openTestTag isFileOpen w m arr in
  Forall2 mirror (children (fileItem r.1)) (file_children (data r.1)).
Proof.
  intros Hvalid r. subst r. unfold applyBlocks.
  destruct (loop_shape (uri (fileItem w)) (fileItem w) arr [] (initialLoop w m)
              (initialLoop_inv w m) (initialLoop_mirror w m) Hvalid)
    as (st' & Hloop & Hal & Hmir & _ & _).
  rewrite Hloop. simpl.
  pose proof (unwind_mirror _ _ Hal Hmir) as Hfinal.
  revert Hfinal. generalize (anc_dataChildren (unwind (top st') (below st'))).
  generalize (anc_children (unwind (top st') (below st'))).
  intros cs ds H. induction H as [|c d cs ds Hc _ IH]; simpl; constructor; [|done].
  by apply mirror_retag.
Qed.

(** X17.  The ids of the items of a file are pairwise distinct, also when
    blocks share their names: the position behind the last [@] tells them
    apart.  With the file item filed under its uri, as [getOrCreateFile]
    does, no item below it has the id of the file either. *)
Theorem applyBlocks_ids_distinct w m arr :
  Forall validType arr →
  let r := applyBlocks openTestTag isFileOpen w m arr in
  NoDup (flat_map ids (children (fileItem r.1))) ∧
  (item_id (fileItem w) = uri (fileItem w) → NoDup (ids (fileItem r.1))).
Proof.
  intros Hvalid r. subst r.
  destruct (applyBlocks_ids openTestTag isFileOpen w m arr Hvalid) as [_ Hids].
  destruct (fileItem (applyBlocks openTestTag isFileOpen w m arr).1) as [i l u r ts cs] eqn:Hf.
  simpl in *. injection Hids as Hi Hcs. rewrite Hcs. split; [apply numbered_NoDup|].
  intros Hu. constructor; [|apply numbered_NoDup].
  intros Hin. apply numbered_elem in Hin as (n & k & _ & Heq).
  rewrite Hi, Hu in Heq. symmetry in Heq. by apply makeId_longer in Heq.
Qed.

Lemma tags_retag ts t : Forall (λ x, tags x = ts) (items (retag ts t)).
Proof.
  induction t as [i l u r ts0 cs IH] using TestItem_forall_ind.
  simpl. constructor; [done|].
  induction IH as [|c cs Hc _ IHcs]; simpl; [constructor|].
  apply Forall_app. split; done.
Qed.

(** X18.  A build that returns gives every item of the tree, the file item
    included, the same tags: those the file item had, in their order,
    without the tag of open files, and with that tag once at the end exactly
    when a document of the file is open. *)
Theorem applyBlocks_tags w m arr :
  let r := applyBlocks openTestTag isFileOpen w m arr in
  let ts := newTags openTestTag isFileOpen w in
  (r.2 = Returned → Forall (λ x, tags x = ts) (items (fileItem r.1))) ∧
  filter (λ x, x ≠ openTestTag) ts = filter (λ x, x ≠ openTestTag) (tags (fileItem w)) ∧
  filter (λ x, x = openTestTag) ts =
    (if isFileOpen (uri (fileItem w)) then [openTestTag] else []).
Proof.
  intros r ts. subst r ts. split_and!.
  - unfold applyBlocks. destruct (loop _ _ arr) as [st|]; [|done]. intros _.
    exact (tags_retag _ (children_replace _ _)).
  - unfold newTags. destruct (isFileOpen _).
    + rewrite filter_app, filter_cons, filter_nil.
      rewrite decide_False by (intros H; by apply H).
      rewrite app_nil_r. apply list_filter_filter_l. done.
    + apply list_filter_filter_l. done.
  - unfold newTags.
    assert (filter (λ x, x = openTestTag) (filter (λ x, x ≠ openTestTag) (tags (fileItem w))) = [])
      as Hnone.
    { induction (tags (fileItem w)) as [|x xs IH]; [done|].
      rewrite filter_cons. case_decide; [|done].
      rewrite filter_cons. by case_decide. }
    destruct (isFileOpen _); [|done].
    rewrite filter_app, Hnone, filter_cons, filter_nil. by rewrite decide_True.
Qed.

(** X19.  A block of a kind other than ['describe'] and ['it'] makes the build
    throw, and only such a block does.  When it throws, the item of the file
    keeps the children, the tags and the data it had: the tree is replaced
    at the end of a build or not at all. *)
Theorem discover_throws_on_unexpected_block w content result :
  parse (item_id (fileItem w)) content = Some result →
  let r := discoverTestFromFileContent parse openTestTag isFileOpen w content in
  let arr := describeBlocks result ++ itBlocks result in
  (Forall validType arr → r.2 = Returned) ∧
  (¬ Forall validType arr →
     r.2 = Thrown "unexpected block type" ∧
     fileItem r.1 = fileItem w ∧ data r.1 = data w).
Proof.
  intros Hparse r arr. subst r arr. unfold discoverTestFromFileContent. rewrite Hparse.
  unfold applyBlocks.
  set (m := {[ item_id (fileItem w) ]} ∪ default ∅ (testItemIdMap w)).
  destruct (loop_outcome (uri (fileItem w))
              (sortBlocks (describeBlocks result ++ itBlocks result)) (initialLoop w m))
    as [Hok Hbad].
  pose proof (sortBlocks_perm (describeBlocks result ++ itBlocks result)) as Hperm.
  split.
  - intros Hv. destruct Hok as (st' & -> & _); [by rewrite Hperm|]. done.
  - intros Hv. destruct Hbad as (m' & -> & _); [by rewrite Hperm|]. done.
Qed.

(** X20.  The id index of the controller only grows.  Whatever the outcome of
    [discoverTestFromFileContent], every id that was in the index is still
    there, the id of the file is there, and after a build that returned so
    is the id of every item of the new tree.  The ids of the items that the
    build dropped are not taken out. *)
Theorem discover_index_grows w content :
  let r := discoverTestFromFileContent parse openTestTag isFileOpen w content in
  ∃ m', testItemIdMap r.1 = Some m' ∧
    default ∅ (testItemIdMap w) ⊆ m' ∧
    item_id (fileItem w) ∈ m' ∧
    (r.2 = Returned → ∀ i, i ∈ ids (fileItem r.1) → i ∈ m').
Proof.
  intros r. subst r. unfold discoverTestFromFileContent.
  set (m := {[ item_id (fileItem w) ]} ∪ default ∅ (testItemIdMap w)).
  destruct (parse _ content) as [result|]; simpl.
  - set (arr := sortBlocks (describeBlocks result ++ itBlocks result)).
    destruct (loop_outcome (uri (fileItem w)) arr (initialLoop w m)) as [Hok Hbad].
    destruct (decide (Forall validType arr)) as [Hv|Hv].
    + destruct (applyBlocks_shape w m arr Hv) as (_ & _ & _ & Hmap & _).
      destruct (applyBlocks_ids openTestTag isFileOpen w m arr Hv) as [_ Hids].
      eexists. split; [exact Hmap|]. split_and!; [set_solver|set_solver|].
      intros _ i Hi. rewrite Hids in Hi. apply elem_of_cons in Hi as [->|Hi]; [set_solver|].
      apply elem_of_union_l, elem_of_list_to_set. done.
    + destruct (Hbad Hv) as (m' & Hloop & Hsub). unfold applyBlocks. rewrite Hloop. simpl.
      exists m'. split_and!; [done|set_solver|set_solver|done].
  - exists m. split_and!; [done|set_solver|set_solver|done].
Qed.

End Operation.

(** X21.  The sort in front of the build puts the blocks in the order of their
    start lines and changes nothing else: the sorted array holds the same
    blocks, lines never decrease along it, and blocks that start on the same
    line keep the order they had, describe blocks first as they were
    concatenated. *)
Theorem sortBlocks_stable_by_line arr :
  sortBlocks arr ≡ₚ arr ∧
  StronglySorted (λ x y, sortKey x ≤ sortKey y)%Z (sortBlocks arr) ∧
  (∀ k, filter (λ x, sortKey x = k) (sortBlocks arr) = filter (λ x, sortKey x = k) arr).
Proof.
  split_and!; [apply sortBlocks_perm|apply sortBlocks_sorted|].
  intros k. apply sortBlocks_stable.
Qed.

End ShapeFacts.

Lemma math_blocks_valid :
  Forall Discover.validType [Samples.math_suite; Samples.adds_case; Samples.subtracts_case].
Proof.
  constructor; [left; reflexivity|].
  constructor; [right; reflexivity|].
  constructor; [right; reflexivity|constructor].
Defined.

Lemma applyBlocks_one_item_per_block_witness :
  let r := Discover.applyBlocks "open" (λ _, true) Samples.math_world ∅
             [Samples.math_suite; Samples.adds_case; Samples.subtracts_case] in
  Forall Discover.validType [Samples.math_suite; Samples.adds_case; Samples.subtracts_case] ∧
  map Tree.label (Shape.heads (Tree.children (Discover.fileItem r.1)))
    = ["math"; "adds"; "subtracts"] ∧
  map Tree.tags (Shape.heads (Tree.children (Discover.fileItem r.1)))
    = [["open"]; ["open"]; ["open"]] ∧
  map Tree.item_id (Shape.heads (Tree.children (Discover.fileItem r.1)))
    = ["file:///w/math.test.ts/math@0";
       "file:///w/math.test.ts/math adds@1";
       "file:///w/math.test.ts/math subtracts@2"].
Proof.
  split; [exact math_blocks_valid|].
  destruct (applyBlocks_one_item_per_block "open" (λ _, true) Samples.math_world ∅
              [Samples.math_suite; Samples.adds_case; Samples.subtracts_case]
              math_blocks_valid) as (_ & Hheads & _).
  rewrite Hheads. vm_compute. repeat split.
Defined.

Lemma applyBlocks_one_data_per_block_witness :
  let r := Discover.applyBlocks "open" (λ _, true) Samples.math_world ∅
             [Samples.math_suite; Samples.adds_case; Samples.subtracts_case] in
  Forall Discover.validType [Samples.math_suite; Samples.adds_case; Samples.subtracts_case] ∧
  Shape.dataHeads (Tree.file_children (Discover.data r.1)) =
    [Tree.TestDescribe "math" false "file:///w/math.test.ts/math@0" [];
     Tree.TestCase "adds" false "file:///w/math.test.ts/math adds@1" 0;
     Tree.TestCase "subtracts" false "file:///w/math.test.ts/math subtracts@2" 1].
Proof.
  split; [exact math_blocks_valid|].
  destruct (applyBlocks_one_data_per_block "open" (λ _, true) Samples.math_world ∅
              [Samples.math_suite; Samples.adds_case; Samples.subtracts_case]
              math_blocks_valid) as (Hdata & _).
  rewrite Hdata. vm_compute. reflexivity.
Defined.

Lemma applyBlocks_data_mirrors_items_witness :
  let r := Discover.applyBlocks "open" (λ _, true) Samples.math_world ∅
             [Samples.math_suite; Samples.adds_case; Samples.subtracts_case] in
  Forall Discover.validType [Samples.math_suite; Samples.adds_case; Samples.subtracts_case] ∧
  Tree.file_children (Discover.data r.1) = Tree.file_children MoreSamples.math_data ∧
  Forall2 Shape.mirror (Tree.children (Discover.fileItem r.1))
    (Tree.file_children (Discover.data r.1)).
Proof.
  split; [exact math_blocks_valid|]. split; [vm_compute; reflexivity|].
  exact (applyBlocks_data_mirrors_items "open" (λ _, true) Samples.math_world ∅
           [Samples.math_suite; Samples.adds_case; Samples.subtracts_case]
           math_blocks_valid).
Defined.

Lemma twin_blocks_valid :
  Forall Discover.validType [Samples.first_case; Samples.first_case].
Proof.
  constructor; [right; reflexivity|].
  constructor; [right; reflexivity|constructor].
Defined.

Lemma applyBlocks_ids_distinct_witness :
  let r := Discover.applyBlocks "open" (λ _, true) Samples.math_world ∅
             [Samples.first_case; Samples.first_case] in
  Forall Discover.validType [Samples.first_case; Samples.first_case] ∧
  Tree.ids (Discover.fileItem r.1) =
    ["file:///w/math.test.ts"; "file:///w/math.test.ts/adds@0";
     "file:///w/math.test.ts/adds@1"] ∧
  NoDup (flat_map Tree.ids (Tree.children (Discover.fileItem r.1))) ∧
  NoDup (Tree.ids (Discover.fileItem r.1)).
Proof.
  split; [exact twin_blocks_valid|]. split; [vm_compute; reflexivity|].
  destruct (applyBlocks_ids_distinct "open" (λ _, true) Samples.math_world ∅
              [Samples.first_case; Samples.first_case] twin_blocks_valid) as [Hc Hall].
  split; [exact Hc|]. apply Hall. reflexivity.
Defined.

Lemma discover_throws_on_unexpected_block_witness :
  let w := (Discover.discoverTestFromFileContent Samples.sample_parse "open" (λ _, true)
              Samples.math_world "math").1 in
  let r := Discover.discoverTestFromFileContent MoreSamples.odd_parse "open" (λ _, true)
             w "bench" in
  MoreSamples.odd_parse (Tree.item_id (Discover.fileItem w)) "bench" =
    Some {| Discover.describeBlocks := [Samples.math_suite];
            Discover.itBlocks :=
              [Samples.adds_case;
               Samples.block "bench" "sorts" (Samples.pos 3 2) (Samples.pos 3 45)] |} ∧
  length (Tree.ids (Discover.fileItem w)) = 4 ∧
  r.2 = Discover.Thrown "unexpected block type" ∧
  Discover.fileItem r.1 = Discover.fileItem w ∧ Discover.data r.1 = Discover.data w.
Proof.
  split; [reflexivity|]. split; [vm_compute; reflexivity|].
  refine (proj2 (discover_throws_on_unexpected_block MoreSamples.odd_parse "open" (λ _, true)
                   _ "bench" _ eq_refl) _).
  simpl. intros H. apply Forall_cons in H as [_ H]. apply Forall_cons in H as [_ H].
  apply Forall_cons in H as [[H|H] _]; discriminate H.
Defined.

(** ** File items and their labels *)

Section FilesFacts.
Import Tree Files.

Variable sep : ascii.

(** *** Strings *)

Lemma substring_app (P s : string) : substring (String.length P) (P +:+ s) = s.
Proof. induction P as [|c P IH]; simpl; [by destruct s|done]. Qed.

Lemma substring_0 (s : string) : substring 0 s = s.
Proof. by destruct s. Qed.

Lemma prefix_app (P s : string) : String.prefix P (P +:+ s) = true.
Proof. apply prefix_startsWith. by exists s. Qed.

Lemma prefix_substring (P s : string) :
  String.prefix P s = true → s = P +:+ substring (String.length P) s.
Proof.
  intros H. apply prefix_startsWith in H as [r ->]. by rewrite substring_app.
Qed.

Lemma append_assoc (a b c : string) : (a +:+ b) +:+ c = a +:+ (b +:+ c).
Proof. induction a as [|x a IH]; [done|]. by rewrite !append_String, IH. Qed.

Lemma append_empty_r (a : string) : a +:+ EmptyString = a.
Proof. induction a as [|x a IH]; [done|]. by rewrite append_String, IH. Qed.

Lemma prefix_trans (a b c : string) :
  String.prefix a b = true → String.prefix b c = true → String.prefix a c = true.
Proof.
  intros Hab Hbc. apply prefix_startsWith in Hab as [r1 ->].
  apply prefix_startsWith in Hbc as [r2 ->]. apply prefix_startsWith.
  exists (r1 +:+ r2). apply append_assoc.
Qed.

Lemma shrink_prefix_p p : ∀ P, String.prefix (shrink p P) p = true.
Proof.
  induction p as [|d p IH]; intros [|c P]; simpl; try done.
  case_bool_decide as Hc; [|done]. subst. simpl.
  destruct (ascii_dec c c); [apply IH|done].
Qed.

Lemma shrink_prefix_P p : ∀ P, String.prefix (shrink p P) P = true.
Proof.
  induction p as [|d p IH]; intros [|c P]; simpl; try done.
  case_bool_decide as Hc; [|done]. subst. simpl.
  destruct (ascii_dec c c); [apply IH|done].
Qed.

Lemma shrink_longest p : ∀ P q,
  String.prefix q p = true → String.prefix q P = true →
  String.prefix q (shrink p P) = true.
Proof.
  induction p as [|d p IH]; intros [|c P] [|e q]; simpl; try done.
  - intros _ _. by case_bool_decide.
  - destruct (ascii_dec e d) as [->|]; [|done].
    destruct (ascii_dec d c) as [->|]; [|done]. intros Hp HP.
    rewrite bool_decide_eq_true_2 by done. simpl.
    destruct (ascii_dec c c); [by apply IH|done].
Qed.

Lemma with_label_idem l e :
  with_label l (with_label l e) = with_label l e.
Proof. done. Qed.

Lemma relabel_lookup P ids : ∀ its i,
  relabel P ids its !! i =
  if decide (i ∈ ids)
  then (λ e, with_label (substring (String.length P) (entry_path e)) e) <$> its !! i
  else its !! i.
Proof.
  induction ids as [|x ids IH]; intros its i.
  - case_decide as H; [by apply not_elem_of_nil in H|done].
  - unfold relabel in *. cbn [foldl]. rewrite IH.
    destruct (decide (i = x)) as [->|Hne].
    + rewrite lookup_alter_eq.
      destruct (decide (x ∈ x :: ids)) as [_|Hx]; [|exfalso; apply Hx, list_elem_of_here].
      destruct (decide (x ∈ ids)); [|done]. by destruct (its !! x).
    + rewrite lookup_alter_ne by done.
      destruct (decide (i ∈ ids)) as [Hin|Hin], (decide (i ∈ x :: ids)) as [Hin'|Hin'];
        try done.
      * exfalso. apply Hin'. by apply list_elem_of_further.
      * apply elem_of_cons in Hin' as [?|?]; done.
Qed.

Lemma entry_label_with_label l e : label (entry_item (with_label l e)) = l.
Proof. done. Qed.

(** The second half of [getOrCreateFile] for a file of the workspace [wp],
    once the workspace has its prefix [P] and its set [ids]. *)
Lemma create_consistent st wp P ids id path tds pfs :
  consistent st →
  workspaceCommonPrefix st !! wp = Some P →
  workspaceItems st !! wp = Some ids →
  items st !! id = None →
  let P' := if String.prefix P path then P else shrink path P in
  consistent
    {| items :=
         <[id := {| entry_item := createTestItem id (substring (String.length P') path) id;
                    entry_path := path; canResolveChildren := true |}]>
           (if String.prefix P path then items st else relabel P' ids (items st));
       testData := tds;
       workspacePaths := workspacePaths st;
       workspaceCommonPrefix :=
         if String.prefix P path then workspaceCommonPrefix st
         else <[wp := P']> (workspaceCommonPrefix st);
       workspaceItems := alter (λ ids, ids ++ [id]) wp (workspaceItems st);
       pathToFileItem := pfs |}.
Proof.
  intros (Hboth & Hlab & Hdis) HP Hids Hnew P'.
  assert (String.prefix P' path = true) as Hpre.
  { subst P'. destruct (String.prefix P path) eqn:HPp; [done|apply shrink_prefix_p]. }
  assert (String.prefix P' P = true) as HpreP.
  { subst P'. destruct (String.prefix P path); [|apply shrink_prefix_P].
    apply prefix_startsWith. exists EmptyString. by rewrite append_empty_r. }
  assert (∀ w l i, workspaceItems st !! w = Some l → i ∈ l → i ≠ id) as Hold.
  { intros w l i Hl Hi ->. destruct (Hlab w l Hl) as (Q & _ & HQ).
    destruct (HQ id Hi) as (e & He & _). congruence. }
  assert (∀ w l, alter (λ ids, ids ++ [id]) wp (workspaceItems st) !! w = Some l →
            (w = wp ∧ l = ids ++ [id]) ∨ (w ≠ wp ∧ workspaceItems st !! w = Some l)) as Hsets.
  { intros w l Hl. destruct (decide (w = wp)) as [->|Hne].
    - rewrite lookup_alter_eq, Hids in Hl. injection Hl as <-. by left.
    - rewrite lookup_alter_ne in Hl by done. by right. }
  split_and!.
  - intros w Hw. simpl in *. rewrite lookup_alter_is_Some. apply Hboth.
    destruct (String.prefix P path); [done|].
    destruct (decide (w = wp)) as [->|Hne]; [by rewrite HP|].
    by rewrite lookup_insert_ne in Hw.
  - intros w l Hl. simpl in Hl. apply Hsets in Hl as [[-> ->]|[Hne Hl]].
    + exists P'. simpl. split.
      { subst P'. destruct (String.prefix P path); [done|by rewrite lookup_insert_eq]. }
      intros i Hi. apply elem_of_app in Hi as [Hi|Hi].
      * rewrite lookup_insert_ne by (symmetry; by eapply Hold).
        destruct (Hlab wp ids Hids) as (Q & HQ & Hentries).
        rewrite HP in HQ. injection HQ as <-.
        destruct (Hentries i Hi) as (e & He & Hpath).
        subst P'. destruct (String.prefix P path); [by exists e|].
        rewrite relabel_lookup, decide_True, He by done. simpl.
        eexists. split; [done|]. simpl. apply prefix_substring.
        apply (prefix_trans _ P); [done|]. rewrite Hpath. apply prefix_app.
      * apply list_elem_of_singleton in Hi as ->. rewrite lookup_insert_eq.
        eexists. split; [done|]. simpl. by apply prefix_substring.
    + destruct (Hlab w l Hl) as (Q & HQ & Hentries).
      exists Q. simpl. split.
      { destruct (String.prefix P path); [done|by rewrite lookup_insert_ne]. }
      intros i Hi. rewrite lookup_insert_ne by (symmetry; by eapply Hold).
      destruct (Hentries i Hi) as (e & He & Hpath). exists e. split; [|done].
      destruct (String.prefix P path); [done|].
      rewrite relabel_lookup, decide_False; [done|].
      intros Hin. apply Hne. by apply (Hdis w wp l ids i).
  - intros w1 w2 l1 l2 i Hl1 Hl2 Hi1 Hi2. simpl in *.
    apply Hsets in Hl1 as [[-> ->]|[Hne1 Hl1]]; apply Hsets in Hl2 as [[-> ->]|[Hne2 Hl2]].
    + done.
    + apply elem_of_app in Hi1 as [Hi1|Hi1]; [by apply (Hdis wp w2 ids l2 i)|].
      apply list_elem_of_singleton in Hi1 as ->. by eapply Hold in Hi2.
    + apply elem_of_app in Hi2 as [Hi2|Hi2]; [by apply (Hdis w1 wp l1 ids i)|].
      apply list_elem_of_singleton in Hi2 as ->. by eapply Hold in Hi1.
    + by apply (Hdis w1 w2 l1 l2 i).
Qed.

Lemma getOrCreateFile_consistent st uri :
  consistent st → consistent (getOrCreateFile sep st uri).1.
Proof.
  intros (Hboth & Hlab & Hdis). unfold getOrCreateFile.
  destruct (items st !! toString uri) as [e|] eqn:Hnew; [done|].
  destruct (List.find _ (workspacePaths st) ≫= _) as [wp|] eqn:Hwp.
  2:{ simpl. split_and!; [done| |done]. intros wp ids Hids.
      destruct (Hlab wp ids Hids) as (P & HP & Hi). exists P. split; [done|].
      intros i Hin. destruct (Hi i Hin) as (e & He & Hpath). exists e. split; [|done].
      simpl. rewrite lookup_insert_ne; [done|]. congruence. }
  destruct (workspaceCommonPrefix st !! wp) as [P|] eqn:HP.
  - destruct (Hboth wp) as [ids Hids]; [by rewrite HP|].
    pose proof (create_consistent st wp P ids (toString uri) (fsPath uri)
                  (<[toString uri := {| file_item := toString uri; file_children := [] |}]>
                     (testData st))
                  (<[fsPath uri := toString uri]> (pathToFileItem st))
                  (conj Hboth (conj Hlab Hdis)) HP Hids Hnew) as Hc.
    simpl in Hc. cbn beta iota zeta. rewrite HP, Hids. simpl.
    destruct (String.prefix P (fsPath uri)); exact Hc.
  - set (st1 := {| items := items st; testData := testData st;
                   workspacePaths := workspacePaths st;
                   workspaceCommonPrefix :=
                     <[wp := directoryOf sep (fsPath uri)]> (workspaceCommonPrefix st);
                   workspaceItems := <[wp := []]> (workspaceItems st);
                   pathToFileItem := pathToFileItem st |}).
    assert (consistent st1) as Hc1.
    { split_and!; simpl.
      - intros w Hw. destruct (decide (w = wp)) as [->|Hne].
        + by rewrite lookup_insert_eq.
        + rewrite lookup_insert_ne in Hw by congruence.
          rewrite lookup_insert_ne by congruence. by apply Hboth.
      - intros w l Hl. simpl in *. destruct (decide (w = wp)) as [->|Hne].
        + rewrite lookup_insert_eq in Hl. injection Hl as <-.
          rewrite lookup_insert_eq.
          eexists. split; [done|]. intros i Hi. by apply not_elem_of_nil in Hi.
        + rewrite lookup_insert_ne in Hl by congruence.
          rewrite lookup_insert_ne by congruence. by apply Hlab in Hl.
      - intros w1 w2 l1 l2 i Hl1 Hl2 Hi1 Hi2.
        destruct (decide (w1 = wp)) as [->|Hne1].
        { rewrite lookup_insert_eq in Hl1. injection Hl1 as <-.
          by apply not_elem_of_nil in Hi1. }
        destruct (decide (w2 = wp)) as [->|Hne2].
        { rewrite lookup_insert_eq in Hl2. injection Hl2 as <-.
          by apply not_elem_of_nil in Hi2. }
        rewrite lookup_insert_ne in Hl1, Hl2 by congruence.
        by apply (Hdis w1 w2 l1 l2 i). }
    pose proof (create_consistent st1 wp (directoryOf sep (fsPath uri)) []
                  (toString uri) (fsPath uri)
                  (<[toString uri := {| file_item := toString uri; file_children := [] |}]>
                     (testData st))
                  (<[fsPath uri := toString uri]> (pathToFileItem st))
                  Hc1 (lookup_insert_eq _ _ _) (lookup_insert_eq _ _ _) Hnew) as Hc.
    simpl in Hc. cbn beta iota zeta. rewrite !lookup_insert_eq. simpl.
    destruct (String.prefix (directoryOf sep (fsPath uri)) (fsPath uri)); exact Hc.
Qed.

Lemma afterFiles_consistent paths uris : consistent (afterFiles sep paths uris).
Proof.
  unfold afterFiles. induction uris as [|uri uris IH] using rev_ind.
  - split_and!.
    + intros wp [x Hx]. simpl in Hx. by rewrite lookup_empty in Hx.
    + intros wp ids Hids. simpl in Hids. by rewrite lookup_empty in Hids.
    + intros w1 w2 l1 l2 i Hl1. simpl in Hl1. by rewrite lookup_empty in Hl1.
  - rewrite foldl_app. simpl. by apply getOrCreateFile_consistent.
Qed.

(** X22.  After any sequence of calls of [getOrCreateFile] on a new
    discoverer, the file items of every workspace are labelled by their
    paths below the recorded prefix of the workspace: the prefix followed by
    the label of an item is the path of the item.  In particular the
    recorded prefix is a prefix of the path of every file of the
    workspace. *)
Theorem afterFiles_labelled paths uris : labelled (afterFiles sep paths uris).
Proof. apply (afterFiles_consistent paths uris). Qed.

Lemma getOrCreateFile_existing st uri :
  is_Some (items st !! toString uri) → getOrCreateFile sep st uri = (st, toString uri).
Proof. intros [e He]. unfold getOrCreateFile. by rewrite He. Qed.

Lemma getOrCreateFile_filed st uri :
  (getOrCreateFile sep st uri).2 = toString uri ∧
  is_Some (items (getOrCreateFile sep st uri).1 !! toString uri).
Proof.
  unfold getOrCreateFile.
  destruct (items st !! toString uri) as [e|] eqn:Hnew; [simpl; by rewrite Hnew|].
  match goal with
  | |- context [match ?X with pair _ _ => _ end] => destruct X as [[[name its] prefixes] sets]
  end.
  simpl. by rewrite lookup_insert_eq.
Qed.

(** X23.  [getOrCreateFile] gets or creates.  It returns the id that
    [uri.toString()] gives, the controller has an item under that id
    afterwards, and a second call with the same uri changes nothing; an item
    that is already filed under the id is returned as it is, with no other
    change, whatever its path. *)
Theorem getOrCreateFile_again st uri :
  let r := getOrCreateFile sep st uri in
  r.2 = toString uri ∧
  is_Some (items r.1 !! toString uri) ∧
  getOrCreateFile sep r.1 uri = r ∧
  (is_Some (items st !! toString uri) → r.1 = st).
Proof.
  intros r. destruct (getOrCreateFile_filed st uri) as [Hid Hfiled]. fold r in Hid, Hfiled.
  split_and!; [done|done| |].
  - rewrite (getOrCreateFile_existing r.1 uri Hfiled). rewrite <- Hid. by destruct r.
  - intros He. subst r. by rewrite (getOrCreateFile_existing st uri He).
Qed.

(** X24.  The loop that shrinks the prefix computes the longest common
    prefix of the path and the recorded prefix, character by character: the
    result is a prefix of both, and every common prefix is a prefix of
    it. *)
Theorem shrink_longest_common_prefix p workspacePrefix :
  String.prefix (shrink p workspacePrefix) p = true ∧
  String.prefix (shrink p workspacePrefix) workspacePrefix = true ∧
  ∀ q, String.prefix q p = true → String.prefix q workspacePrefix = true →
    String.prefix q (shrink p workspacePrefix) = true.
Proof.
  split_and!; [apply shrink_prefix_p|apply shrink_prefix_P|apply shrink_longest].
Qed.

Lemma split_nonempty s : split sep s ≠ [].
Proof.
  destruct s as [|c s]; simpl; [done|]. case_bool_decide; [done|].
  by destruct (split sep s).
Qed.

Lemma split_concat s : String.concat (String sep EmptyString) (split sep s) = s.
Proof.
  induction s as [|c s IH]; simpl; [done|].
  pose proof (split_nonempty s) as Hne.
  case_bool_decide as Hc.
  - subst c. destruct (split sep s) as [|x xs] eqn:Hs; [done|].
    change (String.concat ?a (EmptyString :: x :: xs))
      with (EmptyString +:+ a +:+ String.concat a (x :: xs)).
    by rewrite IH.
  - destruct (split sep s) as [|x xs] eqn:Hs; [done|].
    destruct xs as [|y ys]; simpl in *; by rewrite <- IH.
Qed.

Lemma concat_snoc (a : string) l x :
  l ≠ [] → String.concat a (l ++ [x]) = String.concat a l +:+ a +:+ x.
Proof.
  induction l as [|y l IH]; intros Hne; [done|].
  destruct l as [|z l]; [done|].
  change (String.concat a ((y :: z :: l) ++ [x]))
    with (y +:+ a +:+ String.concat a ((z :: l) ++ [x])).
  rewrite IH by done.
  change (String.concat a (y :: z :: l)) with (y +:+ a +:+ String.concat a (z :: l)).
  by rewrite !append_assoc.
Qed.

Lemma split_single s x : split sep s = [x] → x = s ∧ String.prefix (String sep EmptyString) s = false.
Proof.
  intros Hs. pose proof (split_concat s) as Hc. rewrite Hs in Hc. simpl in Hc. split; [done|].
  destruct s as [|c s]; [done|]. simpl in *.
  case_bool_decide as Hsep.
  - pose proof (split_nonempty s). injection Hs as _ Hs. done.
  - destruct (ascii_dec sep c); [congruence|done].
Qed.

(** The directory of a path followed by its base name is the path, unless
    the path has no separator. *)
Lemma directory_base s :
  (directoryOf sep s +:+ baseName sep s = s) ∨
  (baseName sep s = s ∧ String.prefix (directoryOf sep s) s = false ∧
   shrink s (directoryOf sep s) = EmptyString).
Proof.
  unfold directoryOf, baseName, slice_0_minus1.
  pose proof (split_nonempty s) as Hne. pose proof (split_concat s) as Hc.
  destruct (nonempty_snoc _ Hne) as (l & x & Hl). rewrite Hl in *.
  rewrite last_snoc, length_app. simpl.
  replace (length l + 1 - 1) with (length l) by lia. rewrite take_app_length.
  destruct l as [|y l].
  - right. simpl in *. destruct (split_single s x Hl) as [-> Hp].
    split_and!; [done|done|].
    destruct s as [|c s]; [done|]. simpl in *.
    destruct (ascii_dec sep c) as [->|Hne']; [by destruct s|].
    rewrite bool_decide_eq_false_2; [done|congruence].
  - left. rewrite concat_snoc in Hc by done. by rewrite append_assoc.
Qed.

(** X25.  The first file of a workspace, and a file outside every workspace,
    is labelled with its base name, the part of the path behind the last
    separator. *)
Theorem getOrCreateFile_first_file st uri :
  items st !! toString uri = None →
  (∀ wp, wp ∈ workspacePaths st → workspaceCommonPrefix st !! wp = None) →
  ∃ e, items (getOrCreateFile sep st uri).1 !! toString uri = Some e ∧
    entry_path e = fsPath uri ∧
    label (entry_item e) = baseName sep (fsPath uri).
Proof.
  intros Hnew Hfirst. unfold getOrCreateFile. rewrite Hnew.
  destruct (List.find _ (workspacePaths st)) as [wp0|] eqn:Hfind; simpl.
  2:{ rewrite lookup_insert_eq. by eexists. }
  case_bool_decide; simpl.
  { rewrite lookup_insert_eq. by eexists. }
  apply find_some in Hfind as [Hin _]. apply list_elem_of_In in Hin.
  rewrite (Hfirst wp0 Hin). cbn beta iota zeta. rewrite !lookup_insert_eq. simpl.
  destruct (directory_base (fsPath uri)) as [Hd|(Hb & Hp & Hs)].
  - assert (String.prefix (directoryOf sep (fsPath uri)) (fsPath uri) = true) as Hp.
    { apply prefix_startsWith. by exists (baseName sep (fsPath uri)). }
    rewrite Hp. simpl. rewrite lookup_insert_eq. eexists. split_and!; [done..|]. simpl.
    rewrite <- Hd at 2. apply substring_app.
  - rewrite Hp, Hs. simpl. rewrite lookup_insert_eq. eexists. split_and!; [done..|]. simpl.
    rewrite Hb. apply substring_0.
Qed.

End FilesFacts.

Lemma getOrCreateFile_first_file_witness :
  let st := Files.newDiscoverer ["/w"] in
  Files.items st !! Files.toString MoreSamples.a_uri = None ∧
  (∀ wp, wp ∈ Files.workspacePaths st → Files.workspaceCommonPrefix st !! wp = None) ∧
  Files.baseName "/" (Files.fsPath MoreSamples.a_uri) = "a.test.ts" ∧
  ∃ e, Files.items (Files.getOrCreateFile "/" st MoreSamples.a_uri).1
         !! Files.toString MoreSamples.a_uri = Some e ∧
    Files.entry_path e = Files.fsPath MoreSamples.a_uri ∧
    Tree.label (Files.entry_item e) = Files.baseName "/" (Files.fsPath MoreSamples.a_uri).
Proof.
  split; [reflexivity|]. split; [intros wp _; reflexivity|]. split; [vm_compute; reflexivity|].
  apply (getOrCreateFile_first_file "/" (Files.newDiscoverer ["/w"]) MoreSamples.a_uri).
  - reflexivity.
  - intros wp _. reflexivity.
Defined.

(** The prefix is common character by character, not directory by
    directory: with [/w/src/a.test.ts] and [/w/spec/b.test.ts] it is
    [/w/s]. *)
Example afterFiles_two_directories :
  let st := Files.afterFiles "/" ["/w"] [MoreSamples.a_uri; MoreSamples.b_uri] in
  Files.workspaceCommonPrefix st !! "/w" = Some "/w/s" ∧
  Tree.label <$> (Files.entry_item <$> Files.items st !! "file:///w/src/a.test.ts")
    = Some "rc/a.test.ts" ∧
  Tree.label <$> (Files.entry_item <$> Files.items st !! "file:///w/spec/b.test.ts")
    = Some "pec/b.test.ts".
Proof. vm_compute. repeat split. Qed.

(** ** Paths handed to the command line *)

Section UtilsFacts.
Import Utils.

Lemma replaceDoubleSlashes_clean s : backslash ∉ Shape.chars (replaceDoubleSlashes s).
Proof.
  induction s as [|c s IH]; simpl; [apply not_elem_of_nil|].
  apply not_elem_of_cons. split; [|done]. by case_bool_decide.
Qed.

Lemma replaceDoubleSlashes_id s : backslash ∉ Shape.chars s → replaceDoubleSlashes s = s.
Proof.
  induction s as [|c s IH]; simpl; [done|]. intros [Hc Hs]%not_elem_of_cons.
  rewrite IH by done. by rewrite bool_decide_eq_false_2 by congruence.
Qed.

Lemma replaceDoubleSlashes_length s :
  String.length (replaceDoubleSlashes s) = String.length s.
Proof. induction s as [|c s IH]; simpl; [done|]. by rewrite IH. Qed.

Lemma length_append (a b : string) :
  String.length (a +:+ b) = String.length a + String.length b.
Proof. induction a as [|x a IH]; [done|]. rewrite append_String. simpl. by rewrite IH. Qed.

(** X26.  [sanitizeFilePath] is the identity off Windows.  On Windows, and
    with an upper case that is never empty, brings in no backslash and
    starts with a character in upper case, the result has no backslash
    left.  Sanitising a sanitised path changes nothing, so that a path may
    safely pass through the function more than once.  The result is never
    shorter than the path; it is longer when the upper case of the first
    character is. *)
Theorem sanitizeFilePath_normalises toUpperCase isWindows path :
  caseMapping toUpperCase →
  let r := sanitizeFilePath toUpperCase isWindows path in
  sanitizeFilePath toUpperCase isWindows r = r ∧
  String.length path ≤ String.length r ∧
  (if isWindows then backslash ∉ Shape.chars r else r = path).
Proof.
  intros (Hne & Hbs & Hup) r. subst r. unfold sanitizeFilePath.
  destruct isWindows; [|done].
  pose proof (replaceDoubleSlashes_clean path) as Hclean.
  pose proof (replaceDoubleSlashes_length path) as Hlen.
  destruct (replaceDoubleSlashes path) as [|c s] eqn:Hr; simpl in Hclean, Hlen |- *.
  { split_and!; [done|lia|apply not_elem_of_nil]. }
  apply not_elem_of_cons in Hclean as [Hc Hs].
  assert (backslash ∉ Shape.chars (toUpperCase c +:+ s)) as Hout.
  { rewrite chars_app, elem_of_app. intros [Hin|Hin]; [by apply (Hbs c)|done]. }
  split_and!; [|rewrite length_append|done].
  - rewrite replaceDoubleSlashes_id by done.
    specialize (Hup c). specialize (Hne c).
    destruct (toUpperCase c) as [|u us]; [done|].
    rewrite append_String. simpl in Hup |- *.
    by rewrite <- append_assoc, Hup, append_String.
  - specialize (Hne c). destruct (toUpperCase c); [done|]. simpl. lia.
Qed.

End UtilsFacts.

Lemma toUpperCase_caseMapping : Utils.caseMapping MoreSamples.toUpperCase.
Proof.
  split_and!.
  - intros c. by destruct c as [[] [] [] [] [] [] [] []].
  - intros c.
    destruct c as [[] [] [] [] [] [] [] []]; intros Hc;
      first [ by apply (bool_decide_unpack _); vm_compute | by destruct Hc ].
  - intros c. by destruct c as [[] [] [] [] [] [] [] []]; vm_compute.
Qed.

Lemma sanitizeFilePath_normalises_witness :
  let r := Utils.sanitizeFilePath MoreSamples.toUpperCase true MoreSamples.sharp_path in
  r = "SSa/b" ∧
  Utils.caseMapping MoreSamples.toUpperCase ∧
  (Utils.sanitizeFilePath MoreSamples.toUpperCase true r = r ∧
   String.length MoreSamples.sharp_path ≤ String.length r ∧
   Utils.backslash ∉ Shape.chars r).
Proof.
  split; [reflexivity|]. split; [exact toUpperCase_caseMapping|].
  apply (sanitizeFilePath_normalises MoreSamples.toUpperCase true MoreSamples.sharp_path).
  exact toUpperCase_caseMapping.
Defined.

(** ** Positions in transformed code *)

Section IndexMapFacts.
Import IndexMap.

Lemma breaks_snoc text c :
  breaks (text ++ [c]) = breaks text + (if bool_decide (c = newline) then 1 else 0).
Proof.
  unfold breaks. rewrite filter_app, length_app, filter_cons, filter_nil.
  case_decide; case_bool_decide; simpl; done.
Qed.

Lemma lastLine_snoc text c :
  lastLine (text ++ [c]) = if bool_decide (c = newline) then [] else lastLine text ++ [c].
Proof.
  induction text as [|d text IH]; simpl.
  - unfold breaks. simpl. by case_bool_decide.
  - rewrite breaks_snoc, IH.
    destruct (bool_decide (c = newline)) eqn:Hc.
    + rewrite bool_decide_eq_false_2 by lia. done.
    + rewrite Nat.add_0_r. repeat case_bool_decide; done.
Qed.

Lemma fill_lookup source : ∀ index line column map i,
  fill source index line column map !! i =
  if bool_decide (index ≤ i < index + length source)
  then Some (foldl advance (line, column) (take (i - index) source))
  else map !! i.
Proof.
  induction source as [|c source IH]; intros index line column map i.
  - simpl. rewrite bool_decide_eq_false_2 by lia. done.
  - cbn [fill].
    assert (∀ b : bool,
              (if b then fill source (S index) (S line) 0 (<[index := (line, column)]> map)
               else fill source (S index) line (S column) (<[index := (line, column)]> map)) !! i
              = fill source (S index) (if b then S line else line) (if b then 0 else S column)
                  (<[index := (line, column)]> map) !! i) as -> by (by intros []).
    rewrite IH. cbn [length].
    destruct (decide (i = index)) as [->|Hne].
    + rewrite (bool_decide_eq_false_2 (S index ≤ index < _)) by lia.
      rewrite (bool_decide_eq_true_2 (index ≤ index < _)) by lia.
      by rewrite lookup_insert_eq, Nat.sub_diag.
    + rewrite lookup_insert_ne by done.
      destruct (decide (S index ≤ i < S index + length source)).
      * rewrite (bool_decide_eq_true_2 (S index ≤ i < _)) by done.
        rewrite (bool_decide_eq_true_2 (index ≤ i < _)) by lia.
        replace (i - index) with (S (i - S index)) by lia.
        cbn [take foldl]. do 2 f_equal. unfold advance. cbn [fst snd]. by case_bool_decide.
      * rewrite (bool_decide_eq_false_2 (S index ≤ i < _)) by done.
        rewrite (bool_decide_eq_false_2 (index ≤ i < _)) by lia.
        done.
Qed.

Lemma advance_closed text :
  foldl advance (1, 1) text =
  (1 + breaks text,
   length (lastLine text) + (if bool_decide (breaks text = 0) then 1 else 0)).
Proof.
  induction text as [|c text IH] using rev_ind; [done|].
  rewrite foldl_app. cbn [foldl]. rewrite IH, breaks_snoc, lastLine_snoc.
  unfold advance. cbn [fst snd]. destruct (bool_decide (c = newline)).
  - rewrite (bool_decide_eq_false_2 (breaks text + 1 = 0)) by lia.
    cbn [length]. f_equal; lia.
  - rewrite Nat.add_0_r, length_app. cbn [length]. f_equal; lia.
Qed.

Lemma units_bounds char : 1 ≤ units char ≤ 2.
Proof. unfold units. destruct (char <? 65536)%N; lia. Qed.

(** The characters of a text are at most as many as its units, and as many
    exactly when each of them is one unit. *)
Lemma utf16Length_characters text :
  length text ≤ utf16Length text ∧
  (utf16Length text = length text ↔ Forall (λ char, units char = 1) text).
Proof.
  induction text as [|c text [IHle IHeq]]; simpl.
  - split; [lia|]. split; [constructor|done].
  - pose proof (units_bounds c). split; [lia|]. split.
    + intros Heq. constructor; [lia|]. apply IHeq. lia.
    + intros [Hc Ht]%Forall_cons. apply IHeq in Ht. lia.
Qed.

(** X27.  [createIndexMap] numbers the characters of the source as the
    iteration yields them, code point by code point: it has an entry for
    the number of every character and for no other number.  The line of a
    character is one more than the number of line breaks in front of it.
    Its column is the number of characters between the last of those line
    breaks and the character; on the first line, where there is no such line
    break, it is one more than the number of characters in front: columns
    start at 1 on the first line and at 0 on the others.  The number of a
    character is at most its offset in the string, which counts UTF-16
    units, and equal to it exactly when no character in front of it lies
    above U+FFFF. *)
Theorem createIndexMap_positions source i :
  let front := take i source in
  createIndexMap source !! i =
    (if bool_decide (i < length source)
     then Some (1 + breaks front,
                length (lastLine front) + (if bool_decide (breaks front = 0) then 1 else 0))
     else None) ∧
  (i < length source →
     i ≤ utf16Length front ∧
     (utf16Length front = i ↔ Forall (λ char, units char = 1) front)).
Proof.
  intros front. subst front. split.
  - unfold createIndexMap.
    rewrite fill_lookup, Nat.sub_0_r, advance_closed.
    destruct (decide (i < length source)).
    + rewrite (bool_decide_eq_true_2 (0 ≤ i < _)) by lia.
      by rewrite (bool_decide_eq_true_2 (i < _)) by lia.
    + rewrite (bool_decide_eq_false_2 (0 ≤ i < _)) by lia.
      by rewrite (bool_decide_eq_false_2 (i < _)) by lia.
  - intros Hi. pose proof (utf16Length_characters (take i source)) as [Hle Heq].
    rewrite length_take in Hle, Heq.
    replace (i `min` length source) with i in Hle, Heq by lia. done.
Qed.

(** A source with a character above U+FFFF: the string has five units and
    the map four entries; [b], at offset 4 of the string, is found under 3,
    and nothing is found under 4. *)
Example createIndexMap_face :
  utf16Length MoreSamples.face_source = 5 ∧
  createIndexMap MoreSamples.face_source !! 3 = Some (2, 0) ∧
  createIndexMap MoreSamples.face_source !! 4 = None.
Proof. vm_compute. done. Qed.

End IndexMapFacts.

(** ** Placing the definitions the collector found *)

Section CollectorFacts.
Import Collector.

Lemma updateLatestSuite_suffix index chain :
  updateLatestSuite index chain `suffix_of` chain.
Proof.
  induction chain as [|s chain IH]; simpl; [done|].
  destruct (suite_end s <? index)%Z; [by apply suffix_cons_r|done].
Qed.

Lemma updateLatestSuite_head index chain s :
  head (updateLatestSuite index chain) = Some s → (index ≤ suite_end s)%Z.
Proof.
  induction chain as [|x chain IH]; simpl; [done|].
  destruct (suite_end x <? index)%Z eqn:Hx; [done|].
  simpl. intros [= <-]. by apply Z.ltb_ge.
Qed.

Lemma chainOf_mono tasks tasks' chain :
  chainOf tasks chain → chainOf (tasks ++ tasks') chain.
Proof.
  intros H. eapply Forall_impl; [exact H|].
  intros s (t & Ht & ?). exists t. split; [|done].
  by apply lookup_app_l_Some.
Qed.

Lemma placed_mono tasks tasks' k d t :
  placed tasks k d t → placed (tasks ++ tasks') k d t.
Proof.
  intros (? & ? & ? & ? & Hs). split_and!; try done.
  destruct (task_suite t) as [p|]; [|done].
  destruct Hs as (Hp & s & Hts & ?). split; [done|]. exists s. split; [|done].
  by apply lookup_app_l_Some.
Qed.

(** One turn of the loop. *)
Lemma place_step chain tasks d :
  chainOf tasks chain →
  let st' := place (chain, tasks) d in
  chainOf st'.2 st'.1 ∧
  ∃ t, st'.2 = tasks ++ [t] ∧ placed st'.2 (length tasks) d t.
Proof.
  intros Hchain. unfold place. cbn [fst snd].
  set (chain' := updateLatestSuite (start d) chain).
  assert (chainOf tasks chain') as Hchain'.
  { destruct (updateLatestSuite_suffix (start d) chain) as [pre Hpre].
    unfold chainOf in Hchain. fold chain' in Hpre. rewrite Hpre in Hchain.
    by apply Forall_app in Hchain as [_ ?]. }
  pose proof (updateLatestSuite_head (start d) chain) as Hhead. fold chain' in Hhead.
  set (latestMode := match chain' with s :: _ => suite_mode s | [] => "run" end).
  set (mode' := if bool_decide (latestMode ≠ "run") then latestMode else mode d).
  set (t := {| task_type := type d; task_name := name d; task_mode := mode';
               task_start := start d; task_end := end_ d;
               task_suite := position <$> head chain' |}).
  split.
  - destruct (type d) eqn:Hty; [|by apply chainOf_mono].
    constructor; [|by apply chainOf_mono].
    exists t. simpl. split_and!; try done.
    by rewrite lookup_app_r, Nat.sub_diag by done.
  - exists t. split; [done|]. split_and!; try done. simpl.
    destruct chain' as [|s chain''] eqn:Hc; simpl.
    + by subst mode' latestMode.
    + apply Forall_cons in Hchain' as [(ts & Hts & Hsuite & Hend & Hmode) _].
      split; [by apply lookup_lt_Some in Hts|].
      exists ts. split_and!; [by apply lookup_app_l_Some|done| |].
      * rewrite Hend. by apply Hhead.
      * subst mode' latestMode. by rewrite Hmode.
Qed.

Lemma place_all defs : ∀ chain tasks,
  chainOf tasks chain →
  let tasks' := (foldl place (chain, tasks) defs).2 in
  ∃ new, tasks' = tasks ++ new ∧ length new = length defs ∧
    ∀ k d t, defs !! k = Some d → new !! k = Some t →
      placed tasks' (length tasks + k) d t.
Proof.
  induction defs as [|d defs IH]; intros chain tasks Hchain.
  - exists []. simpl. split_and!; [by rewrite app_nil_r|done|]. intros k d t Hk. done.
  - cbn [foldl]. destruct (place_step chain tasks d Hchain) as (Hchain1 & t & Ht & Hplaced).
    destruct (place (chain, tasks) d) as [chain1 tasks1]. cbn [fst snd] in *.
    destruct (IH chain1 tasks1 Hchain1) as (new & Hnew & Hlen & Hall).
    exists (t :: new). split_and!.
    + rewrite Hnew, Ht, <- app_assoc. done.
    + simpl. by rewrite Hlen.
    + intros [|k] d' t' Hd Ht'; simpl in *.
      * injection Hd as <-. injection Ht' as <-. rewrite Nat.add_0_r.
        rewrite Hnew. by apply placed_mono.
      * replace (length tasks + S k) with (length tasks1 + k)
          by (rewrite Ht, length_app; simpl; lia).
        by apply Hall.
Qed.

(** X28.  The loop makes one task for every definition, in the order of the
    sorted array, with the type, the name and the offsets of the
    definition.  A task is put into the file or into a suite that was
    defined before it and has not ended where the task starts.  In the file,
    and in a suite whose mode is ['run'], it keeps the mode of its
    definition; in any other suite it takes the mode of the suite. *)
Theorem placeAll_places definitions :
  let sorted := sortDefinitions definitions in
  let tasks := placeAll definitions in
  length tasks = length sorted ∧
  ∀ k d, sorted !! k = Some d → ∃ t, tasks !! k = Some t ∧ placed tasks k d t.
Proof.
  intros sorted tasks. subst tasks. unfold placeAll. fold sorted.
  destruct (place_all sorted [] [] (List.Forall_nil _)) as (new & Hnew & Hlen & Hall).
  simpl in *. rewrite Hnew. split; [done|].
  intros k d Hd. destruct (new !! k) as [t|] eqn:Ht.
  - exists t. split; [done|]. rewrite <- Hnew. by apply Hall.
  - apply lookup_ge_None in Ht. apply lookup_lt_Some in Hd. lia.
Qed.

Lemma placeAll_mode definitions k t :
  placeAll definitions !! k = Some t →
  match task_suite t with
  | None => True
  | Some p =>
      ∃ s, placeAll definitions !! p = Some s ∧
        (task_mode s ≠ "run" → task_mode t = task_mode s)
  end.
Proof.
  unfold placeAll.
  destruct (place_all (sortDefinitions definitions) [] [] (List.Forall_nil _))
    as (new & Hnew & Hlen & Hall).
  simpl in *. rewrite Hnew. intros Ht.
  destruct (sortDefinitions definitions !! k) as [d|] eqn:Hd.
  - destruct (Hall k d t Hd Ht) as (_ & _ & _ & _ & Hs). rewrite Hnew in Hs.
    destruct (task_suite t) as [p|]; [|done].
    destruct Hs as (_ & s & Hts & _ & _ & Hmode). exists s. split; [done|].
    intros Hrun. by rewrite bool_decide_eq_true_2 in Hmode.
  - apply lookup_ge_None in Hd. apply lookup_lt_Some in Ht. lia.
Qed.

(** X29.  A mode on a suite reaches everything inside it.  When a suite has a
    mode other than ['run'], be it its own or one it took from a suite
    around it, every task inside it, at any depth, has that mode, whatever
    the modifiers of the calls inside. *)
Theorem placeAll_mode_reaches_inside definitions k p s t :
  inside (placeAll definitions) k p →
  placeAll definitions !! p = Some s →
  placeAll definitions !! k = Some t →
  task_mode s ≠ "run" →
  task_mode t = task_mode s.
Proof.
  intros Hin. revert s t. induction Hin as [k p t0 Hk Hsuite|k q p t0 Hk Hsuite Hin IH];
    intros s t Hs Ht Hrun; rewrite Hk in Ht; injection Ht as <-.
  - pose proof (placeAll_mode definitions k t0 Hk) as Hm. rewrite Hsuite in Hm.
    destruct Hm as (s' & Hs' & Hm). rewrite Hs in Hs'. injection Hs' as <-. by apply Hm.
  - pose proof (placeAll_mode definitions k t0 Hk) as Hm. rewrite Hsuite in Hm.
    destruct Hm as (tq & Hq & Hm). specialize (IH s tq Hs Hq Hrun).
    rewrite Hm; [done|]. by rewrite IH.
Qed.

End CollectorFacts.

Lemma placeAll_mode_reaches_inside_witness :
  let tasks := Collector.placeAll MoreSamples.skipped_suite in
  Collector.task_mode <$> tasks = ["skip"; "skip"; "skip"; "only"] ∧
  Collector.task_suite <$> tasks = [None; Some 0; Some 1; None] ∧
  Collector.inside tasks 2 0 ∧
  (Collector.task_mode <$> tasks !! 2) = (Collector.task_mode <$> tasks !! 0).
Proof.
  split; [vm_compute; reflexivity|]. split; [vm_compute; reflexivity|].
  assert (Collector.inside (Collector.placeAll MoreSamples.skipped_suite) 2 0) as Hin.
  { eapply Collector.inside_deeper; [vm_compute; reflexivity|reflexivity|].
    eapply Collector.inside_child; [vm_compute; reflexivity|reflexivity]. }
  split; [exact Hin|].
  destruct (Collector.placeAll MoreSamples.skipped_suite !! 0) as [s|] eqn:Hs;
    [|vm_compute in Hs; discriminate Hs].
  destruct (Collector.placeAll MoreSamples.skipped_suite !! 2) as [t|] eqn:Ht;
    [|vm_compute in Ht; discriminate Ht].
  simpl. f_equal.
  apply (placeAll_mode_reaches_inside MoreSamples.skipped_suite 2 0 s t Hin Hs Ht).
  vm_compute in Hs. injection Hs as <-. discriminate.
Defined.

(** ** Reconnecting the websocket client *)

Section ReconnectFacts.
Import Reconnect.

Lemma closes_cons e trace :
  closes (e :: trace) = ((if bool_decide (e = Close) then 1 else 0) + closes trace)%Z.
Proof.
  unfold closes. rewrite filter_cons. case_decide; case_bool_decide; try done.
  simpl length. lia.
Qed.

Lemma closes_nonneg trace : (0 ≤ closes trace)%Z.
Proof. unfold closes. lia. Qed.

Lemma run_lost options trace : ∀ c,
  Forall lost trace →
  let c' := run options trace c in
  tries c' = (tries c - closes trace)%Z ∧
  Z.of_nat (sockets c' + timers c') =
    (Z.of_nat (sockets c + timers c)
     + (if autoReconnect options
        then Z.min (closes trace) (Z.max 0 (tries c - 1)) else 0))%Z.
Proof.
  induction trace as [|e trace IH]; intros c Hlost.
  - simpl. unfold closes. simpl. split; [lia|]. destruct (autoReconnect options); lia.
  - apply Forall_cons in Hlost as [He Hlost]. simpl.
    destruct (IH (step options c e) Hlost) as [Ht Hq]. unfold run in *.
    cbn [foldl]. rewrite Ht, Hq, closes_cons. pose proof (closes_nonneg trace).
    destruct He as [-> | ->]; simpl.
    + split; [lia|].
      destruct (autoReconnect options); simpl; [|lia].
      destruct (0 <? tries c - 1)%Z eqn:Hpos; [apply Z.ltb_lt in Hpos|apply Z.ltb_ge in Hpos]; lia.
    + destruct (timers c) as [|pending] eqn:Htimers; simpl; rewrite ?Htimers; split; try lia;
        destruct (autoReconnect options); lia.
Qed.

(** X30.  A client whose connection is lost for good stops reconnecting.  As
    long as no socket opens and [reconnect] is not called from outside,
    every close takes one off [tries], and the sockets that are constructed
    or scheduled beyond the first one number the closes, but no more than
    [reconnectTries - 1]; with [autoReconnect] off there is none. *)
Theorem reconnect_budget options trace :
  Forall lost trace →
  let c := run options trace (createClient options) in
  tries c = (reconnectTries options - closes trace)%Z ∧
  Z.of_nat (sockets c + timers c) =
    (1 + (if autoReconnect options
          then Z.min (closes trace) (Z.max 0 (reconnectTries options - 1)) else 0))%Z.
Proof. intros Hlost. apply (run_lost options trace (createClient options) Hlost). Qed.

End ReconnectFacts.

Lemma reconnect_budget_witness :
  let options := {| Reconnect.autoReconnect := true; Reconnect.reconnectTries := 3 |} in
  let trace := [Reconnect.Close; Reconnect.Timeout; Reconnect.Close; Reconnect.Timeout;
                Reconnect.Close; Reconnect.Close] in
  let c := Reconnect.run options trace (Reconnect.createClient options) in
  Forall Reconnect.lost trace ∧
  Reconnect.sockets c = 3 ∧ Reconnect.timers c = 0 ∧
  Reconnect.tries c = (3 - Reconnect.closes trace)%Z ∧
  Z.of_nat (Reconnect.sockets c + Reconnect.timers c) =
    (1 + Z.min (Reconnect.closes trace) (Z.max 0 (3 - 1)))%Z.
Proof.
  assert (Forall Reconnect.lost
            [Reconnect.Close; Reconnect.Timeout; Reconnect.Close; Reconnect.Timeout;
             Reconnect.Close; Reconnect.Close]) as Hlost.
  { repeat constructor; (by left) || (by right). }
  split; [exact Hlost|]. split; [reflexivity|]. split; [reflexivity|].
  exact (reconnect_budget {| Reconnect.autoReconnect := true; Reconnect.reconnectTries := 3 |}
           _ Hlost).
Defined.
